(** * Release-note scraping: a shallow embedding of [notes/notes.go]

    The Go package walks a commit range through the GitHub API, resolves each
    commit to its pull request and linked issue, derives a note text and a
    few classification flags, and returns the deduplicated notes.

    Conventions of the embedding:
    - a Go [string] is a sequence of bytes, here [list ascii];
    - a Go [int] is a 64-bit signed integer, here a [Z] with the range check
      of [strconv.Atoi] written out;
    - a Go [(T, error)] result is [Res T];
    - the [*github.Client] is a record of the four remote calls the package
      makes; the remote side is taken to answer the same request the same way
      during one run;
    - [regexp] is embedded for the fragment of RE2 syntax that the patterns of
      this package use, with the leftmost-first (backtracking order) match
      that Go's [regexp] package returns;
    - records written through the go-kit [logger] are collected in a list;
      the diagnostic lines printed to [os.Stderr] carry no result and are
      left out;
    - the pointers that the package dereferences without a check (the
      message of a commit, the committer date of a boundary commit, the
      name of a label) are taken to be set, and the getters of [go-github]
      give the zero value for what is missing. *)

From Stdlib Require Import ZArith Lia Ascii String DecimalString.
From stdpp Require Import base option list strings gmap.

Local Open Scope Z_scope.
Local Open Scope list_scope.

(** ** Strings *)

Module GoString.

Abbreviation gostring := (list ascii).

Definition str (s : string) : gostring := list_ascii_of_string s.

Definition CR : ascii := "013"%char.
Definition LF : ascii := "010"%char.
Definition CRLF : gostring := [CR; LF].
Definition DQUOTE : ascii := "034"%char.

Definition eqs (a b : gostring) : bool := bool_decide (a = b).

(** [strings.HasPrefix] *)
Fixpoint HasPrefix (s prefix : gostring) {struct prefix} : bool :=
  match prefix, s with
  | [], _ => true
  | p :: prefix', c :: s' => Ascii.eqb p c && HasPrefix s' prefix'
  | _ :: _, [] => false
  end.

(** [strings.TrimPrefix] *)
Definition TrimPrefix (s prefix : gostring) : gostring :=
  if HasPrefix s prefix then drop (length prefix) s else s.

(** [strings.TrimRight s cutset]: every trailing byte that belongs to the
    cutset goes (the cutsets of this package are ASCII). *)
Fixpoint TrimLeftBytes (s cutset : gostring) : gostring :=
  match s with
  | c :: s' => if existsb (Ascii.eqb c) cutset then TrimLeftBytes s' cutset else s
  | [] => []
  end.

Definition TrimRight (s cutset : gostring) : gostring :=
  rev (TrimLeftBytes (rev s) cutset).

(** The UTF-8 encodings of the runes for which [unicode.IsSpace] holds:
    the six ASCII ones, U+0085, U+00A0, U+1680, U+2000..U+200A, U+2028,
    U+2029, U+202F, U+205F and U+3000. *)
Definition b (n : nat) : ascii := ascii_of_nat n.

Definition spaceRunes : list gostring :=
  [ [b 9]; [b 10]; [b 11]; [b 12]; [b 13]; [b 32];
    [b 194; b 133]; [b 194; b 160];
    [b 225; b 154; b 128];
    [b 226; b 128; b 128]; [b 226; b 128; b 129]; [b 226; b 128; b 130];
    [b 226; b 128; b 131]; [b 226; b 128; b 132]; [b 226; b 128; b 133];
    [b 226; b 128; b 134]; [b 226; b 128; b 135]; [b 226; b 128; b 136];
    [b 226; b 128; b 137]; [b 226; b 128; b 138];
    [b 226; b 128; b 168]; [b 226; b 128; b 169]; [b 226; b 128; b 175];
    [b 226; b 129; b 159];
    [b 227; b 128; b 128] ].

(** The first rune of [s] is a space: the width of its encoding. *)
Definition leadingSpace (s : gostring) : option nat :=
  length <$> find (HasPrefix s) spaceRunes.

Fixpoint trimLeftSpace (fuel : nat) (s : gostring) : gostring :=
  match fuel with
  | O => s
  | S fuel' =>
      match leadingSpace s with
      | Some w => trimLeftSpace fuel' (drop w s)
      | None => s
      end
  end.

(** The last rune of [s] is a space: the width of its encoding. *)
Definition trailingSpace (s : gostring) : option nat :=
  length <$> find (fun w => HasPrefix (rev s) (rev w)) spaceRunes.

Fixpoint trimRightSpace (fuel : nat) (s : gostring) : gostring :=
  match fuel with
  | O => s
  | S fuel' =>
      match trailingSpace s with
      | Some w => trimRightSpace fuel' (take (length s - w) s)
      | None => s
      end
  end.

(** [strings.TrimSpace]: leading, then trailing white space. Each step
    removes at least one byte, so [length s] steps are enough. *)
Definition TrimSpace (s : gostring) : gostring :=
  let s1 := trimLeftSpace (length s) s in
  trimRightSpace (length s1) s1.

(** [bufio.MaxScanTokenSize] *)
Definition MaxScanTokenSize : nat := 64 * 1024.

Definition dropCR (data : gostring) : gostring :=
  match rev data with
  | c :: r => if Ascii.eqb c CR then rev r else data
  | [] => data
  end.

Fixpoint IndexByte (s : gostring) (c : ascii) : option nat :=
  match s with
  | [] => None
  | x :: s' => if Ascii.eqb x c then Some O else S <$> IndexByte s' c
  end.

(** [bufio.NewScanner(strings.NewReader(s))], one [Scan()], then [Text()]:
    the first line without its end-of-line marker. The scanner's buffer
    grows to [MaxScanTokenSize] bytes at most; when it is full and holds no
    newline the scan fails and [Text()] is empty. *)
Definition ScanFirstLine (s : gostring) : gostring :=
  let data := take MaxScanTokenSize s in
  match IndexByte data LF with
  | Some i => dropCR (take i data)
  | None => if (length s <? MaxScanTokenSize)%nat then dropCR s else []
  end.

(** The longest prefix of bytes that satisfy [p], and what follows it. *)
Fixpoint takeRun (p : ascii -> bool) (s : gostring) : gostring :=
  match s with
  | c :: s' => if p c then c :: takeRun p s' else []
  | [] => []
  end.

Fixpoint dropRun (p : ascii -> bool) (s : gostring) : gostring :=
  match s with
  | c :: s' => if p c then dropRun p s' else s
  | [] => []
  end.

(** [%d] of [fmt.Sprintf] *)
Definition Itoa (n : Z) : gostring := str (NilZero.string_of_int (Z.to_int n)).

End GoString.
Import GoString.

(** ** The [regexp] package, for the patterns of this program

    The patterns of [notes.go] use literals, the classes [\d], [\s] and [.],
    concatenation, alternation, [?], [+] and [*] on a single class, capture
    groups and the [(?i)] flag. Matching is done on bytes: every literal and
    class of these patterns is ASCII, a non-ASCII byte never starts inside
    another rune's encoding, and [.] stops at the byte [\n] only, so the
    byte-wise match and Go's rune-wise match agree. *)

Module Regexp.

Inductive cclass :=
| CByte (c : ascii)   (* a literal byte *)
| CFold (c : ascii)   (* an ASCII letter under (?i): either case *)
| CDigit              (* \d = [0-9] *)
| CSpace              (* \s = [\t\n\f\r ] *)
| CDot.               (* . = any character but \n *)

Definition isDigit (c : ascii) : bool :=
  (48 <=? nat_of_ascii c)%nat && (nat_of_ascii c <=? 57)%nat.

Definition isUpper (c : ascii) : bool :=
  (65 <=? nat_of_ascii c)%nat && (nat_of_ascii c <=? 90)%nat.

Definition isLower (c : ascii) : bool :=
  (97 <=? nat_of_ascii c)%nat && (nat_of_ascii c <=? 122)%nat.

Definition toLower (c : ascii) : ascii :=
  if isUpper c then ascii_of_nat (nat_of_ascii c + 32) else c.

Definition isReSpace (c : ascii) : bool :=
  existsb (Ascii.eqb c) [b 9; b 10; b 12; b 13; b 32].

Definition cmatch (cl : cclass) (c : ascii) : bool :=
  match cl with
  | CByte x => Ascii.eqb x c
  | CFold x => Ascii.eqb (toLower x) (toLower c)
  | CDigit => isDigit c
  | CSpace => isReSpace c
  | CDot => negb (Ascii.eqb c LF)
  end.

Inductive regex :=
| Eps
| Cls (cl : cclass)
| Cat (r1 r2 : regex)
| Alt (r1 r2 : regex)                          (* r1|r2, r1 tried first *)
| Star (cl : cclass)                           (* x*, greedy *)
| Group (i : nat) (name : gostring) (r : regex). (* the i-th parenthesis *)

Definition Plus (cl : cclass) : regex := Cat (Cls cl) (Star cl).  (* x+ *)
Definition Opt (r : regex) : regex := Alt r Eps.                  (* x? *)

Fixpoint Seq (rs : list regex) : regex :=
  match rs with
  | [] => Eps
  | [r] => r
  | r :: rs' => Cat r (Seq rs')
  end.

Fixpoint Alts (rs : list regex) : regex :=
  match rs with
  | [] => Eps
  | [r] => r
  | r :: rs' => Alt r (Alts rs')
  end.

(** A literal string. *)
Fixpoint Lit (w : gostring) : regex :=
  match w with
  | [] => Eps
  | c :: w' => Cat (Cls (CByte c)) (Lit w')
  end.

(** One literal character under [(?i)]. Go folds with [unicode.SimpleFold]:
    besides the other case of the letter, [s] also matches U+017F (bytes
    C5 BF) and [k] also matches U+212A (bytes E2 84 AA). *)
Definition FoldChar (c : ascii) : regex :=
  if isUpper c || isLower c then
    if Ascii.eqb (toLower c) "s" then
      Alt (Cls (CFold c)) (Lit [b 197; b 191])
    else if Ascii.eqb (toLower c) "k" then
      Alt (Cls (CFold c)) (Lit [b 226; b 132; b 170])
    else Cls (CFold c)
  else Cls (CByte c).

(** A literal string under [(?i)]. *)
Fixpoint ILit (w : gostring) : regex :=
  match w with
  | [] => Eps
  | c :: w' => Cat (FoldChar c) (ILit w')
  end.

Definition caps := list (nat * gostring).

Section Run.
Context {A : Type}.

(** [x*]: as many as possible first, then one less, and so on. *)
Fixpoint star_loop (p : ascii -> bool) (s : gostring)
    (k : gostring -> option A) : option A :=
  match s with
  | c :: s' =>
      if p c then
        match star_loop p s' k with
        | Some x => Some x
        | None => k s
        end
      else k s
  | [] => k []
  end.

(** The backtracking matcher, anchored at the start of [s]: [k] receives
    what is left of the input and the groups captured so far. *)
Fixpoint run (r : regex) (s : gostring) (cs : caps)
    (k : gostring -> caps -> option A) : option A :=
  match r with
  | Eps => k s cs
  | Cls cl =>
      match s with
      | c :: s' => if cmatch cl c then k s' cs else None
      | [] => None
      end
  | Cat r1 r2 => run r1 s cs (fun s' cs' => run r2 s' cs' k)
  | Alt r1 r2 =>
      match run r1 s cs k with
      | Some x => Some x
      | None => run r2 s cs k
      end
  | Star cl => star_loop (cmatch cl) s (fun s' => k s' cs)
  | Group i _ r' =>
      run r' s cs
        (fun s' cs' => k s' ((i, take (length s - length s') s) :: cs'))
  end.
End Run.

(** A match anchored at the start of [s]: the rest of the input and the
    captures. *)
Definition match_at (r : regex) (s : gostring) : option (gostring * caps) :=
  run r s [] (fun s' cs => Some (s', cs)).

(** One match found in a string. *)
Record found := {
  f_before : gostring;
  f_matched : gostring;
  f_caps : caps;
  f_after : gostring
}.

Definition shift (c : ascii) (f : found) : found :=
  {| f_before := c :: f_before f; f_matched := f_matched f;
     f_caps := f_caps f; f_after := f_after f |}.

(** The leftmost match: the first start position where the anchored match
    succeeds. *)
Fixpoint search (r : regex) (s : gostring) : option found :=
  match match_at r s with
  | Some (rest, cs) =>
      Some {| f_before := []; f_matched := take (length s - length rest) s;
              f_caps := cs; f_after := rest |}
  | None =>
      match s with
      | [] => None
      | c :: s' => shift c <$> search r s'
      end
  end.

Fixpoint capLookup (i : nat) (cs : caps) : gostring :=
  match cs with
  | [] => []
  | (j, w) :: cs' => if Nat.eqb i j then w else capLookup i cs'
  end.

(** [NumSubexp]: the number of parenthesised groups. *)
Fixpoint NumSubexp (r : regex) : nat :=
  match r with
  | Eps | Cls _ | Star _ => 0
  | Cat r1 r2 | Alt r1 r2 => NumSubexp r1 + NumSubexp r2
  | Group _ _ r' => S (NumSubexp r')
  end.

Fixpoint groupNames (r : regex) : list (nat * gostring) :=
  match r with
  | Eps | Cls _ | Star _ => []
  | Cat r1 r2 | Alt r1 r2 => groupNames r1 ++ groupNames r2
  | Group i name r' => (i, name) :: groupNames r'
  end.

(** [SubexpNames]: entry 0 is the whole match and has the empty name. *)
Definition SubexpNames (r : regex) : list gostring :=
  [] :: map (fun i => capLookup i (groupNames r)) (seq 1 (NumSubexp r)).

Definition submatches (r : regex) (f : found) : list gostring :=
  f_matched f :: map (fun i => capLookup i (f_caps f)) (seq 1 (NumSubexp r)).

(** [regexp.MatchString] *)
Definition MatchString (r : regex) (s : gostring) : bool :=
  match search r s with Some _ => true | None => false end.

(** [FindStringSubmatch]: the leftmost match and its groups, [nil] when
    there is none. *)
Definition FindStringSubmatch (r : regex) (s : gostring) : list gostring :=
  match search r s with
  | Some f => submatches r f
  | None => []
  end.

(** Where the search resumes after a match: past it, and one byte further
    after an empty match. *)
Definition resume (f : found) : option gostring :=
  match f_matched f, f_after f with
  | [], [] => None
  | [], _ :: rest => Some rest
  | _ :: _, rest => Some rest
  end.

(** [FindAllStringSubmatch(s, -1)]: the successive non-overlapping matches.
    Every round consumes at least one byte, so [S (length s)] rounds do. *)
Fixpoint findAll (fuel : nat) (r : regex) (s : gostring) : list (list gostring) :=
  match fuel with
  | O => []
  | S fuel' =>
      match search r s with
      | None => []
      | Some f =>
          submatches r f ::
            match resume f with
            | Some rest => findAll fuel' r rest
            | None => []
            end
      end
  end.

Definition FindAllStringSubmatch (r : regex) (s : gostring) : list (list gostring) :=
  findAll (S (length s)) r s.

(** [ReplaceAllString] with a replacement free of [$]: text between the
    matches is copied, every match becomes [repl]. *)
Fixpoint replaceAll (fuel : nat) (r : regex) (s repl : gostring) : gostring :=
  match fuel with
  | O => s
  | S fuel' =>
      match search r s with
      | None => s
      | Some f =>
          f_before f ++ repl ++
            match f_matched f, f_after f with
            | [], [] => []
            | [], c :: rest => c :: replaceAll fuel' r rest repl
            | _ :: _, rest => replaceAll fuel' r rest repl
            end
      end
  end.

Definition ReplaceAllString (r : regex) (s repl : gostring) : gostring :=
  replaceAll (S (length s)) r s repl.

End Regexp.
Import Regexp.

(** ** [strconv.Atoi] *)

Module Strconv.

Definition intSize : Z := 64.
Definition maxInt : Z := 2 ^ (intSize - 1) - 1.
Definition minInt : Z := - 2 ^ (intSize - 1).

Inductive NumError := ErrSyntax | ErrRange.

Definition digitVal (c : ascii) : Z := Z.of_nat (nat_of_ascii c) - 48.

(** The value of a digit string, most significant digit first. *)
Definition decimal (ds : gostring) : Z :=
  fold_left (fun acc c => 10 * acc + digitVal c) ds 0.

Definition Atoi (s : gostring) : NumError + Z :=
  let '(neg, ds) :=
    match s with
    | c :: t =>
        if Ascii.eqb c "+" then (false, t)
        else if Ascii.eqb c "-" then (true, t)
        else (false, s)
    | [] => (false, s)
    end in
  if forallb isDigit ds && negb (eqs ds []) then
    let v := if neg then - decimal ds else decimal ds in
    if (minInt <=? v) && (v <=? maxInt) then inr v else inl ErrRange
  else inl ErrSyntax.

End Strconv.
Import Strconv.

(** ** The package [notes] *)

Module Notes.

Definition CloseIssueKeywords : list string :=
  ["Close"; "Closes"; "Closed"; "Fix"; "Fixes"; "Fixed";
   "Resolve"; "Resolves"; "Resolved"]%string.

(** *** Errors *)

Inductive RemoteError := NotFoundError | TransportError.

Inductive error :=
| NoMatchPR      (* "no matches found when parsing PR from commit" *)
| NoMatchIssue   (* "no matches found when parsing Issues from commit" *)
| NoMatchNote    (* "no matches found when parsing note text from commit string" *)
| AtoiError (e : NumError) (s : gostring)   (* *strconv.NumError *)
| Remote (e : RemoteError)                  (* returned by the API client *)
| Wrapf (msg : gostring) (e : error).       (* errors.Wrapf *)

Inductive Res (T : Type) :=
| Ok (v : T)
| Err (e : error).
Arguments Ok {T} v.
Arguments Err {T} e.

(** [err.Error() == "no matches found when parsing PR from commit"]: the
    texts of the other errors differ from this one. *)
Definition isNoMatchPR (e : error) : bool :=
  match e with NoMatchPR => true | _ => false end.

(** *** What the GitHub API returns *)

Record RepositoryCommit := {
  SHA : gostring;            (* GetSHA() *)
  Message : gostring;        (* GetCommit().GetMessage() *)
  AuthorLogin : gostring     (* GetAuthor().GetLogin() *)
}.

Record GitCommit := {
  CommitterDate : Z          (* Committer.Date *)
}.

Record PullRequest := {
  Number : Z;                (* GetNumber() *)
  Body : gostring;           (* GetBody() *)
  UserLogin : gostring;      (* GetUser().GetLogin() *)
  PRLabels : list gostring   (* the Name of each of Labels *)
}.

Record Issue := {
  IssueLabels : list gostring
}.

Inductive Context := Background | Ctx (id : nat).

Record CommitsListOptions := {
  clo_SHA : gostring;
  Since : Z;
  Until : Z;
  Page : Z;
  PerPage : Z
}.

Record Response := { LastPage : Z }.

(** The calls made on [*github.Client]; each takes the context, the
    organisation and the repository first. *)
Record Client := {
  Git_GetCommit :
    Context -> gostring -> gostring -> gostring -> RemoteError + GitCommit;
  Repositories_ListCommits :
    Context -> gostring -> gostring -> CommitsListOptions ->
    RemoteError + (list RepositoryCommit * Response);
  PullRequests_Get :
    Context -> gostring -> gostring -> Z -> RemoteError + PullRequest;
  Issues_Get :
    Context -> gostring -> gostring -> Z -> RemoteError + Issue
}.

Definition remote {T : Type} (r : RemoteError + T) : Res T :=
  match r with
  | inl e => Err (Remote e)
  | inr v => Ok v
  end.

(** *** The release note *)

Record ReleaseNote := {
  Commit : gostring;
  Text : gostring;
  Markdown : gostring;
  Author : gostring;
  AuthorUrl : gostring;
  PrUrl : gostring;
  PrNumber : Z;
  Areas : list gostring;
  Kinds : list gostring;
  SIGs : list gostring;
  Feature : bool;
  Duplicate : bool;
  ActionRequired : bool
}.

(** *** Options *)

Record githubApiConfig := {
  ctx : Context;
  org : gostring;
  repo : gostring;
  branch : gostring
}.

Definition githubApiOption := githubApiConfig -> githubApiConfig.

Definition WithContext (x : Context) : githubApiOption :=
  fun c => {| ctx := x; org := org c; repo := repo c; branch := branch c |}.

Definition WithOrg (x : gostring) : githubApiOption :=
  fun c => {| ctx := ctx c; org := x; repo := repo c; branch := branch c |}.

Definition WithRepo (x : gostring) : githubApiOption :=
  fun c => {| ctx := ctx c; org := org c; repo := x; branch := branch c |}.

Definition WithBranch (x : gostring) : githubApiOption :=
  fun c => {| ctx := ctx c; org := org c; repo := repo c; branch := x |}.

Definition configFromOpts (opts : list githubApiOption) : githubApiConfig :=
  fold_left (fun c opt => opt c) opts
    {| ctx := Background; org := str "netdata"; repo := str "netdata";
       branch := str "master" |}.

(** *** Labels *)

Definition GetIssueLabels (issue : Issue) : list gostring :=
  fold_left (fun labels label => labels ++ [label]) (IssueLabels issue) [].

Definition GetPRLabels (pr : PullRequest) : list gostring :=
  fold_left (fun labels label => labels ++ [label]) (PRLabels pr) [].

Definition StringsWithPrefix (xs : list gostring) (prefix : gostring) : list gostring :=
  fold_left
    (fun ys x => if HasPrefix x prefix then ys ++ [TrimPrefix x prefix] else ys)
    xs [].

Fixpoint HasString (a : list gostring) (x : gostring) : bool :=
  match a with
  | [] => false
  | n :: a' => if eqs x n then true else HasString a' x
  end.

Definition IsActionRequired (pr : PullRequest) : bool :=
  existsb (fun name => eqs name (str "release-note-action-required"))
    (PRLabels pr).

(** *** Patterns *)

(** [\(#(?P<number>\d+)\)], compiled in [PRFromCommit] and again in
    [ReleaseNoteFromCommit]. *)
Definition prExp : regex :=
  Seq [Lit (str "(#"); Group 1 (str "number") (Plus CDigit); Lit (str ")")].

(** [(?i)(Close|...|Resolved) #?(?P<number>\d+)] *)
Definition issueExp : regex :=
  Seq [Group 1 [] (Alts (map (fun w => ILit (str w)) CloseIssueKeywords));
       ILit (str " "); Opt (ILit (str "#"));
       Group 2 (str "number") (Plus CDigit)].

Definition fence : gostring := str "```".

(** The four stanza patterns of [NoteTextFromString]. *)
Definition noteExps : list regex :=
  [ Seq [Lit (fence ++ str "release-note" ++ CRLF);
         Group 1 (str "note") (Plus CDot)];
    Seq [Lit (fence ++ str "dev-release-note" ++ CRLF);
         Group 1 (str "note") (Plus CDot)];
    Seq [Lit (fence ++ CRLF);
         Group 1 (str "note") (Plus CDot); Lit (CRLF ++ fence)];
    Seq [Lit (fence ++ str "release-note" ++ [LF]);
         Group 1 (str "note") (Plus CDot); Lit ([LF] ++ fence)] ].

Definition exclusionFilters : list regex :=
  let rn := fence ++ str "release-note" in
  [ Lit (rn ++ CRLF ++ str "NONE");
    Seq [Lit (rn ++ CRLF); Plus CSpace; Lit (str "NONE")];
    Lit (rn ++ CRLF ++ str "NONE");
    Lit (rn ++ CRLF ++ [DQUOTE] ++ str "NONE" ++ [DQUOTE]);
    Lit (rn ++ CRLF ++ str "None");
    Lit (rn ++ CRLF ++ str "none");
    Lit (rn ++ CRLF ++ str "N/A");
    Lit (rn ++ CRLF ++ CRLF ++ fence);
    Lit (rn ++ CRLF ++ fence);
    Lit (str "/release-note-none");
    Lit (CRLF ++ CRLF ++ str "NONE");
    Lit (fence ++ str "NONE" ++ CRLF ++ fence);
    Lit (rn ++ str " " ++ CRLF ++ str "NONE" ++ CRLF ++ fence);
    Lit (str "NONE" ++ CRLF ++ fence);
    Lit (CRLF ++ str "None");
    Lit (CRLF ++ str "NONE" ++ CRLF) ].

(** [".*"], ["release-note"] and
    ["Does this PR introduce a user-facing change?"], where the final [?]
    makes the last [e] optional. *)
Definition inclusionFilters : list regex :=
  [ Star CDot;
    Lit (str "release-note");
    Seq [Lit (str "Does this PR introduce a user-facing chang");
         Opt (Lit (str "e"))] ].

(** [(?i)\[action required\]\s] and [(?i)action required:\s] *)
Definition actionRequiredExps : list regex :=
  [ Seq [ILit (str "[action required]"); Cls CSpace];
    Seq [ILit (str "action required:"); Cls CSpace] ].

(** [(?i)\*\s] *)
Definition starExp : regex := Seq [ILit (str "*"); Cls CSpace].

(** *** Extraction from text *)

Definition stripActionRequired (note : gostring) : gostring :=
  fold_left (fun note re => ReplaceAllString re note []) actionRequiredExps note.

Definition stripStar (note : gostring) : gostring :=
  ReplaceAllString starExp note [].

(** The map [result] that the callers of [FindStringSubmatch] fill: the
    text of every named group. *)
Definition namedGroups (exp : regex) (match_ : list gostring) : gmap gostring gostring :=
  fold_left
    (fun result '(i, name) =>
       if negb (Nat.eqb i 0) && negb (eqs name [])
       then <[name := nth i match_ []]> result
       else result)
    (imap (fun i name => (i, name)) (SubexpNames exp)) ∅.

(** Reading a Go map: the zero value for a missing key. *)
Definition mapGet (result : gmap gostring gostring) (name : gostring) : gostring :=
  default [] (result !! name).

Fixpoint noteTextLoop (exps : list regex) (s : gostring) : Res gostring :=
  match exps with
  | [] => Err NoMatchNote
  | exp :: exps' =>
      let match_ := FindStringSubmatch exp s in
      if Nat.eqb (length match_) 0 then noteTextLoop exps' s
      else
        let result := namedGroups exp match_ in
        let note := TrimRight (mapGet result (str "note")) [CR] in
        let note := stripActionRequired note in
        let note := stripStar note in
        Ok note
  end.

Definition NoteTextFromString (s : gostring) : Res gostring :=
  noteTextLoop noteExps s.

Definition IssueNumbersFromCommit (commit : RepositoryCommit) : Res (list Z) :=
  let matches := FindAllStringSubmatch issueExp (Message commit) in
  match matches with
  | [] => Err NoMatchIssue
  | first :: _ =>
      fold_left
        (fun (acc : Res (list Z)) '(i, name) =>
           match acc with
           | Err e => Err e
           | Ok issues =>
               if negb (Nat.eqb i 0) && negb (eqs name []) then
                 match Atoi (nth i first []) with
                 | inl e => Err (AtoiError e (nth i first []))
                 | inr number => Ok (issues ++ [number])
                 end
               else Ok issues
           end)
        (imap (fun i name => (i, name)) (SubexpNames issueExp)) (Ok [])
  end.

Definition GetIssue (client : Client) (number : Z) (opts : list githubApiOption)
  : Res Issue :=
  let c := configFromOpts opts in
  remote (Issues_Get client (ctx c) (org c) (repo c) number).

Definition PRFromCommit (client : Client) (commit : RepositoryCommit)
    (opts : list githubApiOption) : Res PullRequest :=
  let c := configFromOpts opts in
  let match_ := FindStringSubmatch prExp (Message commit) in
  if Nat.eqb (length match_) 0 then Err NoMatchPR
  else
    let result := namedGroups prExp match_ in
    match Atoi (mapGet result (str "number")) with
    | inl e => Err (AtoiError e (mapGet result (str "number")))
    | inr number =>
        remote (PullRequests_Get client (ctx c) (org c) (repo c) number)
    end.

(** *** One commit to one note *)

Section Assembler.

(** [prettifySigList] is called by [ReleaseNoteFromCommit] and defined in a
    file of the package that is not part of the sources at hand; it only
    feeds the [Markdown] field. *)
Variable prettifySigList : list gostring -> gostring.

Definition ReleaseNoteFromCommit (commit : RepositoryCommit) (client : Client)
    (opts : list githubApiOption) : Res ReleaseNote :=
  match PRFromCommit client commit opts with
  | Err err =>
      Err (Wrapf (str "error parsing release note from commit " ++ SHA commit) err)
  | Ok pr =>
      let issueR : Res (option Issue) :=
        match IssueNumbersFromCommit commit with
        | Ok (first :: _) =>
            match GetIssue client first opts with
            | Err err =>
                Err (Wrapf (str "error prasing release note from commit "
                              ++ SHA commit) err)
            | Ok issue => Ok (Some issue)
            end
        | Ok [] => Ok None
        | Err _ => Ok None
        end in
      match issueR with
      | Err err => Err err
      | Ok issue =>
          let text := ScanFirstLine (Message commit) in
          let text := ReplaceAllString prExp text [] in
          let text := TrimSpace text in
          let isFeature :=
            if HasString (StringsWithPrefix (GetPRLabels pr) (str "kind/"))
                 (str "feature")
            then true
            else
              match issue with
              | Some i => negb (HasString (GetIssueLabels i) (str "bug"))
              | None => false
              end in
          let areas := StringsWithPrefix (GetPRLabels pr) (str "area/") in
          let areas :=
            match issue with
            | Some i =>
                if Nat.eqb (length areas) 0
                then StringsWithPrefix (GetIssueLabels i) (str "area/")
                else areas
            | None => areas
            end in
          let author := UserLogin pr in
          let authorUrl := str "https://github.com/" ++ author in
          let prUrl :=
            str "https://github.com/netdata/netdata/pull/" ++ Itoa (Number pr) in
          let IsFeature := isFeature in
          let sigsListPretty :=
            prettifySigList (StringsWithPrefix (GetPRLabels pr) (str "sig/")) in
          let '(noteSuffix, IsDuplicate) :=
            if IsActionRequired pr || IsFeature then
              (if negb (eqs sigsListPretty [])
               then str "Courtesy of " ++ sigsListPretty else [],
               false)
            else if (1 <? length (StringsWithPrefix (GetPRLabels pr) (str "sig/")))%nat
            then ([], true)
            else ([], false) in
          let markdown :=
            text ++ str " ([#" ++ Itoa (Number pr) ++ str "](" ++ prUrl
              ++ str "), [@" ++ author ++ str "](" ++ authorUrl ++ str "))" in
          let markdown :=
            if negb (eqs noteSuffix [])
            then markdown ++ str " " ++ noteSuffix else markdown in
          Ok {| Commit := SHA commit;
                Text := text;
                Markdown := markdown;
                Author := author;
                AuthorUrl := authorUrl;
                PrUrl := prUrl;
                PrNumber := Number pr;
                SIGs := StringsWithPrefix (GetPRLabels pr) (str "sig/");
                Kinds := StringsWithPrefix (GetPRLabels pr) (str "kind/");
                Areas := areas;
                Feature := IsFeature;
                Duplicate := IsDuplicate;
                ActionRequired := IsActionRequired pr |}
      end
  end.

End Assembler.

(** *** Walking the range *)

Definition nextPage (clo : CommitsListOptions) : CommitsListOptions :=
  {| clo_SHA := clo_SHA clo; Since := Since clo; Until := Until clo;
     Page := Page clo + 1; PerPage := PerPage clo |}.

(** The loop [for clo.ListOptions.Page <= resp.LastPage]: [n] is the number
    of pages still to fetch. *)
Fixpoint listPages (n : nat) (client : Client) (c : githubApiConfig)
    (clo : CommitsListOptions) (commits : list RepositoryCommit)
  : Res (list RepositoryCommit) :=
  match n with
  | O => Ok commits
  | S n' =>
      match Repositories_ListCommits client (ctx c) (org c) (repo c) clo with
      | inl err => Err (Remote err)
      | inr (commitPage, _) =>
          listPages n' client c (nextPage clo) (commits ++ commitPage)
      end
  end.

Definition ListCommits (client : Client) (start end_ : gostring)
    (opts : list githubApiOption) : Res (list RepositoryCommit) :=
  let c := configFromOpts opts in
  match Git_GetCommit client (ctx c) (org c) (repo c) start with
  | inl err => Err (Remote err)
  | inr startCommit =>
      match Git_GetCommit client (ctx c) (org c) (repo c) end_ with
      | inl err => Err (Remote err)
      | inr endCommit =>
          let clo :=
            {| clo_SHA := branch c;
               Since := CommitterDate startCommit;
               Until := CommitterDate endCommit;
               Page := 1; PerPage := 100 |} in
          match Repositories_ListCommits client (ctx c) (org c) (repo c) clo with
          | inl err => Err (Remote err)
          | inr (commits, resp) =>
              let clo := nextPage clo in
              listPages (Z.to_nat (LastPage resp - Page clo + 1))
                client c clo commits
          end
      end
  end.

(** The body of the loop of [ListCommitsWithNotes]: what one commit adds to
    [filteredCommits]. On a failed lookup other than "no match" the loop
    goes on with a nil pull request, whose [GetBody()] is empty. *)
Definition filterCommit (client : Client) (opts : list githubApiOption)
    (filteredCommits : list RepositoryCommit) (commit : RepositoryCommit)
  : list RepositoryCommit :=
  let r := PRFromCommit client commit opts in
  if match r with Err err => isNoMatchPR err | Ok _ => false end
  then filteredCommits
  else
    let body := match r with Ok pr => Body pr | Err _ => [] end in
    let excluded := existsb (fun filter => MatchString filter body) exclusionFilters in
    if excluded then filteredCommits
    else
      fold_left
        (fun filteredCommits filter =>
           if MatchString filter body
           then filteredCommits ++ [commit] else filteredCommits)
        inclusionFilters filteredCommits.

Definition ListCommitsWithNotes (client : Client) (start end_ : gostring)
    (opts : list githubApiOption) : Res (list RepositoryCommit) :=
  match ListCommits client start end_ opts with
  | Err err => Err err
  | Ok commits => Ok (fold_left (filterCommit client opts) commits [])
  end.

(** *** The list of notes *)

Record LogEntry := {
  log_err : error;
  log_msg : gostring;
  log_sha : gostring
}.

Record listState := {
  dedupeCache : gset gostring;
  notes : list ReleaseNote;
  logged : list LogEntry
}.

Section Lister.

Variable prettifySigList : list gostring -> gostring.

(** The body of the loop of [ListReleaseNotes]. *)
Definition noteStep (client : Client) (opts : list githubApiOption)
    (st : listState) (commit : RepositoryCommit) : listState :=
  if eqs (AuthorLogin commit) (str "netdatabot") then st
  else
    match ReleaseNoteFromCommit prettifySigList commit client opts with
    | Err err =>
        {| dedupeCache := dedupeCache st; notes := notes st;
           logged := logged st ++
             [{| log_err := err;
                 log_msg := str "error getting the release note from commit while listing release notes";
                 log_sha := SHA commit |}] |}
    | Ok note =>
        if eqs (TrimSpace (Text note)) (str "NONE") then st
        else if bool_decide (Text note ∈ dedupeCache st) then st
        else
          {| dedupeCache := {[Text note]} ∪ dedupeCache st;
             notes := notes st ++ [note];
             logged := logged st |}
    end.

(** [ListReleaseNotes] returns the notes or a fatal error, and leaves the
    records it logged. *)
Definition ListReleaseNotes (client : Client) (start end_ : gostring)
    (opts : list githubApiOption) : list LogEntry * Res (list ReleaseNote) :=
  match ListCommitsWithNotes client start end_ opts with
  | Err err => ([], Err err)
  | Ok commits =>
      let st :=
        fold_left (noteStep client opts) commits
          {| dedupeCache := ∅; notes := []; logged := [] |} in
      (logged st, Ok (notes st))
  end.

End Lister.

(** *** The helper [filterCommits] *)

(** The error of [regexp.MatchString] for a pattern that does not compile. *)
Inductive SyntaxError := syntaxError (msg : gostring).

(** A filter of [filterCommits] is the source text of a pattern, which
    [regexp.MatchString] compiles at every use: it stands for a pattern, or
    it does not compile. *)
Inductive filterSource :=
| Compiles (r : regex)
| Malformed (err : SyntaxError).

Definition MatchStringSource (filter : filterSource) (s : gostring)
  : SyntaxError + bool :=
  match filter with
  | Compiles r => inr (MatchString r s)
  | Malformed err => inl err
  end.

(** The inner loop of [filterCommits]: the value of [skip] when the loop
    ends, or the error that ends the function. *)
Fixpoint skipCommit (filters : list filterSource) (include : bool)
    (body : gostring) : SyntaxError + bool :=
  match filters with
  | [] => inr false
  | filter :: filters' =>
      match MatchStringSource filter body with
      | inl err => inl err
      | inr match_ =>
          if match_ && negb include || negb match_ && include
          then inr true
          else skipCommit filters' include body
      end
  end.

(** The outer loop, with the records logged so far (at the level [info])
    and the commits kept so far. *)
Fixpoint filterLoop (client : Client) (commits : list RepositoryCommit)
    (filters : list filterSource) (include : bool) (opts : list githubApiOption)
    (logged : list LogEntry) (filteredCommits : list RepositoryCommit)
  : list LogEntry * (SyntaxError + list RepositoryCommit) :=
  match commits with
  | [] => (logged, inr filteredCommits)
  | commit :: commits' =>
      let body := Message commit in
      let body : LogEntry + gostring :=
        if eqs (AuthorLogin commit) (str "k8s-merge-robot") then
          match PRFromCommit client commit opts with
          | Err err =>
              inl {| log_err := err;
                     log_msg := str "error getting PR from k8s-merge-robot commit";
                     log_sha := SHA commit |}
          | Ok pr => inr (Body pr)
          end
        else inr body in
      match body with
      | inl entry =>
          filterLoop client commits' filters include opts
            (logged ++ [entry]) filteredCommits
      | inr body =>
          match skipCommit filters include body with
          | inl err => (logged, inl err)
          | inr true =>
              filterLoop client commits' filters include opts
                logged filteredCommits
          | inr false =>
              filterLoop client commits' filters include opts
                logged (filteredCommits ++ [commit])
          end
      end
  end.

Definition filterCommits (client : Client) (commits : list RepositoryCommit)
    (filters : list filterSource) (include : bool) (opts : list githubApiOption)
  : list LogEntry * (SyntaxError + list RepositoryCommit) :=
  filterLoop client commits filters include opts [] [].

End Notes.
Import Notes.

(** ** The command line: [cmd/release-notes/main.go]

    [parseOptions] declares three string flags on a [flag.FlagSet] created
    with [flag.ExitOnError], with the values of three environment variables
    as defaults, parses the arguments and checks that the three values are
    set. The usage text that [flag] prints is left out. *)

Module Main.

Record options := {
  githubToken : gostring;
  startSHA : gostring;
  endSHA : gostring
}.

(** The environment: the value of a variable, when it is set. *)
Definition environ := gostring -> option gostring.

(** [env.String(key, def)] of [kolide/kit]: the variable, or the default
    when it is not set. *)
Definition env_String (env : environ) (key def : gostring) : gostring :=
  match env key with
  | Some v => v
  | None => def
  end.

(** The declared flags of a [FlagSet] whose flags are all strings: the
    current value of each name. *)
Abbreviation formal := (gmap gostring gostring).

(** The name and the value of [name=value]; the [=] cannot be first. *)
Definition splitValue (name : gostring) : gostring * option gostring :=
  match name with
  | [] => ([], None)
  | c :: rest =>
      match IndexByte rest "="%char with
      | Some i => (c :: take i rest, Some (drop (S i) rest))
      | None => (name, None)
      end
  end.

(** One step of [FlagSet.parseOne]: a flag was seen, the flags are over, or
    the step fails (bad syntax, a flag that is not declared, among them
    [-h] and [-help], or a flag without its value). *)
Inductive parsed :=
| Seen (f : formal) (args : list gostring)
| Over
| Failf.

Definition parseOne (f : formal) (args : list gostring) : parsed :=
  match args with
  | [] => Over
  | s :: args' =>
      match s with
      | c0 :: c1 :: s2 =>
          if negb (Ascii.eqb c0 "-") then Over
          else
            let twoMinuses := Ascii.eqb c1 "-" in
            if twoMinuses && Nat.eqb (length s) 2 then Over
            else
              let name := if twoMinuses then s2 else c1 :: s2 in
              match name with
              | [] => Failf
              | n0 :: _ =>
                  if Ascii.eqb n0 "-" || Ascii.eqb n0 "=" then Failf
                  else
                    let '(name, value) := splitValue name in
                    match f !! name with
                    | None => Failf
                    | Some _ =>
                        match value, args' with
                        | Some v, _ => Seen (<[name := v]> f) args'
                        | None, v :: args'' => Seen (<[name := v]> f) args''
                        | None, [] => Failf
                        end
                    end
              end
      | _ => Over
      end
  end.

(** [FlagSet.Parse] under [flag.ExitOnError]: the values of the flags when
    it returns, or [None] when it ends the process. Every step that sees a
    flag consumes an argument, so [length args] steps are enough. *)
Fixpoint parseLoop (fuel : nat) (f : formal) (args : list gostring)
  : option formal :=
  match parseOne f args with
  | Seen f' args' =>
      match fuel with
      | S fuel' => parseLoop fuel' f' args'
      | O => Some f'
      end
  | Over => Some f
  | Failf => None
  end.

Definition Parse (f : formal) (args : list gostring) : option formal :=
  parseLoop (length args) f args.

(** What a call of [parseOptions] comes to: the options, an error, or the
    end of the process inside [flagset.Parse]. *)
Inductive outcome :=
| Options (o : options)
| Error (msg : gostring)
| Exit.

Definition flagValue (f : formal) (name : gostring) : gostring :=
  default [] (f !! name).

Definition parseOptions (env : environ) (args : list gostring) : outcome :=
  let flagset : formal :=
    <[str "end-sha" := env_String env (str "END_SHA") []]>
      (<[str "start-sha" := env_String env (str "START_SHA") []]>
         (<[str "github-token" := env_String env (str "GITHUB_TOKEN") []]> ∅)) in
  match Parse flagset args with
  | None => Exit
  | Some flagset =>
      let flGitHubToken := flagValue flagset (str "github-token") in
      let flStartSHA := flagValue flagset (str "start-sha") in
      let flEndSHA := flagValue flagset (str "end-sha") in
      if eqs flGitHubToken [] then
        Error (str "GitHub token must be set via -github-token or $GITHUB_TOKEN")
      else if eqs flStartSHA [] then
        Error (str "The starting commit hash must be set via -start-sha or $START_SHA")
      else if eqs flEndSHA [] then
        Error (str "The ending commit hash must be set via -end-sha or $END_SHA")
      else
        Options {| githubToken := flGitHubToken;
                   startSHA := flStartSHA;
                   endSHA := flEndSHA |}
  end.

End Main.

(** * The vocabulary of the statements *)

(** ** Labels, issues and the list of notes *)

(** The number of labels that start with [prefix]. *)
Definition countPrefixed (labels : list gostring) (prefix : gostring) : nat :=
  length (List.filter (fun x => HasPrefix x prefix) labels).

(** The issue that [ReleaseNoteFromCommit] consults for a commit: the one
    the first closing reference of the message names, when the message has
    one. *)
Definition IssueResolved (client : Client) (commit : RepositoryCommit)
    (opts : list githubApiOption) (issue : option Issue) : Prop :=
  match issue with
  | Some i =>
      exists first rest,
        IssueNumbersFromCommit commit = Ok (first :: rest)
        /\ GetIssue client first opts = Ok i
  | None =>
      IssueNumbersFromCommit commit = Ok []
      \/ exists e, IssueNumbersFromCommit commit = Err e
  end.

(** The deduplication in the words of the specification: the first note
    with a given text is kept, every later note with that text is dropped. *)
Fixpoint firstByText (ns : list ReleaseNote) : list ReleaseNote :=
  match ns with
  | [] => []
  | n :: ns' =>
      n :: List.filter (fun m => negb (eqs (Text m) (Text n))) (firstByText ns')
  end.

(** The options of the request for the page [i + 1] of a range, between the
    dates of its start and end commits. *)
Definition pageOptions (c : githubApiConfig) (startCommit endCommit : GitCommit)
    (i : nat) : CommitsListOptions :=
  Nat.iter i nextPage
    {| clo_SHA := branch c;
       Since := CommitterDate startCommit;
       Until := CommitterDate endCommit;
       Page := 1; PerPage := 100 |}.

Section ListVocabulary.

Variable prettifySigList : list gostring -> gostring.
Variable client : Client.
Variable opts : list githubApiOption.

Definition isBot (c : RepositoryCommit) : bool :=
  eqs (AuthorLogin c) (str "netdatabot").

Definition isNONE (n : ReleaseNote) : bool :=
  eqs (TrimSpace (Text n)) (str "NONE").

(** The note a commit offers to the list: none from a bot commit or when
    the assembly fails. *)
Definition assembled (c : RepositoryCommit) : option ReleaseNote :=
  if isBot c then None
  else match ReleaseNoteFromCommit prettifySigList c client opts with
       | Ok n => Some n
       | Err _ => None
       end.

(** The record logged for a commit whose assembly fails. *)
Definition failure (c : RepositoryCommit) : option LogEntry :=
  if isBot c then None
  else match ReleaseNoteFromCommit prettifySigList c client opts with
       | Ok _ => None
       | Err err =>
           Some {| log_err := err;
                   log_msg := str "error getting the release note from commit while listing release notes";
                   log_sha := SHA c |}
       end.

Definition candidates (commits : list RepositoryCommit) : list ReleaseNote :=
  List.filter (fun n => negb (isNONE n)) (omap assembled commits).

Definition initState : listState :=
  {| dedupeCache := ∅; notes := []; logged := [] |}.

Definition runLoop (commits : list RepositoryCommit) (st : listState) : listState :=
  fold_left (noteStep prettifySigList client opts) commits st.

Definition fresh (seen : gset gostring) (n : ReleaseNote) : bool :=
  bool_decide (Text n ∉ seen).


(** The body that [ListCommitsWithNotes] tests for a commit, when it tests
    one. *)
Definition testedBody (c : RepositoryCommit) : option gostring :=
  match PRFromCommit client c opts with
  | Ok pr => Some (Body pr)
  | Err err => if isNoMatchPR err then None else Some []
  end.

Definition excludedBody (body : gostring) : bool :=
  existsb (fun filter => MatchString filter body) exclusionFilters.

(** How many times the loop appends a commit. *)
Definition copies (c : RepositoryCommit) : nat :=
  match testedBody c with
  | None => 0
  | Some body =>
      if excludedBody body then 0
      else length (List.filter (fun filter => MatchString filter body)
                     inclusionFilters)
  end.

End ListVocabulary.

(** ** Runs, digits and the pull-request marker *)

(** What follows a run does not start with a byte of the class. *)
Definition stops (p : ascii -> bool) (s : gostring) : Prop :=
  match s with
  | [] => True
  | c :: _ => p c = false
  end.

Definition allDigits (ds : gostring) : Prop :=
  forallb isDigit ds = true /\ ds <> [].

(** [s] holds the marker [(#ds)] after [pre]. *)
Definition markerAt (s pre ds post : gostring) : Prop :=
  s = pre ++ str "(#" ++ ds ++ str ")" ++ post /\ allDigits ds.

Definition hasMarker (s : gostring) : Prop :=
  exists pre ds post, markerAt s pre ds post.

(** The marker after [pre] is the first one of [s]. *)
Definition firstMarker (s pre ds post : gostring) : Prop :=
  markerAt s pre ds post
  /\ forall pre' ds' post',
       markerAt s pre' ds' post' -> (length pre <= length pre')%nat.

(** The note text in the words of the specification: the first line
    without a marker that ends it, trimmed. *)
Definition stripTrailingMarker (line : gostring) : gostring :=
  match rev line with
  | c :: r =>
      if Ascii.eqb c ")" then
        let ds := takeRun isDigit r in
        if negb (eqs ds []) && HasPrefix (dropRun isDigit r) (str "#(")
        then rev (drop 2 (dropRun isDigit r))
        else line
      else line
  | [] => line
  end.

Definition specNoteText (message : gostring) : gostring :=
  TrimSpace (stripTrailingMarker (TrimSpace (ScanFirstLine message))).

(** ** The star and the occurrences of a pattern *)

Section StarVocabulary.

Context {A : Type}.
Variable p : ascii -> bool.
Variable k1 : gostring -> option A.

(** The star stops at the longest run after which the continuation
    succeeds. *)
Definition longestSplit (s m s' : gostring) (x : A) : Prop :=
  s = m ++ s' /\ forallb p m = true /\ k1 s' = Some x
  /\ forall m' s'', s = m' ++ s'' -> forallb p m' = true ->
       (length m < length m')%nat -> k1 s'' = None.

End StarVocabulary.

(** A group around [x+]: it captures the longest non-empty run of [x]
    after which the rest of the pattern matches. *)
Definition longestCapture {A : Type} (cl : cclass) (i : nat) (cs : caps)
    (k : gostring -> caps -> option A) (s ds s' : gostring) (x : A) : Prop :=
  s = ds ++ s' /\ ds <> [] /\ forallb (cmatch cl) ds = true
  /\ k s' ((i, ds) :: cs) = Some x
  /\ forall ds' s'', s = ds' ++ s'' -> forallb (cmatch cl) ds' = true ->
       (length ds < length ds')%nat -> k s'' ((i, ds') :: cs) = None.

Section OccurrenceVocabulary.

Variable Occ : gostring -> caps -> gostring -> Prop.

Definition occursIn (s : gostring) : Prop :=
  exists pre m cs rest, s = pre ++ m ++ rest /\ Occ m cs rest.

Definition occursFirst (s pre m : gostring) (cs : caps) (rest : gostring) : Prop :=
  s = pre ++ m ++ rest /\ Occ m cs rest
  /\ forall pre' m' cs' rest',
       s = pre' ++ m' ++ rest' -> Occ m' cs' rest' ->
       (length pre <= length pre')%nat.

End OccurrenceVocabulary.

(** ** Stanzas and the markers inside a note *)

Definition notLF (c : ascii) : bool := cmatch CDot c.

(** The opening and the closing text of the four stanza variants, in the
    order of [noteExps]; the first two have no closing text. *)
Definition stanzas : list (gostring * gostring) :=
  [ (fence ++ str "release-note" ++ CRLF, []);
    (fence ++ str "dev-release-note" ++ CRLF, []);
    (fence ++ CRLF, CRLF ++ fence);
    (fence ++ str "release-note" ++ [LF], [LF] ++ fence) ].

Definition noteGroup : regex := Group 1 (str "note") (Plus CDot).

Definition stanzaExp (o c : gostring) : regex :=
  match c with
  | [] => Seq [Lit o; noteGroup]
  | _ :: _ => Seq [Lit o; noteGroup; Lit c]
  end.

(** A closing text is empty or starts with an end of line. *)
Definition closerShape (c : gostring) : Prop :=
  c = [] \/ (exists c', c = LF :: c') \/ (exists c', c = CR :: LF :: c').

(** A stanza: the opening text, a non-empty note free of newlines, the
    closing text; without closing text the note runs to the end of its
    line. *)
Definition Stanza (o c : gostring) (m : gostring) (cs : caps) (rest : gostring)
  : Prop :=
  exists note,
    m = o ++ note ++ c /\ note <> [] /\ forallb notLF note = true
    /\ (c = [] -> stops notLF rest) /\ cs = [(1%nat, note)].

Definition hasStanza (o c s : gostring) : Prop := occursIn (Stanza o c) s.

Definition firstStanza (o c s pre note rest : gostring) : Prop :=
  occursFirst (Stanza o c) s pre (o ++ note ++ c) [(1%nat, note)] rest.

Definition cleanNote (note : gostring) : gostring :=
  stripStar (stripActionRequired (TrimRight note [CR])).

Definition isSK (c : ascii) : bool :=
  Ascii.eqb (toLower c) "s" || Ascii.eqb (toLower c) "k".

Definition foldClass (c : ascii) : cclass :=
  if isUpper c || isLower c then CFold c else CByte c.

(** [x] is [c], in either case when [c] is a letter. *)
Definition sameFold (c x : ascii) : bool := cmatch (foldClass c) x.

Fixpoint foldPrefix (w s : gostring) {struct w} : bool :=
  match w, s with
  | [], _ => true
  | c :: w', x :: s' => sameFold c x && foldPrefix w' s'
  | _ :: _, [] => false
  end.

(** The pattern [(?i)w\s] for a literal [w]. *)
Definition wordExp (w : gostring) : regex := Seq [ILit w; Cls CSpace].

Definition markerWords : list gostring :=
  [str "[action required]"; str "action required:"; str "*"].

Definition removeWord (w x : gostring) : gostring :=
  ReplaceAllString (wordExp w) x [].

(** The word [w] in either case, and one white-space character. *)
Definition Word (w m : gostring) (cs : caps) (rest : gostring) : Prop :=
  exists m0 c,
    m = m0 ++ [c] /\ length m0 = length w /\ foldPrefix w m0 = true
    /\ isReSpace c = true /\ cs = [].

Definition hasWord (w x : gostring) : Prop := occursIn (Word w) x.

Definition firstWord (w x pre m post : gostring) : Prop :=
  occursFirst (Word w) x pre m [] post.

(** The cleaning of a note in the words of the specification: one
    trailing carriage return goes, then a marker of each kind that leads
    the note, with the white-space character that follows it. *)
Definition stripLeading (w note : gostring) : gostring :=
  if foldPrefix w note
     && match drop (length w) note with
        | c :: _ => isReSpace c
        | [] => false
        end
  then drop (S (length w)) note
  else note.

Definition specCleanNote (note : gostring) : gostring :=
  stripLeading (str "*")
    (stripLeading (str "action required:")
       (stripLeading (str "[action required]") (dropCR note))).

(** ** Options *)

(** The four options of the package, by kind and value. *)
Inductive optionSpec :=
| OptContext (x : Context)
| OptOrg (x : gostring)
| OptRepo (x : gostring)
| OptBranch (x : gostring).

Definition applyOption (o : optionSpec) : githubApiOption :=
  match o with
  | OptContext x => WithContext x
  | OptOrg x => WithOrg x
  | OptRepo x => WithRepo x
  | OptBranch x => WithBranch x
  end.

Definition ctxOf (o : optionSpec) : option Context :=
  match o with OptContext x => Some x | _ => None end.
Definition orgOf (o : optionSpec) : option gostring :=
  match o with OptOrg x => Some x | _ => None end.
Definition repoOf (o : optionSpec) : option gostring :=
  match o with OptRepo x => Some x | _ => None end.
Definition branchOf (o : optionSpec) : option gostring :=
  match o with OptBranch x => Some x | _ => None end.

(** ** The patterns of the range filter, as texts *)

(** [w] occurs in [s]. *)
Definition contains (s w : gostring) : Prop :=
  exists pre rest, s = pre ++ w ++ rest.

(** The texts of the exclusion patterns that are literals, in their order. *)
Definition exclusionTexts : list gostring :=
  let rn := fence ++ str "release-note" in
  [ rn ++ CRLF ++ str "NONE";
    rn ++ CRLF ++ str "NONE";
    rn ++ CRLF ++ [DQUOTE] ++ str "NONE" ++ [DQUOTE];
    rn ++ CRLF ++ str "None";
    rn ++ CRLF ++ str "none";
    rn ++ CRLF ++ str "N/A";
    rn ++ CRLF ++ CRLF ++ fence;
    rn ++ CRLF ++ fence;
    str "/release-note-none";
    CRLF ++ CRLF ++ str "NONE";
    fence ++ str "NONE" ++ CRLF ++ fence;
    rn ++ str " " ++ CRLF ++ str "NONE" ++ CRLF ++ fence;
    str "NONE" ++ CRLF ++ fence;
    CRLF ++ str "None";
    CRLF ++ str "NONE" ++ CRLF ].

(** The exclusion pattern that is not a literal: the opening of a stanza,
    white space and [NONE]. *)
Definition spacedNone (ws : gostring) : gostring :=
  fence ++ str "release-note" ++ CRLF ++ ws ++ str "NONE".

Definition whiteSpace (ws : gostring) : Prop :=
  ws <> [] /\ forallb isReSpace ws = true.

(** The legacy prompt, short of its last letter. *)
Definition promptText : gostring :=
  str "Does this PR introduce a user-facing chang".

(** ** The helper [filterCommits] *)

Section FilterVocabulary.

Variable client : Client.
Variable opts : list githubApiOption.

Definition isRobot (c : RepositoryCommit) : bool :=
  eqs (AuthorLogin c) (str "k8s-merge-robot").

(** The text that [filterCommits] tests for a commit: its message, or for
    a commit of the merge robot the body of its pull request, when the
    lookup succeeds. *)
Definition filterBody (c : RepositoryCommit) : option gostring :=
  if isRobot c then
    match PRFromCommit client c opts with
    | Ok pr => Some (Body pr)
    | Err _ => None
    end
  else Some (Message c).

(** The record logged for a commit of the merge robot whose lookup fails. *)
Definition robotFailure (c : RepositoryCommit) : option LogEntry :=
  if isRobot c then
    match PRFromCommit client c opts with
    | Ok _ => None
    | Err err =>
        Some {| log_err := err;
                log_msg := str "error getting PR from k8s-merge-robot commit";
                log_sha := SHA c |}
    end
  else None.

(** Every pattern matches the text ([include]), or none does. *)
Definition passes (rs : list regex) (include : bool) (body : gostring) : bool :=
  forallb (fun r => Bool.eqb (MatchString r body) include) rs.

Definition passing (rs : list regex) (include : bool) (c : RepositoryCommit)
  : bool :=
  match filterBody c with
  | Some body => passes rs include body
  | None => false
  end.

End FilterVocabulary.

(** ** References to issues *)

(** The other forms of a letter under [(?i)] that take more than one byte:
    U+017F for [s] and U+212A for [k]. *)
Definition specialFold (c : ascii) : option gostring :=
  if Ascii.eqb (toLower c) "s" then Some [b 197; b 191]
  else if Ascii.eqb (toLower c) "k" then Some [b 226; b 132; b 170]
  else None.

(** [x] is the character [c] as a pattern under [(?i)] reads it. *)
Definition foldChar (c : ascii) (x : gostring) : Prop :=
  (exists y, x = [y] /\ sameFold c y = true) \/ specialFold c = Some x.

(** [m] is the word [w] under [(?i)]. *)
Inductive foldWord : gostring -> gostring -> Prop :=
| foldWord_nil : foldWord [] []
| foldWord_cons c w x m :
    foldChar c x -> foldWord w m -> foldWord (c :: w) (x ++ m).

(** A reference that closes an issue: a keyword in any case, a space, an
    optional [#] and the digits of the number, up to the last one. *)
Definition Reference (m : gostring) (cs : caps) (rest : gostring) : Prop :=
  exists kw w h ds,
    In kw CloseIssueKeywords /\ foldWord (str kw) w
    /\ (h = [] \/ h = str "#") /\ allDigits ds /\ stops isDigit rest
    /\ m = w ++ str " " ++ h ++ ds
    /\ cs = [(2%nat, ds); (1%nat, w)].

Definition hasReference (s : gostring) : Prop := occursIn Reference s.

(** The first reference of [s]: after [pre], with the keyword [w] and the
    digits [ds]. *)
Definition firstReference (s pre w h ds rest : gostring) : Prop :=
  occursFirst Reference s pre (w ++ str " " ++ h ++ ds)
    [(2%nat, ds); (1%nat, w)] rest.

Definition isLetter (c : ascii) : bool := isUpper c || isLower c.

(** What follows the keyword in the pattern of a reference:
    [ #?(?P<number>\d+)] under [(?i)]. *)
Definition referenceTail : regex :=
  Cat (ILit (str " "))
    (Cat (Opt (ILit (str "#"))) (Group 2 (str "number") (Plus CDigit))).


(** ** The command line *)

Module CommandLine.
Import Main.

Inductive flagName := FlGitHubToken | FlStartSHA | FlEndSHA.

Definition nameOf (n : flagName) : gostring :=
  match n with
  | FlGitHubToken => str "github-token"
  | FlStartSHA => str "start-sha"
  | FlEndSHA => str "end-sha"
  end.

Definition variableOf (n : flagName) : gostring :=
  match n with
  | FlGitHubToken => str "GITHUB_TOKEN"
  | FlStartSHA => str "START_SHA"
  | FlEndSHA => str "END_SHA"
  end.

(** One flag on the command line: with one or two minus signs, and with
    its value joined by [=] or in the next argument. *)
Record setting := {
  s_flag : flagName;
  s_value : gostring;
  s_two : bool;
  s_joined : bool
}.

Definition minuses (two : bool) : gostring :=
  if two then str "--" else str "-".

Definition render (x : setting) : list gostring :=
  if s_joined x
  then [minuses (s_two x) ++ nameOf (s_flag x) ++ str "=" ++ s_value x]
  else [minuses (s_two x) ++ nameOf (s_flag x); s_value x].

Definition sameFlag (a b : flagName) : bool :=
  match a, b with
  | FlGitHubToken, FlGitHubToken | FlStartSHA, FlStartSHA
  | FlEndSHA, FlEndSHA => true
  | _, _ => false
  end.

Definition valueFor (n : flagName) (x : setting) : option gostring :=
  if sameFlag (s_flag x) n then Some (s_value x) else None.

(** The value of a flag after the settings: the last one given for it, or
    the environment variable, or the empty string. *)
Definition chosen (env : environ) (settings : list setting) (n : flagName)
  : gostring :=
  default (default [] (env (variableOf n))) (last (omap (valueFor n) settings)).

(** The arguments at which the flags end: none, an argument that is not a
    flag, or the terminator [--]. *)
Definition endsFlags (rest : list gostring) : bool :=
  match rest with
  | [] => true
  | s :: _ =>
      (length s <? 2)%nat || negb (HasPrefix s (str "-")) || eqs s (str "--")
  end.

(** Every flag of the set is declared. *)
Definition declared (f : formal) : Prop := forall n, is_Some (f !! nameOf n).

(** What a setting does to the values of the flags. *)
Definition assign (f : formal) (x : setting) : formal :=
  <[nameOf (s_flag x) := s_value x]> f.

(** The flags as [parseOptions] declares them. *)
Definition flagset0 (env : environ) : formal :=
  <[str "end-sha" := env_String env (str "END_SHA") []]>
    (<[str "start-sha" := env_String env (str "START_SHA") []]>
       (<[str "github-token" := env_String env (str "GITHUB_TOKEN") []]> ∅)).

End CommandLine.

(** * Concrete runs *)

Module Examples.

Definition commit (sha message author : gostring) : RepositoryCommit :=
  {| SHA := sha; Message := message; AuthorLogin := author |}.

(** An instance of the formatting helper, for the runs below. *)
Definition prettySigs (sigs : list gostring) : gostring :=
  concat (map (fun x => str "sig/" ++ x) sigs).

Definition stanza (text : gostring) : gostring :=
  fence ++ str "release-note" ++ CRLF ++ text ++ CRLF ++ fence.

Definition cWidget : RepositoryCommit :=
  commit (str "a1") (str "Fix widget rendering (#1234)") (str "bob").
Definition cDark : RepositoryCommit :=
  commit (str "b2")
    (str "Add dark mode toggle (#5678)" ++ [LF; LF] ++ str "Fixes #12")
    (str "alice").
Definition cPlain : RepositoryCommit :=
  commit (str "c3") (str "Merge branch master") (str "alice").
Definition cBot : RepositoryCommit :=
  commit (str "d4") (str "Update changelog (#7)") (str "netdatabot").
Definition cAgain : RepositoryCommit :=
  commit (str "e5") (str " Add dark mode toggle  (#8)") (str "carol").
Definition cLost : RepositoryCommit :=
  commit (str "f6") (str "Tune the cache (#404)") (str "dave").

Definition pull (n : Z) (body : gostring) (labels : list string) : PullRequest :=
  {| Number := n; Body := body; UserLogin := str "alice";
     PRLabels := map str labels |}.

Definition pulls (n : Z) : RemoteError + PullRequest :=
  if n =? 1234 then inr (pull n (stanza (str "NONE")) [])
  else if n =? 5678 then
    inr (pull n (stanza (str "Dark mode")) ["kind/feature"; "sig/ui"]%string)
  else if n =? 8 then inr (pull n (str "Tidy up") ["sig/a"; "sig/b"]%string)
  else if n =? 7 then inr (pull n (str "Housekeeping") [])
  else if n =? 12 then inr (pull n (str "Twelve") [])
  else inl NotFoundError.

Definition issues (n : Z) : RemoteError + Issue :=
  if n =? 12 then inr {| IssueLabels := [str "bug"; str "area/web"] |}
  else if n =? 13 then inr {| IssueLabels := [str "area/db"] |}
  else inl NotFoundError.

(** A repository whose range holds the six commits above, on two pages. *)
Definition gh : Client :=
  {| Git_GetCommit := fun _ _ _ sha => inr {| CommitterDate := 5 |};
     Repositories_ListCommits := fun _ _ _ clo =>
       if Page clo =? 1
       then inr ([cWidget; cDark; cPlain], {| LastPage := 2 |})
       else inr ([cBot; cAgain; cLost], {| LastPage := 2 |});
     PullRequests_Get := fun _ _ _ n => pulls n;
     Issues_Get := fun _ _ _ n => issues n |}.


(** A repository with one commit, whose pull request carries a note. *)
Definition ghOne : Client :=
  {| Git_GetCommit := Git_GetCommit gh;
     Repositories_ListCommits := fun _ _ _ _ => inr ([cDark], {| LastPage := 1 |});
     PullRequests_Get := PullRequests_Get gh;
     Issues_Get := Issues_Get gh |}.

Definition emptyNote : ReleaseNote :=
  {| Commit := []; Text := []; Markdown := []; Author := []; AuthorUrl := [];
     PrUrl := []; PrNumber := 0; Areas := []; Kinds := []; SIGs := [];
     Feature := false; Duplicate := false; ActionRequired := false |}.

Definition noteOf (c : RepositoryCommit) : ReleaseNote :=
  match ReleaseNoteFromCommit prettySigs c gh [] with
  | Ok n => n
  | Err _ => emptyNote
  end.

Definition noteDark : ReleaseNote := Eval vm_compute in noteOf cDark.
Definition noteAgain : ReleaseNote := Eval vm_compute in noteOf cAgain.

Definition filtered : list RepositoryCommit :=
  [cDark; cDark; cBot; cAgain; cLost].

Definition lostEntry : LogEntry :=
  {| log_err :=
       Wrapf (str "error parsing release note from commit f6")
         (Remote NotFoundError);
     log_msg := str "error getting the release note from commit while listing release notes";
     log_sha := str "f6" |}.

(** A marker on the second line only, a marker whose digits exceed an
    [int], a marker inside the first line, and issue references. *)
Definition cSecondLine : RepositoryCommit :=
  commit (str "g7") (str "Tune the cache" ++ [LF] ++ str "follow-up of (#12)")
    (str "erin").
Definition cHuge : RepositoryCommit :=
  commit (str "h8") (str "Bump version (#99999999999999999999)") (str "erin").
Definition cInside : RepositoryCommit :=
  commit (str "i9") (str "Fix (#12) the cache") (str "erin").
Definition cTwoIssues : RepositoryCommit :=
  commit (str "j0") (str "Tidy (#8), fixes #12 and closes 13") (str "erin").
Definition cHugeIssue : RepositoryCommit :=
  commit (str "k1") (str "Fixes #99999999999999999999") (str "erin").

Definition twoIssuesMatches : list (list gostring) :=
  Eval vm_compute in FindAllStringSubmatch issueExp (Message cTwoIssues).

(** A marker with a pull request and an issue number that exceeds an
    [int], and two commits of the merge robot. *)
Definition cHugeOther : RepositoryCommit :=
  commit (str "l2")
    (str "Fix (#12) the cache, fixes #99999999999999999999") (str "erin").
Definition cRobot : RepositoryCommit :=
  commit (str "m3") (str "Merge pull request (#12)") (str "k8s-merge-robot").
Definition cRobotLost : RepositoryCommit :=
  commit (str "n4") (str "Merge pull request (#404)") (str "k8s-merge-robot").

Definition robotEntry : LogEntry :=
  {| log_err := Remote NotFoundError;
     log_msg := str "error getting PR from k8s-merge-robot commit";
     log_sha := str "n4" |}.



End Examples.

(** * Properties *)

(** ** Strings, lists and labels *)

Lemma eqs_true (a b : gostring) : eqs a b = true <-> a = b.
Proof. unfold eqs. apply bool_decide_eq_true. Qed.

Lemma eqs_false (a b : gostring) : eqs a b = false <-> a <> b.
Proof. unfold eqs. apply bool_decide_eq_false. Qed.

Lemma HasPrefix_app (p t : gostring) : HasPrefix (p ++ t) p = true.
Proof.
  induction p as [|c p IH]; simpl; [reflexivity|].
  rewrite Ascii.eqb_refl. exact IH.
Qed.

Lemma HasPrefix_inv (s p : gostring) :
  HasPrefix s p = true -> s = p ++ drop (length p) s.
Proof.
  revert s. induction p as [|c p IH]; intros s H; simpl in *.
  - reflexivity.
  - destruct s as [|x s]; [discriminate|].
    apply andb_true_iff in H as [Hc Hp].
    apply Ascii.eqb_eq in Hc. subst x. simpl. f_equal. apply IH, Hp.
Qed.

Lemma HasPrefix_spec (s p : gostring) :
  HasPrefix s p = true <-> exists t, s = p ++ t.
Proof.
  split.
  - intros H. eexists. apply HasPrefix_inv, H.
  - intros [t ->]. apply HasPrefix_app.
Qed.

Lemma app_eq_shorter {X : Type} (a b c d : list X) :
  a ++ b = c ++ d -> (length a < length c)%nat ->
  exists p, p <> [] /\ c = a ++ p /\ b = p ++ d.
Proof.
  revert c. induction a as [|x a IH]; intros c H Hlen.
  - simpl in H. subst b. exists c. destruct c; [simpl in Hlen; lia|].
    split; [discriminate | auto].
  - destruct c as [|y c]; [simpl in Hlen; lia|].
    simpl in H. injection H as -> H. simpl in Hlen.
    destruct (IH c H ltac:(lia)) as (p & Hne & -> & ->).
    exists p. auto.
Qed.

Lemma take_matched (m rest : gostring) :
  take (length (m ++ rest) - length rest) (m ++ rest) = m.
Proof.
  rewrite length_app. replace (length m + length rest - length rest)%nat
    with (length m) by lia.
  now rewrite take_app_length.
Qed.

Lemma filter_filter_and {A : Type} (p q : A -> bool) (l : list A) :
  List.filter p (List.filter q l) = List.filter (fun x => p x && q x) l.
Proof.
  induction l as [|x l IH]; simpl; [reflexivity|].
  destruct (q x); simpl; rewrite ?andb_true_r, ?andb_false_r;
    [destruct (p x)|]; now rewrite IH.
Qed.

Lemma filter_sublist {A : Type} (p : A -> bool) (l : list A) :
  sublist (List.filter p l) l.
Proof.
  induction l as [|x l IH]; simpl; [constructor|].
  destruct (p x); now constructor.
Qed.

Lemma omap_cons_Some {A B : Type} (f : A -> option B) x y (l : list A) :
  f x = Some y -> omap f (x :: l) = y :: omap f l.
Proof. intros H. simpl. now rewrite H. Qed.

Lemma omap_cons_None {A B : Type} (f : A -> option B) x (l : list A) :
  f x = None -> omap f (x :: l) = omap f l.
Proof. intros H. simpl. now rewrite H. Qed.



Lemma omap_filter_None {A B : Type} (f : A -> option B) (p : A -> bool)
    (l : list A) :
  (forall x, p x = false -> f x = None) ->
  omap f (List.filter p l) = omap f l.
Proof.
  intros H. induction l as [|x l IH]; [reflexivity|].
  cbn [List.filter]. destruct (p x) eqn:E.
  - cbn [omap list_omap]. now rewrite IH.
  - rewrite (omap_cons_None _ _ _ (H x E)). exact IH.
Qed.

Lemma rev_repeat {X : Type} (c : X) (n : nat) : rev (repeat c n) = repeat c n.
Proof.
  induction n as [|n IH]; [reflexivity|].
  cbn [repeat rev]. rewrite IH. clear IH.
  induction n as [|n IH]; [reflexivity|]. cbn [repeat app]. now rewrite IH.
Qed.

Lemma StringsWithPrefix_acc (xs : list gostring) (prefix : gostring)
    (acc : list gostring) :
  fold_left
    (fun ys x => if HasPrefix x prefix then ys ++ [TrimPrefix x prefix] else ys)
    xs acc
  = acc ++ map (fun x => drop (length prefix) x)
             (List.filter (fun x => HasPrefix x prefix) xs).
Proof.
  revert acc. induction xs as [|x xs IH]; intros acc; simpl.
  - now rewrite app_nil_r.
  - rewrite IH. unfold TrimPrefix. destruct (HasPrefix x prefix); simpl.
    + now rewrite <- app_assoc.
    + reflexivity.
Qed.

(** [StringsWithPrefix] keeps the labels that start with the prefix, in
    order, and cuts the prefix off. *)
Lemma StringsWithPrefix_filter (xs : list gostring) (prefix : gostring) :
  StringsWithPrefix xs prefix
  = map (fun x => drop (length prefix) x)
        (List.filter (fun x => HasPrefix x prefix) xs).
Proof. unfold StringsWithPrefix. now rewrite StringsWithPrefix_acc. Qed.

Lemma labels_acc (xs acc : list gostring) :
  fold_left (fun labels label => labels ++ [label]) xs acc = acc ++ xs.
Proof.
  revert acc. induction xs as [|x xs IH]; intros acc; simpl.
  - now rewrite app_nil_r.
  - rewrite IH. now rewrite <- app_assoc.
Qed.

Lemma GetPRLabels_eq (pr : PullRequest) : GetPRLabels pr = PRLabels pr.
Proof. unfold GetPRLabels. now rewrite labels_acc. Qed.

Lemma GetIssueLabels_eq (issue : Issue) : GetIssueLabels issue = IssueLabels issue.
Proof. unfold GetIssueLabels. now rewrite labels_acc. Qed.

Lemma HasString_In (a : list gostring) (x : gostring) :
  HasString a x = true <-> In x a.
Proof.
  induction a as [|n a IH]; simpl.
  - split; [discriminate | tauto].
  - destruct (eqs x n) eqn:E.
    + apply eqs_true in E. subst. tauto.
    + apply eqs_false in E. rewrite IH. split; [tauto|].
      intros [H|H]; [congruence | exact H].
Qed.

(** A label list carries [prefix ++ suffix] exactly when the suffix is among
    the prefix-stripped labels. *)
Lemma HasString_StringsWithPrefix (labels : list gostring) (prefix suffix : gostring) :
  HasString (StringsWithPrefix labels prefix) suffix = true
  <-> In (prefix ++ suffix) labels.
Proof.
  rewrite HasString_In, StringsWithPrefix_filter, in_map_iff.
  split.
  - intros (x & Hx & Hin). apply filter_In in Hin as [Hin Hp].
    apply HasPrefix_inv in Hp. rewrite Hx in Hp. now rewrite <- Hp.
  - intros Hin. exists (prefix ++ suffix). split.
    + now rewrite drop_app_length.
    + apply filter_In. split; [exact Hin | apply HasPrefix_app].
Qed.

Lemma length_StringsWithPrefix (labels : list gostring) (prefix : gostring) :
  length (StringsWithPrefix labels prefix) = countPrefixed labels prefix.
Proof. rewrite StringsWithPrefix_filter. apply length_map. Qed.

Lemma IsActionRequired_In (pr : PullRequest) :
  IsActionRequired pr = true
  <-> In (str "release-note-action-required") (PRLabels pr).
Proof.
  unfold IsActionRequired. rewrite existsb_exists. split.
  - intros (x & Hin & E). apply eqs_true in E. now subst.
  - intros Hin. eexists. split; [exact Hin | now apply eqs_true].
Qed.

(** ** The matcher *)

Section RunFacts.

Context {A : Type}.
Implicit Types (k : gostring -> caps -> option A) (s w : gostring).

Lemma run_Cat r1 r2 s cs k :
  run (Cat r1 r2) s cs k = run r1 s cs (fun s' cs' => run r2 s' cs' k).
Proof. reflexivity. Qed.

(** A literal matches when it is a prefix of the input. *)
Lemma run_Lit w s cs k :
  run (Lit w) s cs k = if HasPrefix s w then k (drop (length w) s) cs else None.
Proof.
  revert s. induction w as [|c w IH]; intros s; simpl.
  - reflexivity.
  - destruct s as [|x s]; [reflexivity|]. simpl.
    destruct (Ascii.eqb c x); simpl; [apply IH | reflexivity].
Qed.

(** The continuation of [x*] is called after a run of [x]. *)
Lemma star_loop_inv p s (k1 : gostring -> option A) x :
  star_loop p s k1 = Some x ->
  exists m s', s = m ++ s' /\ forallb p m = true /\ k1 s' = Some x.
Proof.
  induction s as [|c s IH]; simpl; intros H.
  - exists [], []. auto.
  - destruct (p c) eqn:Ec.
    + destruct (star_loop p s k1) as [y|] eqn:El.
      * injection H as ->. destruct (IH eq_refl) as (m & s' & -> & Hm & Hk).
        exists (c :: m), s'. simpl. rewrite Ec, Hm. auto.
      * exists [], (c :: s). auto.
    + exists [], (c :: s). auto.
Qed.

(** When what follows [x*] cannot start with an [x], the star takes the
    whole run. *)
Lemma star_loop_greedy p s (k1 : gostring -> option A) :
  (forall c s', p c = true -> k1 (c :: s') = None) ->
  star_loop p s k1 = k1 (dropRun p s).
Proof.
  intros Hk. induction s as [|c s IH]; simpl; [reflexivity|].
  destruct (p c) eqn:Ec; [|reflexivity].
  rewrite IH. destruct (k1 (dropRun p s)) eqn:E; [reflexivity|].
  now apply Hk.
Qed.

(** A successful match has called its continuation on a suffix of the
    input. *)
Lemma run_inv r s cs k x :
  run r s cs k = Some x ->
  exists m s' cs', s = m ++ s' /\ k s' cs' = Some x.
Proof.
  revert s cs k. induction r as [|cl|r1 IH1 r2 IH2|r1 IH1 r2 IH2|cl|i name r IH];
    intros s cs k; simpl; intros H.
  - exists [], s, cs. auto.
  - destruct s as [|c s]; [discriminate|].
    destruct (cmatch cl c); [|discriminate].
    exists [c], s, cs. auto.
  - apply IH1 in H as (m1 & s1 & cs1 & -> & H).
    apply IH2 in H as (m2 & s2 & cs2 & -> & H).
    exists (m1 ++ m2), s2, cs2. now rewrite <- app_assoc.
  - destruct (run r1 s cs k) as [y|] eqn:E.
    + injection H as ->. now apply IH1 in E.
    + now apply IH2 in H.
  - apply star_loop_inv in H as (m & s' & -> & _ & H). eauto.
  - apply IH in H as (m & s' & cs' & -> & H). eauto.
Qed.

End RunFacts.

(** Two continuations that agree give the same match. *)
Lemma star_loop_ext {A : Type} p (s : gostring) (k1 k2 : gostring -> option A) :
  (forall s', k1 s' = k2 s') -> star_loop p s k1 = star_loop p s k2.
Proof.
  intros H. induction s as [|c s IH]; simpl; [apply H|].
  now rewrite IH, H.
Qed.

Lemma run_ext {A : Type} r (s : gostring) cs
    (k1 k2 : gostring -> caps -> option A) :
  (forall s' cs', k1 s' cs' = k2 s' cs') -> run r s cs k1 = run r s cs k2.
Proof.
  revert s cs k1 k2.
  induction r as [|cl|r1 IH1 r2 IH2|r1 IH1 r2 IH2|cl|i name r IH];
    intros s cs k1 k2 H; simpl.
  - apply H.
  - destruct s as [|c s]; [reflexivity|]. now rewrite H.
  - apply IH1. intros s' cs'. now apply IH2.
  - now rewrite (IH1 s cs k1 k2 H), (IH2 s cs k1 k2 H).
  - apply star_loop_ext. intros s'. apply H.
  - apply IH. intros s' cs'. apply H.
Qed.

Lemma match_at_suffix r s rest cs :
  match_at r s = Some (rest, cs) -> exists m, s = m ++ rest.
Proof.
  unfold match_at. intros H.
  apply run_inv in H as (m & s' & cs' & -> & [= -> ->]). eauto.
Qed.

(** What [search] finds: a match, and no match at an earlier position. *)
Lemma search_Some r s f :
  search r s = Some f ->
  s = f_before f ++ f_matched f ++ f_after f
  /\ match_at r (f_matched f ++ f_after f) = Some (f_after f, f_caps f)
  /\ (forall p1 p2, f_before f = p1 ++ p2 -> p2 <> [] ->
        match_at r (p2 ++ f_matched f ++ f_after f) = None).
Proof.
  revert f. induction s as [|c s IH]; intros f; simpl.
  - destruct (match_at r []) as [[rest cs]|] eqn:E; [|discriminate].
    intros [= <-]. simpl.
    destruct (match_at_suffix _ _ _ _ E) as (m & Hm).
    symmetry in Hm. apply app_eq_nil in Hm as [-> ->]. simpl.
    split; [reflexivity|]. split; [exact E|].
    intros p1 p2 Hp. symmetry in Hp. apply app_eq_nil in Hp as [_ ->]. tauto.
  - destruct (match_at r (c :: s)) as [[rest cs]|] eqn:E.
    + intros [= <-]. simpl.
      destruct (match_at_suffix _ _ _ _ E) as (m & Hm).
      rewrite Hm at 2 3. change (S (length s)) with (length (c :: s)).
      rewrite Hm, take_matched.
      split; [reflexivity|]. split; [now rewrite <- Hm|].
      intros p1 p2 Hp. symmetry in Hp. apply app_eq_nil in Hp as [_ ->]. tauto.
    + destruct (search r s) as [g|] eqn:Es; [|discriminate].
      intros [= <-]. destruct (IH g eq_refl) as (Hs & Hm & Hleft). simpl.
      split; [now rewrite Hs at 1|]. split; [exact Hm|].
      intros p1 p2 Hp Hne. destruct p1 as [|x p1]; simpl in Hp.
      * subst p2. simpl. now rewrite <- Hs.
      * injection Hp as -> Hp. now apply (Hleft p1).
Qed.

Lemma search_None r s :
  search r s = None <-> forall pre t, s = pre ++ t -> match_at r t = None.
Proof.
  induction s as [|c s IH]; simpl.
  - destruct (match_at r []) as [[rest cs]|] eqn:E.
    + split; [discriminate|]. intros H. now rewrite (H [] []) in E.
    + split; [|reflexivity]. intros _ pre t Hp.
      symmetry in Hp. now apply app_eq_nil in Hp as [_ ->].
  - destruct (match_at r (c :: s)) as [[rest cs]|] eqn:E.
    + split; [discriminate|]. intros H. now rewrite (H [] (c :: s)) in E.
    + destruct (search r s) as [g|] eqn:Es; simpl.
      * split; [discriminate|]. intros H.
        assert (Hn : @None found = None) by reflexivity.
        enough (Some g = None) by discriminate.
        apply IH. intros pre t ->. apply (H (c :: pre)). reflexivity.
      * split; [|reflexivity]. intros _ pre t Hp.
        destruct pre as [|x pre]; simpl in Hp.
        -- now subst t.
        -- injection Hp as -> ->. now apply (proj1 IH eq_refl pre).
Qed.

(** The leftmost position where the anchored match succeeds is the one
    [search] returns. *)
Lemma search_intro r pre m rest cs :
  match_at r (m ++ rest) = Some (rest, cs) ->
  (forall p1 p2, pre = p1 ++ p2 -> p2 <> [] ->
     match_at r (p2 ++ m ++ rest) = None) ->
  search r (pre ++ m ++ rest)
  = Some {| f_before := pre; f_matched := m; f_caps := cs; f_after := rest |}.
Proof.
  intros Hm. induction pre as [|c pre IH]; intros Hleft.
  - simpl app. destruct (m ++ rest) as [|x t] eqn:E; simpl; rewrite Hm.
    + apply app_eq_nil in E as [-> ->]. reflexivity.
    + change (S (length t)) with (length (x :: t)).
      rewrite <- E, take_matched. reflexivity.
  - assert (Hc : match_at r (c :: pre ++ m ++ rest) = None)
      by (apply (Hleft [] (c :: pre)); [reflexivity | discriminate]).
    simpl. rewrite Hc.
    rewrite IH; [reflexivity|].
    intros p1 p2 -> Hne. now apply (Hleft (c :: p1)).
Qed.

Lemma MatchString_true r s :
  MatchString r s = true
  <-> exists pre t rest cs, s = pre ++ t /\ match_at r t = Some (rest, cs).
Proof.
  unfold MatchString. destruct (search r s) as [f|] eqn:E.
  - split; [intros _|reflexivity].
    apply search_Some in E as (Hs & Hm & _).
    exists (f_before f), (f_matched f ++ f_after f), (f_after f), (f_caps f).
    auto.
  - split; [discriminate|]. intros (pre & t & rest & cs & Hs & Hm).
    rewrite (proj1 (search_None r s) E pre t Hs) in Hm. discriminate.
Qed.

(** ** Runs of a class *)

Lemma takeRun_dropRun p (s : gostring) : takeRun p s ++ dropRun p s = s.
Proof.
  induction s as [|c s IH]; simpl; [reflexivity|].
  destruct (p c); simpl; [now rewrite IH | reflexivity].
Qed.

Lemma takeRun_forallb p (s : gostring) : forallb p (takeRun p s) = true.
Proof.
  induction s as [|c s IH]; simpl; [reflexivity|].
  destruct (p c) eqn:E; simpl; [now rewrite E | reflexivity].
Qed.

Lemma dropRun_stops p (s : gostring) : stops p (dropRun p s).
Proof.
  induction s as [|c s IH]; simpl; [exact I|].
  destruct (p c) eqn:E; [exact IH | exact E].
Qed.

Lemma run_app p (ds rest : gostring) :
  forallb p ds = true -> stops p rest ->
  takeRun p (ds ++ rest) = ds /\ dropRun p (ds ++ rest) = rest.
Proof.
  intros Hds Hrest. induction ds as [|d ds IH]; simpl in *.
  - destruct rest as [|c rest]; simpl in *; [auto|]. now rewrite Hrest.
  - apply andb_true_iff in Hds as [Hd Hds]. rewrite Hd.
    destruct (IH Hds) as [-> ->]. auto.
Qed.

Lemma take_takeRun p (s : gostring) :
  take (length s - length (dropRun p s)) s = takeRun p s.
Proof.
  rewrite <- (takeRun_dropRun p s) at 1 3.
  apply take_matched.
Qed.

(** A group around [x+], followed by something that cannot start with an
    [x]: the group takes the whole run. *)
Lemma run_Group_Plus_greedy {A : Type} i name cl (s : gostring) cs
    (k : gostring -> caps -> option A) :
  (forall c s' cs', cmatch cl c = true -> k (c :: s') cs' = None) ->
  run (Group i name (Plus cl)) s cs k
  = match s with
    | c :: _ =>
        if cmatch cl c
        then k (dropRun (cmatch cl) s) ((i, takeRun (cmatch cl) s) :: cs)
        else None
    | [] => None
    end.
Proof.
  intros Hk. destruct s as [|c s]; [reflexivity|].
  cbn [run Plus]. destruct (cmatch cl c) eqn:Ec; [|reflexivity].
  rewrite star_loop_greedy.
  - pose proof (take_takeRun (cmatch cl) (c :: s)) as Ht.
    cbn [dropRun takeRun] in *. rewrite Ec in *. now rewrite Ht.
  - intros c' s' Hc'. now apply Hk.
Qed.

(** A group around [x+]: it captures a non-empty run of [x]. *)
Lemma run_Group_Plus_inv {A : Type} i name cl (s : gostring) cs
    (k : gostring -> caps -> option A) x :
  run (Group i name (Plus cl)) s cs k = Some x ->
  exists ds s',
    s = ds ++ s' /\ ds <> [] /\ forallb (cmatch cl) ds = true
    /\ k s' ((i, ds) :: cs) = Some x.
Proof.
  destruct s as [|c s]; [discriminate|].
  cbn [run Plus]. destruct (cmatch cl c) eqn:Ec; [|discriminate].
  intros H. apply star_loop_inv in H as (m & s' & -> & Hm & H).
  exists (c :: m), s'. split; [reflexivity|]. split; [discriminate|].
  split; [cbn [forallb]; now rewrite Ec, Hm|].
  change (c :: m ++ s') with ((c :: m) ++ s') in H.
  now rewrite take_matched in H.
Qed.

(** ** The star, in full *)

Section StarFacts.

Context {A : Type}.
Variable p : ascii -> bool.
Variable k1 : gostring -> option A.

Lemma star_loop_None (s : gostring) :
  star_loop p s k1 = None
  <-> forall m s', s = m ++ s' -> forallb p m = true -> k1 s' = None.
Proof.
  induction s as [|c s IH]; simpl.
  - split.
    + intros H m s' Hs _. symmetry in Hs. now apply app_eq_nil in Hs as [_ ->].
    + intros H. now apply (H [] []).
  - destruct (p c) eqn:Ec.
    + destruct (star_loop p s k1) as [y|] eqn:El.
      * split; [discriminate|]. intros H.
        assert (HN : Some y = None); [|discriminate].
        apply IH. intros m s' -> Hm. apply (H (c :: m)); [reflexivity|].
        simpl. now rewrite Ec.
      * split.
        -- intros H m s' Hs Hm. destruct m as [|x m]; simpl in Hs.
           ++ now subst s'.
           ++ injection Hs as -> ->. simpl in Hm.
              apply andb_true_iff in Hm as [_ Hm].
              now apply (proj1 IH eq_refl m).
        -- intros H. now apply (H [] (c :: s)).
    + split.
      * intros H m s' Hs Hm. destruct m as [|x m]; simpl in Hs.
        -- now subst s'.
        -- injection Hs as -> ->. simpl in Hm. rewrite Ec in Hm. discriminate.
      * intros H. now apply (H [] (c :: s)).
Qed.

Lemma star_loop_Some (s : gostring) (x : A) :
  star_loop p s k1 = Some x -> exists m s', longestSplit p k1 s m s' x.
Proof.
  revert x. induction s as [|c s IH]; intros x; simpl.
  - intros H. exists [], []. repeat split; [exact H|].
    intros m' s'' Hs _ Hlen. symmetry in Hs.
    apply app_eq_nil in Hs as [-> _]. simpl in Hlen. lia.
  - destruct (p c) eqn:Ec.
    + destruct (star_loop p s k1) as [y|] eqn:El.
      * intros [= ->]. destruct (IH x eq_refl) as (m & s' & -> & Hm & Hk & Hmax).
        exists (c :: m), s'. split; [reflexivity|].
        split; [simpl; now rewrite Ec, Hm|]. split; [exact Hk|].
        intros m' s'' Hs Hm' Hlen. destruct m' as [|x' m']; [simpl in Hlen; lia|].
        simpl in Hs. injection Hs as <- Hs. simpl in Hm', Hlen.
        apply andb_true_iff in Hm' as [_ Hm'].
        apply (Hmax m' s'' Hs Hm'). lia.
      * intros H. exists [], (c :: s). repeat split; [exact H|].
        intros m' s'' Hs Hm' Hlen. destruct m' as [|x' m']; [simpl in Hlen; lia|].
        simpl in Hs. injection Hs as <- Hs. simpl in Hm'.
        apply andb_true_iff in Hm' as [_ Hm'].
        now apply (proj1 (star_loop_None s) El m' s'').
    + intros H. exists [], (c :: s). repeat split; [exact H|].
      intros m' s'' Hs Hm' Hlen. destruct m' as [|x' m']; [simpl in Hlen; lia|].
      simpl in Hs. injection Hs as <- Hs. simpl in Hm'.
      rewrite Ec in Hm'. discriminate.
Qed.

Lemma star_loop_longest (s m s' : gostring) (x : A) :
  longestSplit p k1 s m s' x -> star_loop p s k1 = Some x.
Proof.
  intros (Hs & Hm & Hk & Hmax).
  destruct (star_loop p s k1) as [y|] eqn:E.
  - apply star_loop_Some in E as (m2 & s2 & Hs2 & Hm2 & Hk2 & Hmax2).
    destruct (Nat.lt_trichotomy (length m) (length m2)) as [Hlt|[Heq|Hgt]].
    + rewrite (Hmax m2 s2 Hs2 Hm2 Hlt) in Hk2. discriminate.
    + rewrite Hs in Hs2. apply app_inj_1 in Hs2 as [_ <-]; [|exact Heq].
      congruence.
    + rewrite (Hmax2 m s' Hs Hm Hgt) in Hk. discriminate.
  - rewrite (proj1 (star_loop_None s) E m s' Hs Hm) in Hk. discriminate.
Qed.

End StarFacts.

Lemma run_Group_Plus_Some {A : Type} i name cl (s : gostring) cs
    (k : gostring -> caps -> option A) x :
  run (Group i name (Plus cl)) s cs k = Some x
  <-> exists ds s', longestCapture cl i cs k s ds s' x.
Proof.
  destruct s as [|c s].
  { split; [discriminate|]. intros (ds & s' & Hs & Hne & _).
    symmetry in Hs. apply app_eq_nil in Hs as [-> _]. contradiction. }
  cbn [run Plus].
  set (k1 := fun s' => k s' ((i, take (length (c :: s) - length s') (c :: s)) :: cs)).
  assert (Hk1 : forall m s', s = m ++ s' -> k1 s' = k s' ((i, c :: m) :: cs)).
  { intros m s' ->. unfold k1.
    change (c :: m ++ s') with ((c :: m) ++ s'). now rewrite take_matched. }
  destruct (cmatch cl c) eqn:Ec.
  - split.
    + intros H. apply star_loop_Some in H as (m & s' & Hs & Hm & Hk & Hmax).
      exists (c :: m), s'. split; [now rewrite Hs|]. split; [discriminate|].
      split; [simpl; now rewrite Ec, Hm|].
      split; [now rewrite <- (Hk1 m s' Hs)|].
      intros ds' s'' Hs' Hd' Hlen.
      destruct ds' as [|x' ds']; [simpl in Hlen; lia|].
      simpl in Hs'. injection Hs' as <- Hs'. simpl in Hd', Hlen.
      apply andb_true_iff in Hd' as [_ Hd'].
      rewrite <- (Hk1 ds' s'' Hs'). apply (Hmax ds' s'' Hs' Hd'). lia.
    + intros (ds & s' & Hs & Hne & Hd & Hk & Hmax).
      destruct ds as [|x' ds]; [contradiction|].
      simpl in Hs. injection Hs as <- Hs. simpl in Hd.
      apply andb_true_iff in Hd as [_ Hd].
      apply (star_loop_longest _ _ s ds s').
      split; [exact Hs|]. split; [exact Hd|].
      split; [now rewrite (Hk1 ds s' Hs)|].
      intros m' s'' Hs' Hm' Hlen. rewrite (Hk1 m' s'' Hs').
      apply (Hmax (c :: m') s''); [now rewrite Hs' | simpl; now rewrite Ec, Hm'|].
      simpl. lia.
  - split; [discriminate|].
    intros (ds & s' & Hs & Hne & Hd & _).
    destruct ds as [|x' ds]; [contradiction|].
    simpl in Hs. injection Hs as <- _. simpl in Hd. rewrite Ec in Hd.
    discriminate.
Qed.

Lemma MatchString_any (body : gostring) : MatchString (Star CDot) body = true.
Proof.
  apply MatchString_true. exists [], body.
  unfold match_at. cbn [run].
  destruct (star_loop (cmatch CDot) body (fun s' => Some (s', @nil (nat * gostring))))
    as [[rest cs]|] eqn:E; [eauto|].
  exfalso.
  pose proof (proj1 (star_loop_None _ _ body) E [] body eq_refl eq_refl).
  discriminate.
Qed.

(** ** Replacing all matches *)

Lemma replaceAll_S r repl (n : nat) (s : gostring) :
  replaceAll (S n) r s repl
  = match search r s with
    | None => s
    | Some f =>
        f_before f ++ repl ++
          match f_matched f, f_after f with
          | [], [] => []
          | [], c :: rest => c :: replaceAll n r rest repl
          | _ :: _, rest => replaceAll n r rest repl
          end
    end.
Proof. reflexivity. Qed.

Lemma replaceAll_fuel r repl (n m : nat) (s : gostring) :
  (length s < n)%nat -> (length s < m)%nat ->
  replaceAll n r s repl = replaceAll m r s repl.
Proof.
  revert m s. induction n as [|n IH]; intros m s Hn Hm; [lia|].
  destruct m as [|m]; [lia|]. rewrite !replaceAll_S.
  destruct (search r s) as [f|] eqn:E; [|reflexivity].
  apply search_Some in E as (Hs & _ & _).
  apply (f_equal (@length ascii)) in Hs. rewrite !length_app in Hs.
  destruct (f_matched f) as [|x mt]; [destruct (f_after f) as [|c rest]|];
    simpl in Hs; [reflexivity | do 3 f_equal | do 2 f_equal]; apply IH; lia.
Qed.

(** One round of [ReplaceAllString]. *)
Lemma ReplaceAllString_unfold r (s repl : gostring) :
  ReplaceAllString r s repl
  = match search r s with
    | None => s
    | Some f =>
        f_before f ++ repl ++
          match f_matched f, f_after f with
          | [], [] => []
          | [], c :: rest => c :: ReplaceAllString r rest repl
          | _ :: _, rest => ReplaceAllString r rest repl
          end
    end.
Proof.
  unfold ReplaceAllString. rewrite replaceAll_S.
  destruct (search r s) as [f|] eqn:E; [|reflexivity].
  apply search_Some in E as (Hs & _ & _).
  apply (f_equal (@length ascii)) in Hs. rewrite !length_app in Hs.
  destruct (f_matched f) as [|x mt]; [destruct (f_after f) as [|c rest]|];
    simpl in Hs; [reflexivity | do 3 f_equal | do 2 f_equal];
    apply replaceAll_fuel; lia.
Qed.

(** ** Occurrences of a pattern

    For a pattern whose anchored matches are described by a relation
    [Occ matched captures rest], the search and the replacement are
    described by the first occurrence. *)

Section Occurrences.

Variable r : regex.
Variable Occ : gostring -> caps -> gostring -> Prop.

Hypothesis Occ_match : forall t rest cs,
  match_at r t = Some (rest, cs) <-> exists m, t = m ++ rest /\ Occ m cs rest.

Lemma search_occursFirst s pre m cs rest :
  occursFirst Occ s pre m cs rest ->
  search r s
  = Some {| f_before := pre; f_matched := m; f_caps := cs; f_after := rest |}.
Proof.
  intros (-> & Hocc & Hfirst). apply search_intro.
  - apply Occ_match. eauto.
  - intros p1 p2 -> Hne.
    destruct (match_at r (p2 ++ m ++ rest)) as [[rest' cs']|] eqn:E;
      [|reflexivity].
    apply Occ_match in E as (m' & E & Hocc'). exfalso.
    assert (Hlen : (length (p1 ++ p2) <= length p1)%nat).
    { apply (Hfirst p1 m' cs' rest'); [|exact Hocc'].
      now rewrite <- app_assoc, E. }
    rewrite length_app in Hlen. destruct p2; [contradiction | simpl in Hlen; lia].
Qed.

Lemma occursFirst_of_search s f :
  search r s = Some f ->
  occursFirst Occ s (f_before f) (f_matched f) (f_caps f) (f_after f).
Proof.
  intros H. apply search_Some in H as (Hs & Hm & Hleft).
  pose proof Hm as Hm'. apply Occ_match in Hm' as (m & Heq & Hocc).
  apply app_inv_tail in Heq. subst m.
  split; [exact Hs|]. split; [exact Hocc|].
  intros pre' m' cs' rest' Hs' Hocc'.
  destruct (Nat.le_gt_cases (length (f_before f)) (length pre')) as [Hle|Hlt];
    [exact Hle|].
  exfalso. rewrite Hs in Hs'. symmetry in Hs'.
  destruct (app_eq_shorter _ _ _ _ Hs' Hlt) as (q & Hne & Hb & Hrest).
  assert (Hmk : match_at r (m' ++ rest') = Some (rest', cs'))
    by (apply Occ_match; eauto).
  rewrite Hrest, (Hleft pre' q Hb Hne) in Hmk. discriminate.
Qed.

Lemma search_occursIn s : search r s = None <-> ~ occursIn Occ s.
Proof.
  rewrite search_None. split.
  - intros H (pre & m & cs & rest & -> & Hocc).
    assert (Hmk : match_at r (m ++ rest) = Some (rest, cs))
      by (apply Occ_match; eauto).
    rewrite (H pre _ eq_refl) in Hmk. discriminate.
  - intros H pre t ->.
    destruct (match_at r t) as [[rest cs]|] eqn:E; [|reflexivity].
    apply Occ_match in E as (m & -> & Hocc).
    exfalso. apply H. exists pre, m, cs, rest. auto.
Qed.

Lemma MatchString_occursIn s : MatchString r s = true <-> occursIn Occ s.
Proof.
  unfold MatchString. destruct (search r s) as [f|] eqn:E.
  - split; [intros _|reflexivity].
    apply occursFirst_of_search in E as (Hs & Hocc & _).
    exists (f_before f), (f_matched f), (f_caps f), (f_after f). auto.
  - split; [discriminate|]. intros H. now apply search_occursIn in E.
Qed.

Lemma occursFirst_fun s pre m cs rest pre' m' cs' rest' :
  occursFirst Occ s pre m cs rest -> occursFirst Occ s pre' m' cs' rest' ->
  pre = pre' /\ m = m' /\ cs = cs' /\ rest = rest'.
Proof.
  intros H H'. apply search_occursFirst in H, H'.
  rewrite H in H'. now injection H' as -> -> -> ->.
Qed.

(** An occurrence exists as soon as one does, first. *)
Lemma occursIn_first s :
  occursIn Occ s -> exists pre m cs rest, occursFirst Occ s pre m cs rest.
Proof.
  intros H. apply MatchString_occursIn in H. unfold MatchString in H.
  destruct (search r s) as [f|] eqn:E; [|discriminate].
  apply occursFirst_of_search in E. eauto.
Qed.

Lemma ReplaceAllString_absent s repl :
  ~ occursIn Occ s -> ReplaceAllString r s repl = s.
Proof.
  intros H. apply search_occursIn in H.
  now rewrite ReplaceAllString_unfold, H.
Qed.

Lemma ReplaceAllString_first s pre m cs rest repl :
  occursFirst Occ s pre m cs rest -> m <> [] ->
  ReplaceAllString r s repl = pre ++ repl ++ ReplaceAllString r rest repl.
Proof.
  intros H Hne. rewrite ReplaceAllString_unfold, (search_occursFirst _ _ _ _ _ H).
  cbn [f_before f_matched f_after]. destruct m; [contradiction | reflexivity].
Qed.

End Occurrences.

(** ** Decimal numbers *)

Lemma isDigit_digitVal c : isDigit c = true -> 0 <= digitVal c <= 9.
Proof.
  unfold isDigit, digitVal. intros H.
  apply andb_true_iff in H as [H1 H2].
  apply Nat.leb_le in H1, H2. lia.
Qed.

Lemma decimal_acc (ds : gostring) (acc : Z) :
  forallb isDigit ds = true -> 0 <= acc ->
  0 <= fold_left (fun a c => 10 * a + digitVal c) ds acc.
Proof.
  revert acc. induction ds as [|d ds IH]; intros acc Hd Hacc; simpl in *.
  - exact Hacc.
  - apply andb_true_iff in Hd as [Hd Hds].
    apply IH; [exact Hds|]. pose proof (isDigit_digitVal _ Hd). lia.
Qed.

Lemma decimal_nonneg (ds : gostring) :
  forallb isDigit ds = true -> 0 <= decimal ds.
Proof. intros H. now apply decimal_acc. Qed.

(** [Atoi] on a non-empty string of digits: its value, unless the value
    does not fit an [int]. *)
Lemma Atoi_digits (ds : gostring) :
  forallb isDigit ds = true -> ds <> [] ->
  Atoi ds = if decimal ds <=? maxInt then inr (decimal ds) else inl ErrRange.
Proof.
  intros Hd Hne. unfold Atoi.
  destruct ds as [|d ds]; [contradiction|].
  assert (Hplus : Ascii.eqb d "+" = false).
  { destruct (Ascii.eqb d "+") eqn:E; [|reflexivity].
    apply Ascii.eqb_eq in E. subst d. discriminate. }
  assert (Hminus : Ascii.eqb d "-" = false).
  { destruct (Ascii.eqb d "-") eqn:E; [|reflexivity].
    apply Ascii.eqb_eq in E. subst d. discriminate. }
  rewrite Hplus, Hminus, Hd.
  replace (eqs (d :: ds) []) with false by (symmetry; now apply eqs_false).
  cbn [negb andb].
  pose proof (decimal_nonneg _ Hd) as Hpos.
  replace (minInt <=? decimal (d :: ds)) with true; [reflexivity|].
  symmetry. apply Z.leb_le. unfold minInt, intSize. lia.
Qed.

(** ** The pull-request marker *)

Lemma match_at_prExp_eq (t : gostring) :
  match_at prExp t
  = if HasPrefix t (str "(#") then
      match drop 2 t with
      | d :: u =>
          if isDigit d then
            if HasPrefix (dropRun isDigit (d :: u)) (str ")")
            then Some (drop 1 (dropRun isDigit (d :: u)),
                       [(1%nat, takeRun isDigit (d :: u))])
            else None
          else None
      | [] => None
      end
    else None.
Proof.
  unfold match_at, prExp. cbn [Seq].
  rewrite run_Cat, run_Lit. destruct (HasPrefix t (str "(#")); [|reflexivity].
  change (length (str "(#")) with 2%nat.
  rewrite run_Cat, run_Group_Plus_greedy.
  - destruct (drop 2 t) as [|d u]; [reflexivity|].
    change (cmatch CDigit) with isDigit.
    destruct (isDigit d); [|reflexivity].
    now rewrite run_Lit.
  - intros c s' cs' Hc. rewrite run_Lit.
    change (str ")") with [")"%char]. cbn [HasPrefix].
    destruct (Ascii.eqb ")" c) eqn:E; [|reflexivity].
    apply Ascii.eqb_eq in E. subst c. discriminate.
Qed.

Lemma match_at_prExp_marker (ds rest : gostring) :
  allDigits ds ->
  match_at prExp (str "(#" ++ ds ++ str ")" ++ rest) = Some (rest, [(1%nat, ds)]).
Proof.
  intros [Hd Hne]. rewrite match_at_prExp_eq, HasPrefix_app.
  change (drop 2 (str "(#" ++ ds ++ str ")" ++ rest)) with (ds ++ str ")" ++ rest).
  destruct (run_app isDigit ds (str ")" ++ rest) Hd eq_refl) as [Ht Hdr].
  destruct ds as [|d ds]; [contradiction|].
  cbn [app] in *. pose proof Hd as Hd'. cbn [forallb] in Hd'.
  apply andb_true_iff in Hd' as [Hd1 _]. rewrite Hd1, Ht, Hdr.
  now rewrite (HasPrefix_app (str ")") rest).
Qed.

Lemma match_at_prExp_inv (t rest : gostring) cs :
  match_at prExp t = Some (rest, cs) ->
  exists ds, allDigits ds /\ t = str "(#" ++ ds ++ str ")" ++ rest
             /\ cs = [(1%nat, ds)].
Proof.
  rewrite match_at_prExp_eq.
  destruct (HasPrefix t (str "(#")) eqn:Hp; [|discriminate].
  apply HasPrefix_inv in Hp. change (length (str "(#")) with 2%nat in Hp.
  destruct (drop 2 t) as [|d u] eqn:Hu; [discriminate|].
  destruct (isDigit d) eqn:Hd; [|discriminate].
  destruct (HasPrefix (dropRun isDigit (d :: u)) (str ")")) eqn:Hc; [|discriminate].
  apply HasPrefix_inv in Hc. change (length (str ")")) with 1%nat in Hc.
  intros [= <- <-]. exists (takeRun isDigit (d :: u)).
  split; [split|split].
  - apply takeRun_forallb.
  - cbn [takeRun]. now rewrite Hd.
  - rewrite Hp. f_equal.
    rewrite <- (takeRun_dropRun isDigit (d :: u)) at 1.
    f_equal. exact Hc.
  - reflexivity.
Qed.

Lemma search_prExp_None (s : gostring) :
  search prExp s = None <-> ~ hasMarker s.
Proof.
  rewrite search_None. split.
  - intros H (pre & ds & post & -> & Hds).
    pose proof (match_at_prExp_marker ds post Hds) as Hm.
    rewrite (H pre _ eq_refl) in Hm. discriminate.
  - intros H pre t ->.
    destruct (match_at prExp t) as [[rest cs]|] eqn:E; [|reflexivity].
    apply match_at_prExp_inv in E as (ds & Hds & -> & _).
    exfalso. apply H. exists pre, ds, rest. now split.
Qed.

Lemma search_prExp_first (s pre ds post : gostring) :
  firstMarker s pre ds post ->
  search prExp s
  = Some {| f_before := pre; f_matched := str "(#" ++ ds ++ str ")";
            f_caps := [(1%nat, ds)]; f_after := post |}.
Proof.
  intros [[-> Hds] Hfirst].
  replace (pre ++ str "(#" ++ ds ++ str ")" ++ post)
    with (pre ++ (str "(#" ++ ds ++ str ")") ++ post) in *
    by now rewrite <- !app_assoc.
  apply search_intro.
  - rewrite <- !app_assoc. now apply match_at_prExp_marker.
  - intros p1 p2 -> Hne.
    destruct (match_at prExp (p2 ++ (str "(#" ++ ds ++ str ")") ++ post))
      as [[rest cs]|] eqn:E; [|reflexivity].
    apply match_at_prExp_inv in E as (ds' & Hds' & E & _).
    exfalso.
    assert (Hm : markerAt ((p1 ++ p2) ++ (str "(#" ++ ds ++ str ")") ++ post)
                   p1 ds' rest).
    { split; [|exact Hds']. rewrite <- app_assoc. now rewrite E. }
    apply Hfirst in Hm. rewrite length_app in Hm.
    destruct p2; [contradiction | simpl in Hm; lia].
Qed.

(** The match that [search] returns for the marker pattern is the first
    marker of the string. *)
Lemma firstMarker_of_search (s : gostring) f :
  search prExp s = Some f ->
  firstMarker s (f_before f) (capLookup 1 (f_caps f)) (f_after f).
Proof.
  intros H. apply search_Some in H as (Hs & Hm & Hleft).
  pose proof Hm as Hm'.
  apply match_at_prExp_inv in Hm' as (ds & Hds & Hmt & Hcs).
  rewrite Hcs. cbn [capLookup Nat.eqb].
  split.
  - split; [|exact Hds]. now rewrite Hs, Hmt.
  - intros pre' ds' post' [Hs' Hds'].
    destruct (Nat.le_gt_cases (length (f_before f)) (length pre')) as [Hle|Hlt];
      [exact Hle|].
    exfalso. rewrite Hs in Hs'. symmetry in Hs'.
    destruct (app_eq_shorter _ _ _ _ Hs' Hlt) as (p & Hne & Hb & Hrest).
    pose proof (match_at_prExp_marker ds' post' Hds') as Hmk.
    rewrite Hrest in Hmk. rewrite (Hleft pre' p Hb Hne) in Hmk. discriminate.
Qed.

Lemma firstMarker_fun (s pre ds post pre' ds' post' : gostring) :
  firstMarker s pre ds post -> firstMarker s pre' ds' post' ->
  pre = pre' /\ ds = ds' /\ post = post'.
Proof.
  intros H H'. apply search_prExp_first in H, H'.
  rewrite H in H'. now injection H' as -> Hm -> ->.
Qed.

Lemma SubexpNames_prExp : SubexpNames prExp = [[]; str "number"].
Proof. reflexivity. Qed.

Lemma namedGroups_prExp (m ds : gostring) :
  mapGet (namedGroups prExp [m; ds]) (str "number") = ds.
Proof.
  unfold namedGroups. rewrite SubexpNames_prExp.
  cbn [imap fold_left Nat.eqb negb andb compose].
  replace (eqs (str "number") []) with false by reflexivity.
  cbn [negb nth]. unfold mapGet. now rewrite lookup_insert_eq.
Qed.

(** [PRFromCommit], read off the leftmost match of the marker pattern. *)
Lemma PRFromCommit_search client commit opts :
  PRFromCommit client commit opts
  = match search prExp (Message commit) with
    | None => Err NoMatchPR
    | Some f =>
        let ds := capLookup 1 (f_caps f) in
        match Atoi ds with
        | inl e => Err (AtoiError e ds)
        | inr number =>
            let c := configFromOpts opts in
            remote (PullRequests_Get client (ctx c) (org c) (repo c) number)
        end
    end.
Proof.
  unfold PRFromCommit, FindStringSubmatch.
  destruct (search prExp (Message commit)) as [f|]; [|reflexivity].
  change (submatches prExp f) with [f_matched f; capLookup 1 (f_caps f)].
  cbn [length Nat.eqb]. now rewrite namedGroups_prExp.
Qed.

Lemma ReplaceAllString_prExp_none (s : gostring) :
  ~ hasMarker s -> ReplaceAllString prExp s [] = s.
Proof.
  intros H. apply search_prExp_None in H.
  now rewrite ReplaceAllString_unfold, H.
Qed.

Lemma ReplaceAllString_prExp_first (s pre ds post : gostring) :
  firstMarker s pre ds post ->
  ReplaceAllString prExp s [] = pre ++ ReplaceAllString prExp post [].
Proof.
  intros H. rewrite ReplaceAllString_unfold, (search_prExp_first _ _ _ _ H).
  reflexivity.
Qed.

(** ** Issue references *)

(** Every match of the issue pattern captures a non-empty string of digits
    as its second group. *)
Lemma match_at_issueExp_inv (t rest : gostring) cs :
  match_at issueExp t = Some (rest, cs) ->
  allDigits (capLookup 2 cs).
Proof.
  unfold match_at, issueExp. cbn [Seq]. rewrite run_Cat. intros H.
  apply run_inv in H as (m1 & s1 & cs1 & _ & H). rewrite run_Cat in H.
  apply run_inv in H as (m2 & s2 & cs2 & _ & H). rewrite run_Cat in H.
  apply run_inv in H as (m3 & s3 & cs3 & _ & H).
  apply run_Group_Plus_inv in H as (ds & s' & _ & Hne & Hd & [= _ <-]).
  cbn [capLookup Nat.eqb]. now split.
Qed.

Lemma SubexpNames_issueExp : SubexpNames issueExp = [[]; []; str "number"].
Proof. reflexivity. Qed.

(** [IssueNumbersFromCommit], read off the leftmost match of the issue
    pattern. *)
Lemma IssueNumbersFromCommit_search (commit : RepositoryCommit) :
  IssueNumbersFromCommit commit
  = match search issueExp (Message commit) with
    | None => Err NoMatchIssue
    | Some f =>
        let ds := capLookup 2 (f_caps f) in
        match Atoi ds with
        | inl e => Err (AtoiError e ds)
        | inr number => Ok [number]
        end
    end.
Proof.
  unfold IssueNumbersFromCommit, FindAllStringSubmatch. cbn [findAll].
  destruct (search issueExp (Message commit)) as [f|]; [|reflexivity].
  rewrite SubexpNames_issueExp.
  change (submatches issueExp f)
    with [f_matched f; capLookup 1 (f_caps f); capLookup 2 (f_caps f)].
  cbn [imap fold_left Nat.eqb negb andb compose nth].
  replace (eqs [] []) with true by reflexivity.
  replace (eqs (str "number") []) with false by reflexivity.
  cbn [negb andb]. cbv zeta.
  now destruct (Atoi (capLookup 2 (f_caps f))).
Qed.

Lemma FindAllStringSubmatch_first r (s : gostring) :
  FindAllStringSubmatch r s
  = match search r s with
    | None => []
    | Some f =>
        submatches r f ::
          match resume f with
          | Some rest => findAll (length s) r rest
          | None => []
          end
    end.
Proof. reflexivity. Qed.

(** ** The first line *)

Lemma IndexByte_None (s : gostring) c :
  IndexByte s c = None <-> ~ In c s.
Proof.
  induction s as [|x s IH]; simpl; [tauto|].
  destruct (Ascii.eqb x c) eqn:E.
  - apply Ascii.eqb_eq in E. subst. split; [discriminate | tauto].
  - apply Ascii.eqb_neq in E. destruct (IndexByte s c); simpl.
    + split; [discriminate|]. intros H. exfalso.
      assert (Hs : ~ In c s) by tauto.
      apply IH in Hs. discriminate.
    + split; [|reflexivity]. intros _ [H|H]; [congruence|].
      now apply (proj1 IH eq_refl).
Qed.

Lemma IndexByte_app (line rest : gostring) c :
  ~ In c line -> IndexByte (line ++ c :: rest) c = Some (length line).
Proof.
  induction line as [|x line IH]; simpl; intros H.
  - now rewrite Ascii.eqb_refl.
  - destruct (Ascii.eqb x c) eqn:E.
    + apply Ascii.eqb_eq in E. tauto.
    + rewrite IH by tauto. reflexivity.
Qed.

Lemma IndexByte_take (s : gostring) c (n i : nat) :
  IndexByte s c = Some i -> (i < n)%nat -> IndexByte (take n s) c = Some i.
Proof.
  revert n i. induction s as [|x s IH]; intros n i; simpl; [discriminate|].
  destruct n as [|n]; [lia|]. simpl.
  destruct (Ascii.eqb x c); [auto|].
  destruct (IndexByte s c) as [j|] eqn:E; [|discriminate].
  intros [= <-] Hlt. rewrite (IH n j eq_refl) by lia. reflexivity.
Qed.

(** A message whose first line is shorter than the scanner's buffer: the
    scanner returns that line, without the carriage return that may end
    it. *)
Lemma ScanFirstLine_line (line rest : gostring) :
  ~ In LF line -> (length line < MaxScanTokenSize)%nat ->
  ScanFirstLine (line ++ LF :: rest) = dropCR line
  /\ ScanFirstLine line = dropCR line.
Proof.
  intros Hnl Hlen. unfold ScanFirstLine. split.
  - rewrite (IndexByte_take _ _ _ _ (IndexByte_app line rest LF Hnl) Hlen).
    rewrite take_take, Nat.min_l by lia.
    now rewrite take_app_length.
  - rewrite take_ge by lia.
    rewrite (proj2 (IndexByte_None line LF) Hnl).
    now rewrite (proj2 (Nat.ltb_lt _ _) Hlen).
Qed.

(** ** Release-note stanzas *)

Lemma noteExps_stanzas :
  noteExps = map (fun oc => stanzaExp (fst oc) (snd oc)) stanzas.
Proof. reflexivity. Qed.

Lemma stanzas_closerShape o c : In (o, c) stanzas -> closerShape c.
Proof.
  intros [H|[H|[H|[H|[]]]]]; injection H as <- <-.
  - now left.
  - now left.
  - right. right. now exists fence.
  - right. left. now exists fence.
Qed.

Lemma match_at_stanzaExp_eq o c (t : gostring) :
  match_at (stanzaExp o c) t
  = if HasPrefix t o then
      run noteGroup (drop (length o) t) []
        (fun s' cs' =>
           if HasPrefix s' c then Some (drop (length c) s', cs') else None)
    else None.
Proof.
  unfold match_at, stanzaExp. destruct c as [|x c]; cbn [Seq].
  - rewrite run_Cat, run_Lit. destruct (HasPrefix t o); [|reflexivity].
    apply run_ext. reflexivity.
  - rewrite run_Cat, run_Lit. destruct (HasPrefix t o); [|reflexivity].
    rewrite run_Cat. apply run_ext. intros s' cs'. apply run_Lit.
Qed.

Lemma match_at_stanzaExp o c (t rest : gostring) cs :
  closerShape c ->
  match_at (stanzaExp o c) t = Some (rest, cs)
  <-> exists m, t = m ++ rest /\ Stanza o c m cs rest.
Proof.
  intros Hshape. rewrite match_at_stanzaExp_eq. split.
  - destruct (HasPrefix t o) eqn:Hp; [|discriminate].
    apply HasPrefix_inv in Hp. intros H.
    apply run_Group_Plus_Some in H as (ds & s' & Hs & Hne & Hd & Hk & Hmax).
    destruct (HasPrefix s' c) eqn:Hc; [|discriminate].
    apply HasPrefix_inv in Hc. injection Hk as <- <-.
    exists (o ++ ds ++ c). split.
    { rewrite Hp, Hs, Hc at 1. now rewrite <- !app_assoc. }
    exists ds. repeat split; try assumption.
    intros ->. clear Hc. change (drop (length []) s') with s'.
    destruct s' as [|x rest']; [exact I|].
    simpl. destruct (notLF x) eqn:Ex; [|reflexivity]. exfalso.
    specialize (Hmax (ds ++ [x]) rest').
    rewrite Hs, <- app_assoc in Hmax. specialize (Hmax eq_refl).
    rewrite forallb_app, length_app in Hmax. cbn [forallb length] in Hmax.
    fold (notLF x) in Hmax. rewrite Hd, Ex in Hmax.
    specialize (Hmax eq_refl ltac:(lia)). discriminate.
  - intros (m & -> & note & -> & Hne & Hd & Hstop & ->).
    rewrite <- !app_assoc, HasPrefix_app, drop_app_length.
    apply run_Group_Plus_Some. exists note, (c ++ rest).
    split; [reflexivity|]. split; [exact Hne|]. split; [exact Hd|].
    split; [now rewrite HasPrefix_app, drop_app_length|].
    intros ds' s'' Hs' Hd' Hlen.
    destruct (app_eq_shorter _ _ _ _ Hs' Hlen) as (q & Hq & -> & Hrest).
    rewrite forallb_app in Hd'. apply andb_true_iff in Hd' as [_ Hq'].
    destruct q as [|x q]; [contradiction|]. simpl in Hq'.
    apply andb_true_iff in Hq' as [Hx Hq'].
    destruct Hshape as [-> | [[c' ->] | [c' ->]]].
    + simpl in Hrest. specialize (Hstop eq_refl). rewrite Hrest in Hstop.
      cbn [stops] in Hstop. change (notLF x = true) in Hx. congruence.
    + simpl in Hrest. injection Hrest as <- _. discriminate.
    + simpl in Hrest. injection Hrest as <- Hrest.
      destruct q as [|y q]; simpl in Hrest.
      * subst s''. reflexivity.
      * injection Hrest as <- _. simpl in Hq'. discriminate.
Qed.

Lemma hasStanza_search o c (s : gostring) :
  closerShape c -> search (stanzaExp o c) s = None -> ~ hasStanza o c s.
Proof.
  intros Hc H.
  now apply (search_occursIn _ _ (fun t rest cs =>
               match_at_stanzaExp o c t rest cs Hc)).
Qed.

Lemma firstStanza_of_search o c (s : gostring) f :
  closerShape c -> search (stanzaExp o c) s = Some f ->
  firstStanza o c s (f_before f) (capLookup 1 (f_caps f)) (f_after f).
Proof.
  intros Hc H.
  apply (occursFirst_of_search _ _ (fun t rest cs =>
           match_at_stanzaExp o c t rest cs Hc)) in H.
  pose proof H as (_ & (note & Hm & _ & _ & _ & Hcs) & _).
  unfold firstStanza. rewrite Hcs in *. cbn [capLookup Nat.eqb].
  now rewrite <- Hm.
Qed.

(** A stanza whose note does not run to the end of its line still makes
    the variant occur. *)
Lemma hasStanza_weak o c (s pre note rest : gostring) :
  s = pre ++ o ++ note ++ c ++ rest -> note <> [] ->
  forallb notLF note = true -> hasStanza o c s.
Proof.
  intros -> Hne Hd. destruct c as [|x c].
  - exists pre, (o ++ (note ++ takeRun notLF rest) ++ []), [(1%nat, note ++ takeRun notLF rest)],
      (dropRun notLF rest).
    split.
    + rewrite <- !app_assoc. cbn [app]. now rewrite takeRun_dropRun.
    + exists (note ++ takeRun notLF rest). split; [reflexivity|].
      split; [now destruct note|].
      split; [now rewrite forallb_app, Hd, takeRun_forallb|].
      split; [intros _; apply dropRun_stops | reflexivity].
  - exists pre, (o ++ note ++ x :: c), [(1%nat, note)], rest.
    split; [now rewrite <- !app_assoc|].
    exists note. repeat split; try assumption. discriminate.
Qed.

Lemma NumSubexp_Lit w : NumSubexp (Lit w) = 0%nat.
Proof. induction w as [|c w IH]; simpl; [reflexivity | exact IH]. Qed.

Lemma groupNames_Lit w : groupNames (Lit w) = [].
Proof. induction w as [|c w IH]; simpl; [reflexivity | exact IH]. Qed.

Lemma NumSubexp_stanzaExp o c : NumSubexp (stanzaExp o c) = 1%nat.
Proof.
  unfold stanzaExp. destruct c; cbn [Seq NumSubexp noteGroup Plus];
    rewrite !NumSubexp_Lit; reflexivity.
Qed.

Lemma SubexpNames_stanzaExp o c : SubexpNames (stanzaExp o c) = [[]; str "note"].
Proof.
  unfold SubexpNames. rewrite NumSubexp_stanzaExp.
  unfold stanzaExp. destruct c; cbn [Seq groupNames noteGroup Plus];
    rewrite !groupNames_Lit; reflexivity.
Qed.

(** One round of the loop of [NoteTextFromString]. *)
Lemma noteTextLoop_cons o c exps (s : gostring) :
  noteTextLoop (stanzaExp o c :: exps) s
  = match search (stanzaExp o c) s with
    | None => noteTextLoop exps s
    | Some f => Ok (cleanNote (capLookup 1 (f_caps f)))
    end.
Proof.
  cbn [noteTextLoop]. unfold FindStringSubmatch.
  destruct (search (stanzaExp o c) s) as [f|]; [|reflexivity].
  unfold submatches. rewrite NumSubexp_stanzaExp.
  cbn [seq map length Nat.eqb].
  unfold namedGroups. rewrite SubexpNames_stanzaExp.
  cbn [imap fold_left Nat.eqb negb andb compose].
  replace (eqs (str "note") []) with false by reflexivity.
  cbn [negb nth]. unfold mapGet. now rewrite lookup_insert_eq.
Qed.

Lemma noteTextLoop_stanzas (l : list (gostring * gostring)) (s : gostring) :
  (forall o c, In (o, c) l -> closerShape c) ->
  (noteTextLoop (map (fun oc => stanzaExp (fst oc) (snd oc)) l) s
   = Err NoMatchNote
   <-> forall o c, In (o, c) l -> ~ hasStanza o c s)
  /\ (forall before o c after pre note rest,
        l = before ++ (o, c) :: after ->
        (forall o' c', In (o', c') before -> ~ hasStanza o' c' s) ->
        firstStanza o c s pre note rest ->
        noteTextLoop (map (fun oc => stanzaExp (fst oc) (snd oc)) l) s
        = Ok (cleanNote note)).
Proof.
  induction l as [|[o0 c0] l IH]; intros Hshape.
  - split.
    + split; [intros _ o c [] | reflexivity].
    + intros before o c after pre note rest Hl. now destruct before.
  - assert (Hs0 : closerShape c0) by (apply (Hshape o0); now left).
    assert (Hsl : forall o c, In (o, c) l -> closerShape c)
      by (intros o c Hin; apply (Hshape o); now right).
    destruct (IH Hsl) as [IHerr IHok].
    cbn [map fst snd]. rewrite noteTextLoop_cons.
    pose proof (search_occursIn _ _ (fun t rest cs =>
                  match_at_stanzaExp o0 c0 t rest cs Hs0) s) as Hnone.
    split.
    + destruct (search (stanzaExp o0 c0) s) as [f|] eqn:E.
      * split; [discriminate|]. intros H. exfalso.
        apply (H o0 c0); [now left|].
        apply (occursFirst_of_search _ _ (fun t rest cs =>
                 match_at_stanzaExp o0 c0 t rest cs Hs0)) in E
          as (Hs & Hocc & _).
        exists (f_before f), (f_matched f), (f_caps f), (f_after f). auto.
      * rewrite IHerr. split.
        -- intros H o c [[= <- <-]|Hin]; [now apply Hnone | now apply H].
        -- intros H o c Hin. apply H. now right.
    + intros before o c after pre note rest Hl Hbefore Hfirst.
      destruct before as [|[o1 c1] before]; simpl in Hl.
      * injection Hl as <- <- _.
        now rewrite (search_occursFirst _ _ (fun t rest cs =>
                       match_at_stanzaExp o0 c0 t rest cs Hs0) _ _ _ _ _ Hfirst).
      * injection Hl as <- <- Hl.
        rewrite (proj2 Hnone) by (apply Hbefore; now left).
        apply (IHok before o c after pre note rest Hl); [|exact Hfirst].
        intros o' c' Hin. apply Hbefore. now right.
Qed.

(** ** Markers inside a note *)

Lemma FoldChar_plain c : isSK c = false -> FoldChar c = Cls (foldClass c).
Proof.
  unfold isSK, FoldChar, foldClass. intros H.
  apply orb_false_iff in H as [-> ->].
  now destruct (isUpper c || isLower c).
Qed.

Lemma run_ILit {A : Type} (w s : gostring) cs (k : gostring -> caps -> option A) :
  forallb (fun c => negb (isSK c)) w = true ->
  run (ILit w) s cs k = if foldPrefix w s then k (drop (length w) s) cs else None.
Proof.
  revert s. induction w as [|c w IH]; intros s Hw; [reflexivity|].
  cbn [forallb] in Hw. apply andb_true_iff in Hw as [Hc Hw].
  apply negb_true_iff in Hc.
  cbn [ILit]. rewrite run_Cat, (FoldChar_plain c Hc).
  destruct s as [|x s]; [reflexivity|].
  cbn [run foldPrefix]. unfold sameFold.
  destruct (cmatch (foldClass c) x); [apply IH, Hw | reflexivity].
Qed.

Lemma foldPrefix_take (w s : gostring) :
  foldPrefix w s = true ->
  foldPrefix w (take (length w) s) = true
  /\ length (take (length w) s) = length w.
Proof.
  revert s. induction w as [|c w IH]; intros s H; [now rewrite take_0|].
  destruct s as [|x s]; [discriminate|]. cbn [foldPrefix] in H.
  apply andb_true_iff in H as [Hx H]. destruct (IH s H) as [H1 H2].
  cbn [length take foldPrefix]. rewrite Hx, H1, H2. auto.
Qed.

Lemma foldPrefix_app (w m z : gostring) :
  foldPrefix w m = true -> foldPrefix w (m ++ z) = true.
Proof.
  revert m. induction w as [|c w IH]; intros m H; [reflexivity|].
  destruct m as [|x m]; [discriminate|]. cbn [foldPrefix app] in *.
  apply andb_true_iff in H as [Hx H]. now rewrite Hx, IH.
Qed.

Lemma match_at_wordExp (w t rest : gostring) cs :
  forallb (fun c => negb (isSK c)) w = true ->
  match_at (wordExp w) t = Some (rest, cs)
  <-> exists m, t = m ++ rest /\ Word w m cs rest.
Proof.
  intros Hw. unfold match_at, wordExp. cbn [Seq].
  rewrite run_Cat, (run_ILit _ _ _ _ Hw). split.
  - destruct (foldPrefix w t) eqn:Hp; [|discriminate].
    destruct (foldPrefix_take _ _ Hp) as [Hp' Hlen].
    cbn [run]. destruct (drop (length w) t) as [|c s'] eqn:Hd; [discriminate|].
    change (cmatch CSpace c) with (isReSpace c).
    destruct (isReSpace c) eqn:Hc; [|discriminate].
    intros [= <- <-]. exists (take (length w) t ++ [c]). split.
    + rewrite <- app_assoc. cbn [app]. rewrite <- Hd. now rewrite take_drop.
    + exists (take (length w) t), c. auto.
  - intros (m & -> & m0 & c & -> & Hlen & Hp & Hc & ->).
    rewrite <- app_assoc. cbn [app]. rewrite (foldPrefix_app _ _ _ Hp).
    rewrite <- Hlen, drop_app_length. cbn [run].
    change (cmatch CSpace c) with (isReSpace c). now rewrite Hc.
Qed.

Lemma markerWords_plain w :
  In w markerWords -> forallb (fun c => negb (isSK c)) w = true.
Proof. intros [<-|[<-|[<-|[]]]]; reflexivity. Qed.

Lemma Word_nonempty w m cs rest : Word w m cs rest -> m <> [].
Proof. intros (m0 & c & -> & _) H. now destruct m0. Qed.

Lemma TrimLeftBytes_repeat (c : ascii) (n : nat) (z : gostring) :
  TrimLeftBytes (repeat c n ++ z) [c] = TrimLeftBytes z [c].
Proof.
  induction n as [|n IH]; [reflexivity|].
  cbn [repeat app TrimLeftBytes existsb]. now rewrite Ascii.eqb_refl, IH.
Qed.

(** [TrimRight _ "\r"] removes every carriage return that ends the
    string. *)
Lemma TrimRight_CR (x : gostring) (n : nat) :
  (forall y, x <> y ++ [CR]) -> TrimRight (x ++ repeat CR n) [CR] = x.
Proof.
  intros Hx. unfold TrimRight.
  rewrite rev_app_distr, rev_repeat, TrimLeftBytes_repeat.
  destruct (rev x) as [|c z] eqn:E.
  - apply (f_equal (@rev ascii)) in E. rewrite rev_involutive in E. now subst.
  - cbn [TrimLeftBytes existsb]. destruct (Ascii.eqb c CR) eqn:Ec.
    + apply Ascii.eqb_eq in Ec. subst c. exfalso. apply (Hx (rev z)).
      apply (f_equal (@rev ascii)) in E. rewrite rev_involutive in E.
      exact E.
    + cbn [orb]. rewrite <- E. apply rev_involutive.
Qed.

(** ** The assembler *)

Lemma IssueResolved_fun client commit opts i1 i2 :
  IssueResolved client commit opts i1 ->
  IssueResolved client commit opts i2 -> i1 = i2.
Proof.
  destruct i1 as [a|], i2 as [c|]; simpl.
  - intros (f1 & r1 & H1 & G1) (f2 & r2 & H2 & G2).
    rewrite H1 in H2. injection H2 as -> _. congruence.
  - intros (f1 & r1 & H1 & _) [H2 | [e H2]]; congruence.
  - intros [H1 | [e H1]] (f2 & r2 & H2 & _); congruence.
  - reflexivity.
Qed.

Section AssemblerFacts.

Variable prettifySigList : list gostring -> gostring.

(** What a successful [ReleaseNoteFromCommit] has done: the pull request
    and the issue it looked up, and the fields that are computed from them. *)
Lemma ReleaseNoteFromCommit_Ok commit client opts note :
  ReleaseNoteFromCommit prettifySigList commit client opts = Ok note ->
  exists pr issue,
    PRFromCommit client commit opts = Ok pr
    /\ IssueResolved client commit opts issue
    /\ Commit note = SHA commit
    /\ Text note
       = TrimSpace (ReplaceAllString prExp (ScanFirstLine (Message commit)) [])
    /\ ActionRequired note = IsActionRequired pr
    /\ SIGs note = StringsWithPrefix (GetPRLabels pr) (str "sig/")
    /\ Feature note
       = (if HasString (StringsWithPrefix (GetPRLabels pr) (str "kind/"))
               (str "feature")
          then true
          else match issue with
               | Some i => negb (HasString (GetIssueLabels i) (str "bug"))
               | None => false
               end)
    /\ Duplicate note
       = (if IsActionRequired pr || Feature note then false
          else (1 <? length (SIGs note))%nat).
Proof.
  unfold ReleaseNoteFromCommit.
  destruct (PRFromCommit client commit opts) as [pr|e]; [|discriminate].
  intros H. exists pr.
  assert (Hissue : exists issue,
    IssueResolved client commit opts issue
    /\ match IssueNumbersFromCommit commit with
       | Ok (first :: _) =>
           match GetIssue client first opts with
           | Ok issue => Ok (Some issue)
           | Err err =>
               Err (Wrapf (str "error prasing release note from commit "
                             ++ SHA commit) err)
           end
       | Ok [] => Ok None
       | Err _ => Ok None
       end = Ok issue).
  { destruct (IssueNumbersFromCommit commit) as [[|first rest]|e] eqn:EI.
    - exists None. split; [now left | reflexivity].
    - destruct (GetIssue client first opts) as [i|e] eqn:EG.
      + exists (Some i). split; [|reflexivity]. simpl. eauto.
      + discriminate.
    - exists None. split; [right; eauto | reflexivity]. }
  destruct Hissue as (issue & Hres & Heq).
  rewrite Heq in H. exists issue.
  split; [reflexivity|]. split; [exact Hres|].
  set (feat := if HasString (StringsWithPrefix (GetPRLabels pr) (str "kind/"))
                    (str "feature")
               then true
               else match issue with
                    | Some i => negb (HasString (GetIssueLabels i) (str "bug"))
                    | None => false
                    end) in *.
  destruct (IsActionRequired pr || feat) eqn:Eaf.
  - injection H as <-.
    cbn [Commit Text ActionRequired SIGs Feature Duplicate].
    rewrite Eaf. repeat split; reflexivity.
  - destruct (1 <? length (StringsWithPrefix (GetPRLabels pr) (str "sig/")))%nat eqn:El;
      injection H as <-;
      cbn [Commit Text ActionRequired SIGs Feature Duplicate];
      rewrite Eaf; repeat split; try reflexivity; symmetry; exact El.
Qed.

End AssemblerFacts.

(** ** The walk and the filter of commits *)

Section FilterFacts.

Variable client : Client.
Variable opts : list githubApiOption.




Lemma inclusion_acc (body : gostring) (c : RepositoryCommit) filters acc :
  fold_left
    (fun filteredCommits filter =>
       if MatchString filter body
       then filteredCommits ++ [c] else filteredCommits)
    filters acc
  = acc ++ repeat c (length (List.filter (fun filter => MatchString filter body)
                               filters)).
Proof.
  revert acc. induction filters as [|f filters IH]; intros acc; simpl.
  - now rewrite app_nil_r.
  - rewrite IH. destruct (MatchString f body); simpl; [|reflexivity].
    now rewrite <- app_assoc.
Qed.

Lemma filterCommit_copies acc c :
  filterCommit client opts acc c = acc ++ repeat c (copies client opts c).
Proof.
  unfold filterCommit, copies, testedBody.
  destruct (PRFromCommit client c opts) as [pr|e].
  - fold (excludedBody (Body pr)).
    destruct (excludedBody (Body pr)); [now rewrite app_nil_r|].
    apply inclusion_acc.
  - destruct (isNoMatchPR e); [now rewrite app_nil_r|].
    fold (excludedBody []).
    destruct (excludedBody []); [now rewrite app_nil_r|].
    apply inclusion_acc.
Qed.

Lemma filterCommit_fold commits acc :
  fold_left (filterCommit client opts) commits acc
  = acc ++ flat_map (fun c => repeat c (copies client opts c)) commits.
Proof.
  revert acc. induction commits as [|c commits IH]; intros acc; simpl.
  - now rewrite app_nil_r.
  - now rewrite IH, filterCommit_copies, <- app_assoc.
Qed.

(** The part of C1 that holds: a commit is dropped when it carries no
    marker or when the body of its pull request matches an exclusion
    pattern; every other commit is kept, between one and three times in a
    row, and the commits stay in the order of the range. *)
Lemma ListCommitsWithNotes_copies start end_ commits :
  ListCommits client start end_ opts = Ok commits ->
  ListCommitsWithNotes client start end_ opts
  = Ok (flat_map (fun c => repeat c (copies client opts c)) commits)
  /\ forall c,
       (testedBody client opts c = None -> copies client opts c = 0%nat)
       /\ (forall body, testedBody client opts c = Some body ->
             (excludedBody body = true -> copies client opts c = 0%nat)
             /\ (excludedBody body = false -> (1 <= copies client opts c <= 3)%nat)).
Proof.
  intros H. unfold ListCommitsWithNotes. rewrite H, filterCommit_fold.
  split; [reflexivity|]. intros c. unfold copies. split.
  - now intros ->.
  - intros body ->. split; intros ->; [reflexivity|].
    unfold inclusionFilters. cbn [List.filter]. rewrite MatchString_any.
    repeat match goal with |- context [if ?b then _ else _] => destruct b end;
      cbn [length]; lia.
Qed.

(** A body that is not excluded and holds the text [release-note] makes
    the loop append its commit twice at least. *)
Lemma copies_release_note c pr :
  PRFromCommit client c opts = Ok pr ->
  excludedBody (Body pr) = false ->
  MatchString (Lit (str "release-note")) (Body pr) = true ->
  (2 <= copies client opts c)%nat.
Proof.
  intros Hpr Hex Hrn. unfold copies, testedBody. rewrite Hpr, Hex.
  unfold inclusionFilters. cbn [List.filter].
  rewrite MatchString_any, Hrn.
  match goal with |- context [if ?b then _ else _] => destruct b end;
    cbn [length]; lia.
Qed.

(** A body that is empty, which is the body tested when the lookup of the
    pull request fails, matches no exclusion pattern and the first inclusion
    pattern only. *)
Lemma excludedBody_nil : excludedBody [] = false.
Proof. vm_compute. reflexivity. Qed.

Lemma inclusion_nil :
  List.filter (fun filter => MatchString filter []) inclusionFilters = [Star CDot].
Proof. vm_compute. reflexivity. Qed.

Lemma copies_unresolved c e :
  PRFromCommit client c opts = Err e -> e <> NoMatchPR ->
  copies client opts c = 1%nat.
Proof.
  intros H Hne. unfold copies, testedBody. rewrite H.
  destruct e; try congruence; cbn [isNoMatchPR];
    rewrite excludedBody_nil, inclusion_nil; reflexivity.
Qed.

Lemma filterCommit_app (l1 l2 : list RepositoryCommit) :
  fold_left (filterCommit client opts) (l1 ++ l2) []
  = fold_left (filterCommit client opts) l1 []
    ++ fold_left (filterCommit client opts) l2 [].
Proof. rewrite !filterCommit_fold. cbn [app]. apply flat_map_app. Qed.

(** What one commit of the range adds to the result. *)
Lemma ListCommitsWithNotes_split start end_ pre c post :
  ListCommits client start end_ opts = Ok (pre ++ c :: post) ->
  ListCommitsWithNotes client start end_ opts
  = Ok (fold_left (filterCommit client opts) pre []
          ++ repeat c (copies client opts c)
          ++ fold_left (filterCommit client opts) post []).
Proof.
  intros H. unfold ListCommitsWithNotes. rewrite H.
  change (fold_left (filterCommit client opts) (pre ++ c :: post) [])
    with (fold_left (filterCommit client opts) (pre ++ [c] ++ post) []).
  rewrite !filterCommit_app. cbn [fold_left].
  rewrite filterCommit_copies. reflexivity.
Qed.

End FilterFacts.

(** ** The list of notes *)

Lemma firstByText_incl (ns : list ReleaseNote) (n : ReleaseNote) :
  In n (firstByText ns) -> In n ns.
Proof.
  revert n. induction ns as [|m ns IH]; intros n; simpl; [tauto|].
  intros [->|H]; [now left|].
  apply filter_In in H as [H _]. right. now apply IH.
Qed.

Lemma firstByText_NoDup (ns : list ReleaseNote) :
  List.NoDup (map Text (firstByText ns)).
Proof.
  induction ns as [|n ns IH]; simpl; [constructor|].
  constructor.
  - rewrite in_map_iff. intros (m & Hm & Hin).
    apply filter_In in Hin as [_ Hne].
    apply negb_true_iff, eqs_false in Hne. congruence.
  - clear -IH. induction (firstByText ns) as [|m l IHl]; simpl; [constructor|].
    inversion IH as [|? ? Hnotin Hnd]; subst.
    destruct (negb (eqs (Text m) (Text n))); simpl; [|now apply IHl].
    constructor; [|now apply IHl].
    rewrite in_map_iff. intros (x & Hx & Hin).
    apply filter_In in Hin as [Hin _].
    apply Hnotin. rewrite in_map_iff. eauto.
Qed.

(** Every text of the input is represented in the result. *)
Lemma firstByText_covers (ns : list ReleaseNote) (n : ReleaseNote) :
  In n ns -> exists m, In m (firstByText ns) /\ Text m = Text n.
Proof.
  induction ns as [|x ns IH]; simpl; [tauto|].
  intros [->|Hin]; [eauto|].
  destruct (IH Hin) as (m & Hm & Ht).
  destruct (eqs (Text m) (Text x)) eqn:E.
  - apply eqs_true in E. exists x. split; [now left | congruence].
  - exists m. split; [|exact Ht]. right.
    apply filter_In. split; [exact Hm | now rewrite E].
Qed.

(** The result keeps the order of the input. *)
Lemma firstByText_sublist (ns : list ReleaseNote) : sublist (firstByText ns) ns.
Proof.
  induction ns as [|n ns IH]; simpl; [constructor|].
  constructor. etransitivity; [apply filter_sublist | exact IH].
Qed.

(** The representative of a text is its first occurrence: a note is kept
    exactly when no note before it has its text. *)
Lemma firstByText_app_notin (pre post : list ReleaseNote) (n : ReleaseNote) :
  ~ In (Text n) (map Text pre) ->
  In n (firstByText (pre ++ n :: post)).
Proof.
  induction pre as [|x pre IH]; simpl; intros Hnot; [now left|].
  right. apply filter_In. split.
  - apply IH. tauto.
  - apply negb_true_iff, eqs_false. intros E. apply Hnot. now left.
Qed.

Section ListerFacts.

Variable prettifySigList : list gostring -> gostring.
Variable client : Client.
Variable opts : list githubApiOption.

Local Abbreviation LRN := (ListReleaseNotes prettifySigList client).

Lemma runLoop_spec (commits : list RepositoryCommit) (st : listState) :
  notes (runLoop prettifySigList client opts commits st)
  = notes st ++ List.filter (fresh (dedupeCache st)) (firstByText (candidates prettifySigList client opts commits))
  /\ logged (runLoop prettifySigList client opts commits st) = logged st ++ omap (failure prettifySigList client opts) commits.
Proof.
  revert st. induction commits as [|c commits IH]; intros st.
  - simpl. now rewrite !app_nil_r.
  - change (runLoop prettifySigList client opts (c :: commits) st)
      with (runLoop prettifySigList client opts commits (noteStep prettifySigList client opts st c)).
    remember (noteStep prettifySigList client opts st c) as st1 eqn:E1.
    destruct (IH st1) as [IHn IHl]. rewrite IHn, IHl. clear IH IHn IHl.
    unfold noteStep in E1. fold (isBot c) in E1.
    unfold candidates.
    pose proof (eq_refl (assembled prettifySigList client opts c)) as Ha.
    pose proof (eq_refl (failure prettifySigList client opts c)) as Hf.
    unfold assembled at 2 in Ha. unfold failure at 2 in Hf.
    destruct (isBot c).
    { rewrite (omap_cons_None _ _ _ Ha), (omap_cons_None _ _ _ Hf). now subst. }
    destruct (ReleaseNoteFromCommit prettifySigList c client opts) as [n|e].
    + rewrite (omap_cons_Some _ _ _ _ Ha), (omap_cons_None _ _ _ Hf).
      simpl List.filter. fold (isNONE n) in E1.
      destruct (isNONE n); simpl negb; cbv iota; [now subst|].
      fold (candidates prettifySigList client opts commits). simpl firstByText. simpl List.filter.
      unfold fresh at 2.
      destruct (bool_decide (Text n ∈ dedupeCache st)) eqn:Ein; subst st1.
      * apply bool_decide_eq_true in Ein.
        rewrite bool_decide_eq_false_2 by tauto.
        split; [|reflexivity].
        f_equal. rewrite filter_filter_and. apply filter_ext. intros m.
        unfold fresh. destruct (eqs (Text m) (Text n)) eqn:E; simpl.
        -- apply eqs_true in E. rewrite E, andb_false_r.
           apply bool_decide_eq_false. tauto.
        -- now rewrite andb_true_r.
      * apply bool_decide_eq_false in Ein.
        rewrite bool_decide_eq_true_2 by exact Ein.
        cbn [notes logged dedupeCache].
        split; [|reflexivity].
        rewrite <- app_assoc. simpl. do 2 f_equal.
        rewrite filter_filter_and. apply filter_ext. intros m.
        unfold fresh. destruct (eqs (Text m) (Text n)) eqn:E; simpl.
        -- apply eqs_true in E. rewrite andb_false_r.
           apply bool_decide_eq_false. rewrite E, elem_of_union, elem_of_singleton.
           tauto.
        -- apply eqs_false in E. rewrite andb_true_r.
           apply bool_decide_ext. rewrite elem_of_union, elem_of_singleton.
           tauto.
    + rewrite (omap_cons_None _ _ _ Ha), (omap_cons_Some _ _ _ _ Hf).
      subst st1. cbn [notes logged dedupeCache].
      split; [reflexivity|]. now rewrite <- app_assoc.
Qed.

Lemma filter_fresh_empty (ns : list ReleaseNote) :
  List.filter (fresh ∅) ns = ns.
Proof.
  induction ns as [|n ns IH]; simpl; [reflexivity|].
  unfold fresh at 1. rewrite bool_decide_eq_true_2 by apply not_elem_of_empty.
  now rewrite IH.
Qed.

(** [ListReleaseNotes] in one equation. *)
Lemma ListReleaseNotes_eq start end_ :
  ListReleaseNotes prettifySigList client start end_ opts
  = match ListCommitsWithNotes client start end_ opts with
    | Err err => ([], Err err)
    | Ok commits =>
        (omap (failure prettifySigList client opts) commits, Ok (firstByText (candidates prettifySigList client opts commits)))
    end.
Proof.
  unfold ListReleaseNotes.
  destruct (ListCommitsWithNotes client start end_ opts) as [commits|e];
    [|reflexivity].
  fold initState. fold (runLoop prettifySigList client opts commits initState).
  destruct (runLoop_spec commits initState) as [Hn Hl].
  rewrite Hn, Hl. simpl. now rewrite filter_fresh_empty.
Qed.

Lemma candidates_app (l1 l2 : list RepositoryCommit) :
  candidates prettifySigList client opts (l1 ++ l2)
  = candidates prettifySigList client opts l1
    ++ candidates prettifySigList client opts l2.
Proof. unfold candidates. now rewrite omap_app, List.filter_app. Qed.

(** Every note of the list was assembled from a commit of the filtered
    range that the bot did not author. *)
Lemma ListReleaseNotes_provenance start end_ commits log out n :
  ListCommitsWithNotes client start end_ opts = Ok commits ->
  LRN start end_ opts = (log, Ok out) ->
  In n out ->
  exists c,
    In c commits /\ AuthorLogin c <> str "netdatabot"
    /\ ReleaseNoteFromCommit prettifySigList c client opts = Ok n.
Proof.
  intros Hc Hl Hin.
  rewrite ListReleaseNotes_eq, Hc in Hl. injection Hl as _ <-.
  apply firstByText_incl in Hin. unfold candidates in Hin.
  apply filter_In in Hin as [Hin _].
  apply list_elem_of_In, list_elem_of_omap in Hin as (c & Hcin & Ha).
  exists c. split; [now apply list_elem_of_In|].
  unfold assembled, isBot in Ha.
  destruct (eqs (AuthorLogin c) (str "netdatabot")) eqn:Eb; [discriminate|].
  apply eqs_false in Eb. split; [exact Eb|].
  destruct (ReleaseNoteFromCommit prettifySigList c client opts);
    [congruence | discriminate].
Qed.


End ListerFacts.

(** * The claims *)

(** ** C1: the filter of commits *)

(** C1 fails on the repository [ghOne]: the body of the pull request of
    [cDark] matches no exclusion pattern and two inclusion patterns, and
    the commit is returned twice. *)
Theorem ListCommitsWithNotes_repeats_commit :
  existsb (fun filter => MatchString filter (Body (Examples.pull 5678
             (Examples.stanza (str "Dark mode")) [])))
    exclusionFilters = false
  /\ ListCommits Examples.ghOne [] [] [] = Ok [Examples.cDark]
  /\ ListCommitsWithNotes Examples.ghOne [] [] []
     = Ok [Examples.cDark; Examples.cDark].
Proof. repeat split; vm_compute; reflexivity. Qed.

(** ** C2: the pull request of a commit *)

Section PullRequestOfCommit.

Variable client : Client.
Variable opts : list githubApiOption.

(** C2, as the code has it: [PRFromCommit] looks for the marker
    [(#<digits>)] in the whole commit message, not in its first line only.
    Without a marker it fails with the "no matches" error. With one, it
    reads the digits of the first marker: when they fit an [int] it asks the
    API for the pull request of that number, and when they do not it fails
    with the range error of [strconv.Atoi]. *)
Theorem PRFromCommit_first_marker (commit : RepositoryCommit) :
  let c := configFromOpts opts in
  (PRFromCommit client commit opts = Err NoMatchPR
   <-> ~ hasMarker (Message commit))
  /\ (forall pre ds post,
        firstMarker (Message commit) pre ds post ->
        PRFromCommit client commit opts
        = if decimal ds <=? maxInt
          then remote (PullRequests_Get client (ctx c) (org c) (repo c)
                         (decimal ds))
          else Err (AtoiError ErrRange ds))
  /\ (forall pre ds post,
        markerAt (Message commit) pre ds post ->
        (forall pre' ds' post',
           markerAt (Message commit) pre' ds' post' -> pre' = pre) ->
        decimal ds <= maxInt ->
        PRFromCommit client commit opts
        = remote (PullRequests_Get client (ctx c) (org c) (repo c) (decimal ds))).
Proof.
  intros c.
  assert (Hfirst : forall pre ds post,
    firstMarker (Message commit) pre ds post ->
    PRFromCommit client commit opts
    = if decimal ds <=? maxInt
      then remote (PullRequests_Get client (ctx c) (org c) (repo c) (decimal ds))
      else Err (AtoiError ErrRange ds)).
  { intros pre ds post Hf. rewrite PRFromCommit_search.
    rewrite (search_prExp_first _ _ _ _ Hf). cbn [f_caps capLookup Nat.eqb].
    destruct Hf as [[_ [Hd Hne]] _]. cbv zeta.
    rewrite (Atoi_digits _ Hd Hne).
    now destruct (decimal ds <=? maxInt). }
  split; [|split].
  - rewrite <- search_prExp_None, PRFromCommit_search.
    destruct (search prExp (Message commit)) as [f|] eqn:E.
    + split; [|discriminate]. cbv zeta.
      destruct (Atoi (capLookup 1 (f_caps f))); [discriminate|].
      destruct (PullRequests_Get client _ _ _ _); discriminate.
    + tauto.
  - exact Hfirst.
  - intros pre ds post Hm Huniq Hfit.
    rewrite (Hfirst pre ds post).
    + now rewrite (proj2 (Z.leb_le _ _) Hfit).
    + split; [exact Hm|]. intros pre' ds' post' Hm'.
      now rewrite (Huniq _ _ _ Hm').
Qed.

End PullRequestOfCommit.

(** C2 on the commit [cWidget]: the first marker is [(#1234)] and the pull
    request 1234 is looked up. *)
Lemma PRFromCommit_first_marker_witness :
  firstMarker (Message Examples.cWidget) (str "Fix widget rendering ")
    (str "1234") []
  /\ PRFromCommit Examples.gh Examples.cWidget []
     = Ok (Examples.pull 1234 (Examples.stanza (str "NONE")) []).
Proof.
  assert (Hf : firstMarker (Message Examples.cWidget)
                 (str "Fix widget rendering ") (str "1234") []).
  { apply (firstMarker_of_search (Message Examples.cWidget)
             {| f_before := str "Fix widget rendering ";
                f_matched := str "(#1234)";
                f_caps := [(1%nat, str "1234")];
                f_after := [] |}).
    vm_compute. reflexivity. }
  split; [exact Hf|].
  rewrite (proj1 (proj2 (PRFromCommit_first_marker Examples.gh []
                           Examples.cWidget)) _ _ _ Hf).
  vm_compute. reflexivity.
Defined.

(** C2 as stated fails: the first line of [cSecondLine] holds no marker
    and the pull request 12, named on the second line, is looked up; the
    first line of [cHuge] holds one marker and the extraction fails. *)
Lemma PRFromCommit_beyond_first_line :
  ~ hasMarker (ScanFirstLine (Message Examples.cSecondLine))
  /\ PRFromCommit Examples.gh Examples.cSecondLine []
     = Ok (Examples.pull 12 (str "Twelve") [])
  /\ firstMarker (ScanFirstLine (Message Examples.cHuge))
       (str "Bump version ") (str "99999999999999999999") []
  /\ PRFromCommit Examples.gh Examples.cHuge []
     = Err (AtoiError ErrRange (str "99999999999999999999")).
Proof.
  split; [|split; [|split]].
  - apply search_prExp_None. vm_compute. reflexivity.
  - vm_compute. reflexivity.
  - apply (firstMarker_of_search (ScanFirstLine (Message Examples.cHuge))
             {| f_before := str "Bump version ";
                f_matched := str "(#99999999999999999999)";
                f_caps := [(1%nat, str "99999999999999999999")];
                f_after := [] |}).
    vm_compute. reflexivity.
  - vm_compute. reflexivity.
Qed.

(** ** C3: the text of a stanza *)

(** C3, as the code has it: [NoteTextFromString] takes the first of the
    four stanza variants that occurs in the input and, of that variant, the
    first occurrence. It returns the note of that stanza after removing
    every carriage return that ends it, then every [[action required]] and
    every [action required:] in either case that a white-space character
    follows, together with that character, and then every [*] that a
    white-space character follows, together with that character, wherever
    they stand in the note. It fails with the "no matches" error when no
    variant occurs. *)
Theorem NoteTextFromString_first_stanza (s : gostring) :
  (NoteTextFromString s = Err NoMatchNote
   <-> forall o c, In (o, c) stanzas -> ~ hasStanza o c s)
  /\ (forall i o c pre note rest,
        stanzas !! i = Some (o, c) ->
        (forall j o' c', (j < i)%nat -> stanzas !! j = Some (o', c') ->
                         ~ hasStanza o' c' s) ->
        firstStanza o c s pre note rest ->
        NoteTextFromString s
        = Ok (stripStar (stripActionRequired (TrimRight note [CR]))))
  /\ (forall x n,
        (forall y, x <> y ++ [CR]) -> TrimRight (x ++ repeat CR n) [CR] = x)
  /\ (forall x,
        stripActionRequired x
        = removeWord (str "action required:")
            (removeWord (str "[action required]") x)
        /\ stripStar x = removeWord (str "*") x)
  /\ (forall w x,
        In w markerWords ->
        (~ hasWord w x -> removeWord w x = x)
        /\ (forall pre m post,
              firstWord w x pre m post ->
              removeWord w x = pre ++ removeWord w post)).
Proof.
  destruct (noteTextLoop_stanzas stanzas s stanzas_closerShape) as [Herr Hok].
  rewrite <- noteExps_stanzas in Herr, Hok. fold (NoteTextFromString s) in Herr, Hok.
  split; [exact Herr|]. split; [|split; [|split]].
  - intros i o c pre note rest Hi Hbefore Hfirst.
    apply (Hok (take i stanzas) o c (drop (S i) stanzas) pre note rest).
    + symmetry. now apply take_drop_middle.
    + intros o' c' Hin.
      apply list_elem_of_In, list_elem_of_lookup in Hin as (j & Hj).
      pose proof (lookup_lt_Some _ _ _ Hj) as Hlt.
      rewrite length_take in Hlt.
      apply (Hbefore j); [lia|].
      rewrite lookup_take_lt in Hj by lia. exact Hj.
    + exact Hfirst.
  - exact TrimRight_CR.
  - intros x. split; reflexivity.
  - intros w x Hw. pose proof (markerWords_plain w Hw) as Hplain.
    split.
    + intros Hn. unfold removeWord.
      apply (ReplaceAllString_absent _ _
               (fun t rest cs => match_at_wordExp w t rest cs Hplain)).
      exact Hn.
    + intros pre m post Hf. unfold removeWord.
      rewrite (ReplaceAllString_first _ _
                 (fun t rest cs => match_at_wordExp w t rest cs Hplain)
                 x pre m [] post [] Hf); [reflexivity|].
      destruct Hf as (_ & Hocc & _). now apply Word_nonempty in Hocc.
Qed.

(** C3 on a body whose note stands in a bare fence: the first two variants
    do not occur, the third does, and its note is cleaned. *)
Lemma NoteTextFromString_first_stanza_witness :
  NoteTextFromString
    (str "See below." ++ CRLF ++ fence ++ CRLF
       ++ str "* [Action Required] renew the * keys" ++ CRLF ++ fence)
  = Ok (str "renew the keys").
Proof.
  set (s := str "See below." ++ CRLF ++ fence ++ CRLF
              ++ str "* [Action Required] renew the * keys" ++ CRLF ++ fence).
  rewrite (proj1 (proj2 (NoteTextFromString_first_stanza s))
             2%nat (fence ++ CRLF) (CRLF ++ fence)
             (str "See below." ++ CRLF)
             (str "* [Action Required] renew the * keys") []).
  - vm_compute. reflexivity.
  - reflexivity.
  - intros j o' c' Hj Hl.
    destruct j as [|[|j]]; [| |lia]; injection Hl as <- <-;
      (apply hasStanza_search; [now left | vm_compute; reflexivity]).
  - apply (firstStanza_of_search (fence ++ CRLF) (CRLF ++ fence) s
             {| f_before := str "See below." ++ CRLF;
                f_matched := fence ++ CRLF
                  ++ str "* [Action Required] renew the * keys" ++ CRLF ++ fence;
                f_caps := [(1%nat, str "* [Action Required] renew the * keys")];
                f_after := [] |}).
    + right. right. now exists fence.
    + vm_compute. reflexivity.
Defined.

(** C3 as stated fails on a stanza whose note holds a bullet marker that
    does not lead it: the specification keeps the marker, the code removes
    it. *)
Lemma NoteTextFromString_strips_inner_marker :
  firstStanza (fence ++ str "release-note" ++ CRLF) []
    (Examples.stanza (str "fix a * b")) [] (str "fix a * b" ++ [CR])
    ([LF] ++ fence)
  /\ specCleanNote (str "fix a * b" ++ [CR]) = str "fix a * b"
  /\ NoteTextFromString (Examples.stanza (str "fix a * b")) = Ok (str "fix a b").
Proof.
  split; [|split; vm_compute; reflexivity].
  apply (firstStanza_of_search (fence ++ str "release-note" ++ CRLF) []
           (Examples.stanza (str "fix a * b"))
           {| f_before := [];
              f_matched := fence ++ str "release-note" ++ CRLF
                ++ str "fix a * b" ++ [CR];
              f_caps := [(1%nat, str "fix a * b" ++ [CR])];
              f_after := [LF] ++ fence |}).
  - now left.
  - vm_compute. reflexivity.
Qed.

(** ** C4: remote failures *)

Section RemoteFailures.

Variable prettifySigList : list gostring -> gostring.
Variable client : Client.
Variable opts : list githubApiOption.

Local Abbreviation LRN := (ListReleaseNotes prettifySigList client).


End RemoteFailures.



(** ** C5: the text of a note *)

Section NoteText.

Variable prettifySigList : list gostring -> gostring.
Variable client : Client.
Variable opts : list githubApiOption.

(** C5, as the code has it: the text of an assembled note is the first
    line of the commit message from which every marker [(#<digits>)] is
    removed, wherever it stands in the line, and which is then trimmed of
    leading and trailing white space. A line without a marker is only
    trimmed; in a line with one marker, what stands before and after the
    marker is kept. *)
Theorem note_text_from_first_line commit note :
  ReleaseNoteFromCommit prettifySigList commit client opts = Ok note ->
  let line := ScanFirstLine (Message commit) in
  Text note = TrimSpace (ReplaceAllString prExp line [])
  /\ (~ hasMarker line -> Text note = TrimSpace line)
  /\ (forall pre ds post,
        firstMarker line pre ds post ->
        ReplaceAllString prExp line [] = pre ++ ReplaceAllString prExp post []
        /\ (~ hasMarker post -> Text note = TrimSpace (pre ++ post)))
  /\ (forall l rest,
        Message commit = l \/ Message commit = l ++ LF :: rest ->
        ~ In LF l -> (length l < MaxScanTokenSize)%nat ->
        line = dropCR l).
Proof.
  intros H line.
  apply ReleaseNoteFromCommit_Ok in H as (_ & _ & _ & _ & _ & Ht & _).
  fold line in Ht. split; [exact Ht|]. split; [|split].
  - intros Hn. now rewrite Ht, ReplaceAllString_prExp_none.
  - intros pre ds post Hf.
    pose proof (ReplaceAllString_prExp_first _ _ _ _ Hf) as Hr.
    split; [exact Hr|]. intros Hn.
    now rewrite Ht, Hr, (ReplaceAllString_prExp_none post Hn).
  - intros l rest Hm Hnl Hlen. unfold line.
    destruct (ScanFirstLine_line l rest Hnl Hlen) as [H1 H2].
    destruct Hm as [-> | ->]; assumption.
Qed.

End NoteText.

(** C5 on the commit [cDark]: the marker ends the first line, and the text
    is what stands before it, trimmed, as the specification has it. *)
Lemma note_text_from_first_line_witness :
  Text Examples.noteDark = str "Add dark mode toggle"
  /\ specNoteText (Message Examples.cDark) = Text Examples.noteDark.
Proof.
  split; [|vm_compute; reflexivity].
  rewrite (proj1 (note_text_from_first_line Examples.prettySigs Examples.gh []
                    Examples.cDark Examples.noteDark
                    ltac:(vm_compute; reflexivity))).
  vm_compute. reflexivity.
Defined.

(** C5 as stated fails on the commit [cInside]: the marker does not end
    the first line, the specification keeps the line, the code removes the
    marker from inside it. *)
Lemma note_text_loses_inner_marker :
  exists note,
    ReleaseNoteFromCommit Examples.prettySigs Examples.cInside Examples.gh []
    = Ok note
    /\ Text note = str "Fix  the cache"
    /\ specNoteText (Message Examples.cInside) = str "Fix (#12) the cache".
Proof.
  eexists. split; [vm_compute; reflexivity|].
  split; vm_compute; reflexivity.
Qed.

(** ** C6 and C7: the flags of a note *)

Section NoteFlags.

Variable prettifySigList : list gostring -> gostring.

(** C6: the note of a commit is marked [duplicate] exactly when it is
    neither [action_required] nor a [feature] and the pull request carries
    more than one label that starts with [sig/]. *)
Theorem duplicate_classification commit client opts note pr :
  ReleaseNoteFromCommit prettifySigList commit client opts = Ok note ->
  PRFromCommit client commit opts = Ok pr ->
  (Duplicate note = true
   <-> ActionRequired note = false /\ Feature note = false
       /\ (1 < countPrefixed (PRLabels pr) (str "sig/"))%nat)
  /\ ((countPrefixed (PRLabels pr) (str "sig/") <= 1)%nat ->
      Duplicate note = false).
Proof.
  intros Hnote Hpr.
  destruct (ReleaseNoteFromCommit_Ok _ _ _ _ _ Hnote)
    as (pr' & issue & Hpr' & _ & _ & _ & Har & Hsigs & _ & Hdup).
  rewrite Hpr in Hpr'. injection Hpr' as <-.
  rewrite Hsigs, GetPRLabels_eq, length_StringsWithPrefix in Hdup.
  rewrite Hdup, Har.
  split.
  - destruct (IsActionRequired pr), (Feature note); simpl;
      try (split; [discriminate | intros (A1 & A2 & _); discriminate]).
    rewrite Nat.ltb_lt. tauto.
  - intros Hle.
    destruct (IsActionRequired pr || Feature note); [reflexivity|].
    apply Nat.ltb_ge, Hle.
Qed.

(** C7: the note of a commit is a feature when the pull request carries the
    label [kind/feature], whatever the linked issue carries; without that
    label it is a feature when an issue was resolved and that issue does not
    carry the label [bug]; and it is not a feature otherwise. *)
Theorem feature_classification commit client opts note pr :
  ReleaseNoteFromCommit prettifySigList commit client opts = Ok note ->
  PRFromCommit client commit opts = Ok pr ->
  (In (str "kind/feature") (PRLabels pr) -> Feature note = true)
  /\ (~ In (str "kind/feature") (PRLabels pr) ->
      forall issue,
        IssueResolved client commit opts (Some issue) ->
        (Feature note = true <-> ~ In (str "bug") (IssueLabels issue)))
  /\ (~ In (str "kind/feature") (PRLabels pr) ->
      IssueResolved client commit opts None ->
      Feature note = false).
Proof.
  intros Hnote Hpr.
  destruct (ReleaseNoteFromCommit_Ok _ _ _ _ _ Hnote)
    as (pr' & issue & Hpr' & Hres & _ & _ & _ & _ & Hfeat & _).
  rewrite Hpr in Hpr'. injection Hpr' as <-.
  rewrite GetPRLabels_eq in Hfeat.
  destruct (HasString (StringsWithPrefix (PRLabels pr) (str "kind/"))
              (str "feature")) eqn:Ekf.
  - apply (HasString_StringsWithPrefix _ (str "kind/") (str "feature")) in Ekf.
    split; [intros _; exact Hfeat|].
    split; intros Hn; contradiction.
  - assert (Hnk : ~ In (str "kind/feature") (PRLabels pr)).
    { intros Hin.
      apply (HasString_StringsWithPrefix _ (str "kind/") (str "feature")) in Hin.
      congruence. }
    split; [intros Hin; contradiction|].
    split; intros _.
    + intros i Hi.
      rewrite (IssueResolved_fun _ _ _ _ _ Hres Hi) in Hfeat.
      rewrite Hfeat, GetIssueLabels_eq, <- HasString_In.
      destruct (HasString (IssueLabels i) (str "bug")); simpl;
        split; try discriminate; try reflexivity; congruence.
    + intros Hnone.
      now rewrite (IssueResolved_fun _ _ _ _ _ Hres Hnone) in Hfeat.
Qed.

End NoteFlags.

(** C6 on the commit [cAgain]: two [sig/] labels, no feature, no action
    required, and the note is a duplicate. *)
Lemma duplicate_classification_witness :
  Duplicate Examples.noteAgain = true.
Proof.
  apply (proj1 (duplicate_classification Examples.prettySigs Examples.cAgain
                  Examples.gh [] Examples.noteAgain
                  (Examples.pull 8 (str "Tidy up") ["sig/a"; "sig/b"]%string)
                  ltac:(vm_compute; reflexivity)
                  ltac:(vm_compute; reflexivity))).
  vm_compute. repeat split; lia.
Defined.

(** C7 on the commit [cDark]: its pull request carries [kind/feature], the
    issue it closes carries [bug], and the note is a feature. *)
Lemma feature_classification_witness :
  In (str "bug") (IssueLabels {| IssueLabels := [str "bug"; str "area/web"] |})
  /\ Feature Examples.noteDark = true.
Proof.
  split; [now left|].
  apply (proj1 (feature_classification Examples.prettySigs Examples.cDark
                  Examples.gh [] Examples.noteDark
                  (Examples.pull 5678 (Examples.stanza (str "Dark mode"))
                     ["kind/feature"; "sig/ui"]%string)
                  ltac:(vm_compute; reflexivity)
                  ltac:(vm_compute; reflexivity))).
  vm_compute. now left.
Defined.

(** ** C8 and C9: the list of notes *)

Section NoteList.

Variable prettifySigList : list gostring -> gostring.
Variable client : Client.
Variable opts : list githubApiOption.

Local Abbreviation offered commits :=
  (omap (assembled prettifySigList client opts) commits).
Local Abbreviation LRN := (ListReleaseNotes prettifySigList client).

(** C8: [ListReleaseNotes] drops every note whose trimmed text is [NONE]
    and, among the others, keeps for every text the note of the first
    commit that produced it, in the order of the commits; a later note with
    a text already seen is dropped. *)
Theorem ListReleaseNotes_dedupes_by_text start end_ commits log out :
  ListCommitsWithNotes client start end_ opts = Ok commits ->
  LRN start end_ opts = (log, Ok out) ->
  (forall n, In n out -> TrimSpace (Text n) <> str "NONE")
  /\ out = firstByText
             (List.filter (fun n => negb (eqs (TrimSpace (Text n)) (str "NONE")))
                (offered commits))
  /\ List.NoDup (map Text out)
  /\ sublist out (offered commits)
  /\ (forall n, In n (offered commits) -> TrimSpace (Text n) <> str "NONE" ->
        exists m, In m out /\ Text m = Text n)
  /\ (forall pre n post,
        offered commits = pre ++ n :: post ->
        TrimSpace (Text n) <> str "NONE" ->
        ~ In (Text n) (map Text pre) ->
        In n out).
Proof.
  intros Hc Hl.
  rewrite ListReleaseNotes_eq, Hc in Hl. injection Hl as _ <-.
  unfold candidates.
  set (keep := fun n => negb (isNONE n)).
  assert (Hkeep : forall n, keep n = true <-> TrimSpace (Text n) <> str "NONE").
  { intros n. unfold keep, isNONE. rewrite negb_true_iff. apply eqs_false. }
  split; [|split; [|split; [|split; [|split]]]].
  - intros n Hin. apply firstByText_incl, filter_In in Hin as [_ Hk].
    now apply Hkeep.
  - reflexivity.
  - apply firstByText_NoDup.
  - etransitivity; [apply firstByText_sublist | apply filter_sublist].
  - intros n Hin Hne. apply firstByText_covers, filter_In.
    split; [exact Hin | now apply Hkeep].
  - intros pre n post Hoff Hne Hnot.
    rewrite Hoff, List.filter_app. simpl.
    rewrite (proj2 (Hkeep n) Hne).
    apply firstByText_app_notin.
    intros Hin. apply Hnot. apply in_map_iff in Hin as (m & Hm & Hmin).
    apply filter_In in Hmin as [Hmin _]. apply in_map_iff. eauto.
Qed.

(** C9: a commit that the bot account authored leaves no note in the
    list, whatever its message, pull request and labels are: every note of
    the list was assembled from a commit of another author, the list and
    the log are those of the range without the commits of the bot, and no
    note carries the SHA of a commit of the bot, as long as that SHA names
    no commit of another author. *)
Theorem bot_commits_never_listed start end_ commits log out :
  ListCommitsWithNotes client start end_ opts = Ok commits ->
  LRN start end_ opts = (log, Ok out) ->
  (forall n, In n out ->
     exists c,
       In c commits /\ AuthorLogin c <> str "netdatabot"
       /\ ReleaseNoteFromCommit prettifySigList c client opts = Ok n)
  /\ (let others :=
        List.filter (fun c => negb (eqs (AuthorLogin c) (str "netdatabot")))
          commits in
      let st := fold_left (noteStep prettifySigList client opts) others
                  {| dedupeCache := ∅; notes := []; logged := [] |} in
      out = notes st /\ log = logged st)
  /\ (forall c,
        AuthorLogin c = str "netdatabot" ->
        (forall c', In c' commits -> SHA c' = SHA c ->
                    AuthorLogin c' = str "netdatabot") ->
        forall n, In n out -> Commit n <> SHA c).
Proof.
  intros Hc Hl.
  assert (Hprov : forall n, In n out ->
    exists c,
      In c commits /\ AuthorLogin c <> str "netdatabot"
      /\ ReleaseNoteFromCommit prettifySigList c client opts = Ok n).
  { intros n Hin.
    exact (ListReleaseNotes_provenance _ _ _ _ _ _ _ _ _ Hc Hl Hin). }
  split; [exact Hprov|]. split.
  - cbv zeta.
    set (others := List.filter
           (fun c => negb (eqs (AuthorLogin c) (str "netdatabot"))) commits).
    fold initState. fold (runLoop prettifySigList client opts others initState).
    destruct (runLoop_spec prettifySigList client opts others initState)
      as [Hn Hlog].
    rewrite Hn, Hlog, filter_fresh_empty. cbn [notes logged initState app].
    rewrite ListReleaseNotes_eq, Hc in Hl. injection Hl as <- <-.
    unfold candidates, others.
    rewrite !(omap_filter_None _ (fun c => negb (isBot c))); [auto| |].
    + intros c Hb. apply negb_false_iff in Hb. unfold failure. now rewrite Hb.
    + intros c Hb. apply negb_false_iff in Hb. unfold assembled. now rewrite Hb.
  - intros c Hbot Hsha n Hin Heq.
    destruct (Hprov n Hin) as (c' & Hc' & Hnb & Hn).
    apply ReleaseNoteFromCommit_Ok in Hn as (_ & _ & _ & _ & Hcommit & _).
    apply Hnb, Hsha; [exact Hc' | congruence].
Qed.

End NoteList.

(** C8 on the repository [gh]: the second copy of [cDark] and the commit
    [cAgain] offer the text that [cDark] offered first; one note is left. *)
Lemma ListReleaseNotes_dedupes_by_text_witness :
  List.NoDup (map Text [Examples.noteDark])
  /\ [Examples.noteDark]
     = firstByText
         (List.filter (fun n => negb (eqs (TrimSpace (Text n)) (str "NONE")))
            (omap (assembled Examples.prettySigs Examples.gh [])
               Examples.filtered)).
Proof.
  pose proof (ListReleaseNotes_dedupes_by_text Examples.prettySigs Examples.gh []
                [] [] Examples.filtered [Examples.lostEntry] [Examples.noteDark]
                ltac:(vm_compute; reflexivity)
                ltac:(vm_compute; reflexivity)) as H.
  split; [apply H | apply H].
Defined.

(** C9 on the repository [gh]: the commit [cBot] is in the filtered range
    and no note carries its SHA. *)
Lemma bot_commits_never_listed_witness :
  In Examples.cBot Examples.filtered
  /\ forall n, In n [Examples.noteDark] -> Commit n <> SHA Examples.cBot.
Proof.
  split; [vm_compute; tauto|].
  apply (proj2 (proj2 (bot_commits_never_listed Examples.prettySigs Examples.gh
                         [] [] [] Examples.filtered [Examples.lostEntry]
                         [Examples.noteDark]
                         ltac:(vm_compute; reflexivity)
                         ltac:(vm_compute; reflexivity)))
           Examples.cBot ltac:(reflexivity)).
  intros c' Hin Hsha.
  repeat (destruct Hin as [<-|Hin]; [try reflexivity; discriminate Hsha|]).
  destruct Hin.
Defined.

(** ** C10: the issue of a commit *)

(** C10, as the code has it: when the issue pattern matches the message,
    whatever the number of matches, [IssueNumbersFromCommit] reads the
    digits of the first match only. They make a list of one number when
    they fit an [int], and the range error of [strconv.Atoi] when they do
    not. Without a match the result is the "no matches" error. *)
Theorem IssueNumbersFromCommit_first_match (commit : RepositoryCommit) :
  (FindAllStringSubmatch issueExp (Message commit) = [] ->
   IssueNumbersFromCommit commit = Err NoMatchIssue)
  /\ (forall first more,
        FindAllStringSubmatch issueExp (Message commit) = first :: more ->
        let ds := nth 2 first [] in
        allDigits ds
        /\ IssueNumbersFromCommit commit
           = if decimal ds <=? maxInt
             then Ok [decimal ds]
             else Err (AtoiError ErrRange ds)).
Proof.
  rewrite FindAllStringSubmatch_first, IssueNumbersFromCommit_search.
  destruct (search issueExp (Message commit)) as [f|] eqn:E.
  - split; [discriminate|]. intros first more [= <- _].
    change (nth 2 (submatches issueExp f) []) with (capLookup 2 (f_caps f)).
    apply search_Some in E as (_ & Hm & _).
    apply match_at_issueExp_inv in Hm. cbv zeta.
    split; [exact Hm|]. destruct Hm as [Hd Hne].
    rewrite (Atoi_digits _ Hd Hne).
    now destruct (decimal (capLookup 2 (f_caps f)) <=? maxInt).
  - split; [reflexivity | discriminate].
Qed.

(** C10 on the commit [cTwoIssues]: two references, and the list holds the
    number of the first one. *)
Lemma IssueNumbersFromCommit_first_match_witness :
  length Examples.twoIssuesMatches = 2%nat
  /\ IssueNumbersFromCommit Examples.cTwoIssues = Ok [12].
Proof.
  split; [reflexivity|].
  destruct (proj2 (IssueNumbersFromCommit_first_match Examples.cTwoIssues)
              (hd [] Examples.twoIssuesMatches)
              (tl Examples.twoIssuesMatches)
              ltac:(vm_compute; reflexivity)) as [_ H].
  rewrite H. vm_compute. reflexivity.
Defined.

(** C10 as stated fails on the commit [cHugeIssue]: the pattern matches
    and the result is an error, not a list of one number. *)
Lemma IssueNumbersFromCommit_out_of_range :
  MatchString issueExp (Message Examples.cHugeIssue) = true
  /\ IssueNumbersFromCommit Examples.cHugeIssue
     = Err (AtoiError ErrRange (str "99999999999999999999")).
Proof. split; vm_compute; reflexivity. Qed.

(** * Further properties of the package *)

(** ** Options and labels *)

Lemma configFromOpts_snoc (opts : list githubApiOption) (opt : githubApiOption) :
  configFromOpts (opts ++ [opt]) = opt (configFromOpts opts).
Proof. unfold configFromOpts. rewrite fold_left_app. reflexivity. Qed.

Lemma last_omap_snoc {A B : Type} (f : A -> option B) (l : list A) (x : A) :
  last (omap f (l ++ [x]))
  = match f x with Some y => Some y | None => last (omap f l) end.
Proof.
  rewrite omap_app. cbn [omap list_omap]. destruct (f x) as [y|].
  - apply last_snoc.
  - rewrite app_nil_r. reflexivity.
Qed.

(** X1: [configFromOpts] applies the options in order on top of the defaults
    [netdata], [netdata], [master] and the background context: every field
    takes the value of the last option of its kind, and its default when the
    list holds no option of that kind; options of other kinds never change
    it. *)
Theorem configFromOpts_last_option_wins (os : list optionSpec) :
  let c := configFromOpts (map applyOption os) in
  ctx c = default Background (last (omap ctxOf os))
  /\ org c = default (str "netdata") (last (omap orgOf os))
  /\ repo c = default (str "netdata") (last (omap repoOf os))
  /\ branch c = default (str "master") (last (omap branchOf os)).
Proof.
  induction os as [|o os IH] using rev_ind; [repeat split|].
  rewrite map_app. cbn [map]. rewrite configFromOpts_snoc.
  rewrite !last_omap_snoc. cbv zeta in IH.
  destruct IH as (H1 & H2 & H3 & H4).
  destruct o; cbn [applyOption ctxOf orgOf repoOf branchOf WithContext WithOrg
                   WithRepo WithBranch ctx org repo branch default];
    repeat split; assumption.
Qed.

(** X2: [StringsWithPrefix] returns, in the order of the input, the
    remainder of every string that starts with the prefix: a remainder is in
    the result exactly when the prefix followed by it is in the input, the
    result of a concatenation is the concatenation of the results, and a
    string equal to the prefix contributes the empty string. *)
Theorem StringsWithPrefix_members (xs ys : list gostring) (prefix : gostring) :
  (forall s, In s (StringsWithPrefix xs prefix) <-> In (prefix ++ s) xs)
  /\ StringsWithPrefix (xs ++ ys) prefix
     = StringsWithPrefix xs prefix ++ StringsWithPrefix ys prefix
  /\ (length (StringsWithPrefix xs prefix) <= length xs)%nat
  /\ (In prefix xs -> In [] (StringsWithPrefix xs prefix)).
Proof.
  assert (Hm : forall s, In s (StringsWithPrefix xs prefix) <-> In (prefix ++ s) xs).
  { intros s. rewrite <- HasString_StringsWithPrefix. symmetry. apply HasString_In. }
  split; [exact Hm|]. split; [|split].
  - rewrite !StringsWithPrefix_filter, List.filter_app, map_app. reflexivity.
  - rewrite StringsWithPrefix_filter, length_map. apply List.filter_length_le.
  - intros H. apply Hm. rewrite app_nil_r. exact H.
Qed.

(** X2 on two labels: the one that is the prefix itself gives the empty
    name. *)
Lemma StringsWithPrefix_members_witness :
  In [] (StringsWithPrefix [str "sig/"; str "kind/bug"] (str "sig/")).
Proof.
  apply (proj2 (proj2 (proj2
           (StringsWithPrefix_members [str "sig/"; str "kind/bug"] []
              (str "sig/"))))).
  left. reflexivity.
Defined.

(** ** The commits of a range *)

Lemma listPages_Ok client n c clo acc r :
  listPages n client c clo acc = Ok r
  <-> exists pages : list (list RepositoryCommit),
        length pages = n
        /\ (forall j page, pages !! j = Some page ->
              exists resp,
                Repositories_ListCommits client (ctx c) (org c) (repo c)
                  (Nat.iter j nextPage clo) = inr (page, resp))
        /\ r = acc ++ concat pages.
Proof.
  revert clo acc. induction n as [|n IH]; intros clo acc; cbn [listPages].
  - split.
    + intros [= <-]. exists []. rewrite app_nil_r.
      repeat split. intros j page Hj. discriminate.
    + intros (pages & Hl & _ & ->). destruct pages; [|discriminate].
      cbn [concat]. now rewrite app_nil_r.
  - destruct (Repositories_ListCommits client (ctx c) (org c) (repo c) clo)
      as [e|[page resp]] eqn:E.
    + split; [discriminate|]. intros ([|p pages] & Hl & Hp & _); [discriminate|].
      destruct (Hp 0%nat p eq_refl) as (resp & H0).
      cbn [Nat.iter nat_rect] in H0. congruence.
    + rewrite IH. split.
      * intros (pages & Hl & Hp & ->). exists (page :: pages).
        split; [cbn [length]; lia|]. split.
        -- intros [|j] pg Hj.
           ++ injection Hj as <-. exists resp. exact E.
           ++ rewrite Nat.iter_succ_r. apply Hp. exact Hj.
        -- cbn [concat]. now rewrite <- app_assoc.
      * intros ([|p pages] & Hl & Hp & ->); [discriminate|].
        destruct (Hp 0%nat p eq_refl) as (resp' & H0).
        cbn [Nat.iter nat_rect] in H0. rewrite E in H0. injection H0 as <- <-.
        exists pages. split; [cbn [length] in Hl; lia|]. split.
        -- intros j pg Hj. rewrite <- Nat.iter_succ_r. apply (Hp (S j)). exact Hj.
        -- cbn [concat]. now rewrite <- app_assoc.
Qed.

(** X3: when both boundary commits resolve and the first page of the range
    is listed, [ListCommits] succeeds exactly when every page from the
    second one to the last page announced by the first answer is listed; it
    then returns the commits of all these pages, in order. The number of
    pages is fixed by the first answer; when that announces at most one
    page (or none, for a listing that is not paginated) the first page is
    the result. Every request names the branch of the options and the
    committer dates of the boundary commits. *)
Theorem ListCommits_concatenates_pages client start end_ opts sc ec first resp :
  let c := configFromOpts opts in
  Git_GetCommit client (ctx c) (org c) (repo c) start = inr sc ->
  Git_GetCommit client (ctx c) (org c) (repo c) end_ = inr ec ->
  Repositories_ListCommits client (ctx c) (org c) (repo c)
    (pageOptions c sc ec 0) = inr (first, resp) ->
  (forall r,
     ListCommits client start end_ opts = Ok r
     <-> exists pages : list (list RepositoryCommit),
           length pages = Z.to_nat (LastPage resp - 1)
           /\ (forall j page, pages !! j = Some page ->
                 exists resp',
                   Repositories_ListCommits client (ctx c) (org c) (repo c)
                     (pageOptions c sc ec (S j)) = inr (page, resp'))
           /\ r = first ++ concat pages)
  /\ (LastPage resp <= 1 -> ListCommits client start end_ opts = Ok first).
Proof.
  intros c Hs He Hf.
  assert (Heq : ListCommits client start end_ opts
                = listPages (Z.to_nat (LastPage resp - 1)) client c
                    (pageOptions c sc ec 1) first).
  { unfold ListCommits. cbv zeta. fold c. rewrite Hs, He.
    change {| clo_SHA := branch c; Since := CommitterDate sc;
              Until := CommitterDate ec; Page := 1; PerPage := 100 |}
      with (pageOptions c sc ec 0).
    rewrite Hf.
    change (nextPage (pageOptions c sc ec 0)) with (pageOptions c sc ec 1).
    change (Page (pageOptions c sc ec 1)) with 2.
    replace (LastPage resp - 2 + 1) with (LastPage resp - 1) by lia.
    reflexivity. }
  split.
  - intros r. rewrite Heq, listPages_Ok. split.
    + intros (pages & Hl & Hp & ->). exists pages. repeat split; [exact Hl|].
      intros j page Hj. destruct (Hp j page Hj) as (resp' & H).
      exists resp'. unfold pageOptions. rewrite Nat.iter_succ_r. exact H.
    + intros (pages & Hl & Hp & ->). exists pages. repeat split; [exact Hl|].
      intros j page Hj. destruct (Hp j page Hj) as (resp' & H).
      exists resp'. unfold pageOptions in *. rewrite Nat.iter_succ_r in H. exact H.
  - intros Hle. rewrite Heq.
    replace (Z.to_nat (LastPage resp - 1)) with 0%nat by lia. reflexivity.
Qed.

(** X3, on the repository [gh], whose first answer announces two pages, the
    result holds the commits of both pages. *)
Lemma ListCommits_concatenates_pages_witness :
  ListCommits Examples.gh [] [] []
  = Ok [Examples.cWidget; Examples.cDark; Examples.cPlain;
        Examples.cBot; Examples.cAgain; Examples.cLost].
Proof.
  apply (proj1 (ListCommits_concatenates_pages Examples.gh [] [] []
                  {| CommitterDate := 5 |} {| CommitterDate := 5 |}
                  [Examples.cWidget; Examples.cDark; Examples.cPlain]
                  {| LastPage := 2 |} eq_refl eq_refl eq_refl)).
  exists [[Examples.cBot; Examples.cAgain; Examples.cLost]].
  split; [reflexivity|]. split; [|reflexivity].
  intros [|j] page Hj; [|discriminate].
  injection Hj as <-. exists {| LastPage := 2 |}. reflexivity.
Defined.

Lemma PRFromCommit_NoMatch client commit opts :
  PRFromCommit client commit opts = Err NoMatchPR <-> ~ hasMarker (Message commit).
Proof.
  rewrite PRFromCommit_search, <- search_prExp_None.
  destruct (search prExp (Message commit)) as [f|]; [|tauto].
  cbv zeta. split; [|discriminate].
  destruct (Atoi (capLookup 1 (f_caps f))); [discriminate|].
  destruct (PullRequests_Get client _ _ _ _); discriminate.
Qed.

Lemma testedBody_None client opts c :
  testedBody client opts c = None <-> ~ hasMarker (Message c).
Proof.
  rewrite <- (PRFromCommit_NoMatch client c opts). unfold testedBody.
  destruct (PRFromCommit client c opts) as [pr|e]; [split; discriminate|].
  destruct e; cbn [isNoMatchPR]; split; congruence.
Qed.

Section RangeFilter.

Variable client : Client.
Variable opts : list githubApiOption.

(** X4: [ListCommitsWithNotes] returns a commit of the range exactly when
    its message holds a pull-request marker and the body it tests (the body
    of the pull request, or the empty body when the lookup fails) matches no
    exclusion pattern. The commits come in the order of the range and each
    one that is returned comes between one and three times in a row: once
    for every inclusion pattern that its body matches. *)
Theorem ListCommitsWithNotes_membership start end_ commits :
  ListCommits client start end_ opts = Ok commits ->
  exists result,
    ListCommitsWithNotes client start end_ opts = Ok result
    /\ result = flat_map (fun c => repeat c (copies client opts c)) commits
    /\ (forall c, (copies client opts c <= 3)%nat)
    /\ (forall c,
          In c result
          <-> In c commits /\ hasMarker (Message c)
              /\ forall pr, PRFromCommit client c opts = Ok pr ->
                   existsb (fun filter => MatchString filter (Body pr))
                     exclusionFilters = false).
Proof.
  intros H. destruct (ListCommitsWithNotes_copies client opts _ _ _ H) as (Hr & Hc).
  eexists. split; [exact Hr|]. split; [reflexivity|].
  assert (Hpos : forall c,
    (0 < copies client opts c)%nat
    <-> hasMarker (Message c)
        /\ forall pr, PRFromCommit client c opts = Ok pr ->
             excludedBody (Body pr) = false).
  { intros c. destruct (Hc c) as (H0 & H1).
    pose proof (testedBody_None client opts c) as Hn.
    destruct (testedBody client opts c) as [body|] eqn:Et.
    - destruct (H1 body eq_refl) as (Hx & Hk).
      assert (Hm : hasMarker (Message c)).
      { destruct (search prExp (Message c)) as [f|] eqn:Es.
        - destruct (firstMarker_of_search _ _ Es) as (Hm & _).
          do 3 eexists. exact Hm.
        - apply search_prExp_None in Es. apply Hn in Es. discriminate. }
      unfold testedBody in Et.
      destruct (PRFromCommit client c opts) as [pr|e] eqn:Ep.
      + injection Et as <-. destruct (excludedBody (Body pr)) eqn:Ex.
        * rewrite (Hx eq_refl). split; [lia|]. intros (_ & Hpr).
          specialize (Hpr pr eq_refl). congruence.
        * split; [|intros _; specialize (Hk eq_refl); lia].
          intros _. split; [exact Hm|]. intros pr' [= <-]. exact Ex.
      + destruct (isNoMatchPR e); [discriminate|]. injection Et as <-.
        split; [|intros _; specialize (Hk excludedBody_nil); lia].
        intros _. split; [exact Hm|]. intros pr' Hpr'. discriminate.
    - rewrite (H0 eq_refl). split; [lia|]. intros (Hm & _).
      exfalso. apply (proj1 Hn eq_refl). exact Hm. }
  split.
  - intros c. destruct (Hc c) as (H0 & H1).
    destruct (testedBody client opts c) as [body|].
    + destruct (H1 body eq_refl) as (Hx & Hk).
      destruct (excludedBody body); [rewrite Hx by reflexivity; lia|].
      specialize (Hk eq_refl). lia.
    + rewrite H0 by reflexivity. lia.
  - intros c. rewrite in_flat_map. split.
    + intros (x & Hin & Hrep). apply repeat_spec in Hrep as Heq. subst x.
      split; [exact Hin|]. apply Hpos.
      destruct (copies client opts c); [contradiction|lia].
    + intros (Hin & Hk). apply Hpos in Hk. exists c. split; [exact Hin|].
      destruct (copies client opts c); [lia|]. left. reflexivity.
Qed.

(** X5: [ListCommitsWithNotes] treats the commits of the range one by one.
    A commit without a pull-request marker adds nothing to the result. A
    commit whose pull request cannot be fetched (the remote call fails, or
    the number of the marker exceeds an [int]) is tested with an empty body
    and is returned exactly once. *)
Theorem ListCommitsWithNotes_unresolved_commit start end_ pre c post :
  ListCommits client start end_ opts = Ok (pre ++ c :: post) ->
  let kept l := fold_left (filterCommit client opts) l [] in
  (~ hasMarker (Message c) ->
   ListCommitsWithNotes client start end_ opts = Ok (kept pre ++ kept post))
  /\ (forall e,
        PRFromCommit client c opts = Err e -> e <> NoMatchPR ->
        ListCommitsWithNotes client start end_ opts
        = Ok (kept pre ++ c :: kept post)).
Proof.
  intros H kept. rewrite (ListCommitsWithNotes_split _ _ _ _ _ _ _ H).
  fold (kept pre) (kept post). split.
  - intros Hm. apply (testedBody_None client opts) in Hm.
    unfold copies. rewrite Hm. reflexivity.
  - intros e He Hne. rewrite (copies_unresolved _ _ _ _ He Hne). reflexivity.
Qed.

End RangeFilter.

(** X5, on the repository [gh]: [cPlain] has no marker and leaves the result,
    [cLost] names a pull request that is not found and stays once. *)
Lemma ListCommitsWithNotes_unresolved_commit_witness :
  ListCommitsWithNotes Examples.gh [] [] []
  = Ok [Examples.cDark; Examples.cDark; Examples.cBot; Examples.cAgain;
        Examples.cLost].
Proof.
  rewrite (proj2 (ListCommitsWithNotes_unresolved_commit Examples.gh [] [] []
                    [Examples.cWidget; Examples.cDark; Examples.cPlain;
                     Examples.cBot; Examples.cAgain]
                    Examples.cLost []
                    ltac:(vm_compute; reflexivity))
             (Remote NotFoundError)
             ltac:(vm_compute; reflexivity) ltac:(discriminate)).
  vm_compute. reflexivity.
Defined.

(** X4, on the repository [gh]: four of the six commits of the range pass
    the filter and [cDark] comes twice, so that the result has five
    entries. *)
Lemma ListCommitsWithNotes_membership_witness :
  exists result,
    ListCommitsWithNotes Examples.gh [] [] [] = Ok result
    /\ length result = 5%nat.
Proof.
  destruct (ListCommitsWithNotes_membership Examples.gh [] [] []
              [Examples.cWidget; Examples.cDark; Examples.cPlain;
               Examples.cBot; Examples.cAgain; Examples.cLost]
              ltac:(vm_compute; reflexivity)) as (result & Hr & He & _).
  exists result. split; [exact Hr|]. rewrite He. vm_compute. reflexivity.
Defined.

(** ** The patterns of the range filter, as texts *)

Lemma MatchString_prefix r (s : gostring) :
  MatchString r s = true
  <-> exists pre t, s = pre ++ t /\ match_at r t <> None.
Proof.
  rewrite MatchString_true. split.
  - intros (pre & t & rest & cs & -> & H). exists pre, t. split; [reflexivity|].
    congruence.
  - intros (pre & t & -> & H).
    destruct (match_at r t) as [[rest cs]|] eqn:E; [|contradiction].
    exists pre, t, rest, cs. auto.
Qed.

Lemma MatchString_Lit (w s : gostring) :
  MatchString (Lit w) s = true <-> contains s w.
Proof.
  rewrite MatchString_prefix. unfold contains, match_at. split.
  - intros (pre & t & -> & H). rewrite run_Lit in H.
    destruct (HasPrefix t w) eqn:Hp; [|contradiction].
    apply HasPrefix_spec in Hp as (rest & ->). eauto.
  - intros (pre & rest & ->). exists pre, (w ++ rest). split; [reflexivity|].
    rewrite run_Lit, HasPrefix_app. discriminate.
Qed.

Lemma MatchString_Lit_Opt (w e s : gostring) :
  MatchString (Seq [Lit w; Opt (Lit e)]) s = true <-> contains s w.
Proof.
  rewrite MatchString_prefix. unfold contains, match_at. cbn [Seq]. split.
  - intros (pre & t & -> & H). rewrite run_Cat, run_Lit in H.
    destruct (HasPrefix t w) eqn:Hp; [|contradiction].
    apply HasPrefix_spec in Hp as (rest & ->). eauto.
  - intros (pre & rest & ->). exists pre, (w ++ rest). split; [reflexivity|].
    rewrite run_Cat, run_Lit, HasPrefix_app.
    unfold Opt. cbn [run].
    destruct (run (Lit e) _ _ _); discriminate.
Qed.

Lemma MatchString_spaced (o w s : gostring) :
  (forall c t, isReSpace c = true -> HasPrefix (c :: t) w = false) ->
  MatchString (Seq [Lit o; Plus CSpace; Lit w]) s = true
  <-> exists ws, whiteSpace ws /\ contains s (o ++ ws ++ w).
Proof.
  intros Hw. rewrite MatchString_prefix. unfold contains, match_at, whiteSpace.
  cbn [Seq].
  assert (Hrun : forall t,
            run (Cat (Plus CSpace) (Lit w)) t []
              (fun s' cs => Some (s', cs))
            = match t with
              | c :: t' =>
                  if isReSpace c
                  then if HasPrefix (dropRun isReSpace t') w
                       then Some (drop (length w) (dropRun isReSpace t'), [])
                       else None
                  else None
              | [] => None
              end).
  { intros t. rewrite run_Cat. unfold Plus. rewrite run_Cat.
    destruct t as [|c t']; [reflexivity|]. cbn [run].
    change (cmatch CSpace) with isReSpace.
    destruct (isReSpace c); [|reflexivity].
    rewrite star_loop_greedy.
    - now rewrite run_Lit.
    - intros c' s' Hc'. now rewrite run_Lit, (Hw c' s' Hc'). }
  split.
  - intros (pre & t & -> & H). rewrite run_Cat, run_Lit in H.
    destruct (HasPrefix t o) eqn:Hp; [|contradiction].
    apply HasPrefix_inv in Hp. rewrite Hrun in H.
    destruct (drop (length o) t) as [|c t'] eqn:Ed; [contradiction|].
    destruct (isReSpace c) eqn:Ec; [|contradiction].
    destruct (HasPrefix (dropRun isReSpace t') w) eqn:Hp2; [|contradiction].
    apply HasPrefix_spec in Hp2 as (rest & Hrest).
    exists (c :: takeRun isReSpace t'). split.
    + split; [discriminate|]. cbn [forallb]. rewrite Ec.
      apply takeRun_forallb.
    + exists pre, rest. rewrite Hp, <- !app_assoc. do 2 f_equal.
      cbn [app]. f_equal. rewrite <- Hrest. symmetry. apply takeRun_dropRun.
  - intros (ws & (Hne & Hws) & pre & rest & ->).
    exists pre, ((o ++ ws ++ w) ++ rest). split; [reflexivity|].
    rewrite <- !app_assoc, run_Cat, run_Lit, HasPrefix_app, drop_app_length, Hrun.
    destruct ws as [|c ws]; [contradiction|].
    cbn [forallb] in Hws. apply andb_true_iff in Hws as [Hc Hws].
    cbn [app]. rewrite Hc.
    assert (Hst : stops isReSpace (w ++ rest)).
    { destruct w as [|x w']; cbn [app stops].
      - specialize (Hw c [] Hc). discriminate.
      - destruct (isReSpace x) eqn:Ex; [|reflexivity].
        specialize (Hw x (w' ++ rest) Ex).
        change (x :: w' ++ rest) with ((x :: w') ++ rest) in Hw.
        rewrite HasPrefix_app in Hw. discriminate. }
    destruct (run_app isReSpace ws (w ++ rest) Hws Hst) as (_ & ->).
    rewrite HasPrefix_app. discriminate.
Qed.

Lemma exclusionFilters_texts r :
  In r exclusionFilters
  <-> r = Seq [Lit (fence ++ str "release-note" ++ CRLF); Plus CSpace;
               Lit (str "NONE")]
      \/ In r (map Lit exclusionTexts).
Proof.
  unfold exclusionFilters, exclusionTexts. cbv zeta. cbn [map In]. split.
  - intros H.
    repeat (destruct H as [H|H];
            [subst r; repeat (first [left; reflexivity | right])|]).
    contradiction.
  - intros [-> | H]; [repeat (first [left; reflexivity | right])|].
    repeat (destruct H as [H|H];
            [subst r; repeat (first [left; reflexivity | right])|]).
    contradiction.
Qed.

(** X6: the patterns of [ListCommitsWithNotes] in plain terms. A body is
    excluded exactly when one of the fixed texts of [exclusionTexts] occurs
    in it, or the opening of a [release-note] stanza followed by white
    space and [NONE].
    Of the three inclusion patterns the first one matches every body, the
    second one the bodies in which [release-note] occurs, and the third
    one, whose final [?] is read as an operator, the bodies in which the
    prompt occurs short of its last letter. *)
Theorem body_filters_as_texts (body : gostring) :
  (existsb (fun filter => MatchString filter body) exclusionFilters = true
   <-> (exists w, In w exclusionTexts /\ contains body w)
       \/ exists ws, whiteSpace ws /\ contains body (spacedNone ws))
  /\ (forall i filter,
        inclusionFilters !! i = Some filter ->
        (MatchString filter body = true
         <-> match i with
             | O => True
             | 1%nat => contains body (str "release-note")
             | _ => contains body promptText
             end)).
Proof.
  split.
  - rewrite existsb_exists. split.
    + intros (r & Hin & Hm). apply exclusionFilters_texts in Hin as [-> | Hin].
      * right. apply MatchString_spaced in Hm.
        -- destruct Hm as (ws & Hws & Hc). exists ws. split; [exact Hws|].
           unfold spacedNone. now rewrite <- !app_assoc in Hc.
        -- intros c t Hc. cbn [HasPrefix str list_ascii_of_string].
           destruct (Ascii.eqb_spec "N"%char c) as [<-|]; [discriminate|reflexivity].
      * left. apply in_map_iff in Hin as (w & <- & Hw).
        exists w. split; [exact Hw|]. now apply MatchString_Lit.
    + intros [(w & Hw & Hc) | (ws & Hws & Hc)].
      * exists (Lit w). split; [|now apply MatchString_Lit].
        apply exclusionFilters_texts. right. now apply in_map.
      * eexists. split; [apply exclusionFilters_texts; left; reflexivity|].
        apply MatchString_spaced.
        -- intros c t Hc'. cbn [HasPrefix str list_ascii_of_string].
           destruct (Ascii.eqb_spec "N"%char c) as [<-|]; [discriminate|reflexivity].
        -- exists ws. split; [exact Hws|].
           unfold spacedNone in Hc. now rewrite <- !app_assoc.
  - intros i filter Hi.
    destruct i as [|[|[|i]]]; [| | |discriminate Hi]; injection Hi as <-.
    + split; [tauto|]. intros _. apply MatchString_any.
    + apply (MatchString_Lit (str "release-note")).
    + apply (MatchString_Lit_Opt promptText (str "e")).
Qed.

(** X6, a body with the opening of a stanza, a tab and [NONE], and the prompt
    with its question mark. *)
Lemma body_filters_as_texts_witness :
  existsb (fun filter =>
             MatchString filter
               (fence ++ str "release-note" ++ CRLF ++ [b 9] ++ str "NONE"))
    exclusionFilters = true
  /\ MatchString (Seq [Lit promptText; Opt (Lit (str "e"))])
       (str "Does this PR introduce a user-facing change?") = true.
Proof.
  split.
  - apply (proj1 (body_filters_as_texts _)). right. exists [b 9].
    split; [split; [discriminate|reflexivity]|].
    exists [], []. rewrite app_nil_r. reflexivity.
  - apply (proj2 (body_filters_as_texts _) 2%nat); [reflexivity|].
    exists [], (str "e?"). reflexivity.
Defined.

(** ** The assembly of a note *)

(** From [Ok x = Ok n], replace [n] by [x] and leave the literals of [x]
    as they are written. *)
Ltac ok_inj H :=
  match type of H with
  | Ok ?X = Ok ?n =>
      let E := fresh in
      assert (E : X = n)
        by exact (f_equal (fun r => match r with Ok v => v | Err _ => n end) H);
      clear H; subst n
  end.

Section NoteFields.

Variable prettifySigList : list gostring -> gostring.

Lemma ReleaseNoteFromCommit_fields commit client opts note :
  ReleaseNoteFromCommit prettifySigList commit client opts = Ok note ->
  exists pr issue,
    PRFromCommit client commit opts = Ok pr
    /\ IssueResolved client commit opts issue
    /\ Kinds note = StringsWithPrefix (GetPRLabels pr) (str "kind/")
    /\ SIGs note = StringsWithPrefix (GetPRLabels pr) (str "sig/")
    /\ Areas note
       = (match issue with
          | Some i =>
              if Nat.eqb (length (StringsWithPrefix (GetPRLabels pr) (str "area/"))) 0
              then StringsWithPrefix (GetIssueLabels i) (str "area/")
              else StringsWithPrefix (GetPRLabels pr) (str "area/")
          | None => StringsWithPrefix (GetPRLabels pr) (str "area/")
          end)
    /\ ActionRequired note = IsActionRequired pr
    /\ Author note = UserLogin pr
    /\ AuthorUrl note = str "https://github.com/" ++ UserLogin pr
    /\ PrNumber note = Number pr
    /\ PrUrl note
       = str "https://github.com/netdata/netdata/pull/" ++ Itoa (Number pr)
    /\ Markdown note
       = Text note ++ str " ([#" ++ Itoa (PrNumber note) ++ str "]("
           ++ PrUrl note ++ str "), [@" ++ Author note ++ str "]("
           ++ AuthorUrl note ++ str "))"
           ++ (if (ActionRequired note || Feature note)
                  && negb (eqs (prettifySigList (SIGs note)) [])
               then str " Courtesy of " ++ prettifySigList (SIGs note)
               else []).
Proof.
  unfold ReleaseNoteFromCommit.
  destruct (PRFromCommit client commit opts) as [pr|e]; [|discriminate].
  intros H. exists pr.
  assert (Hissue : exists issue,
    IssueResolved client commit opts issue
    /\ match IssueNumbersFromCommit commit with
       | Ok (first :: _) =>
           match GetIssue client first opts with
           | Ok issue => Ok (Some issue)
           | Err err =>
               Err (Wrapf (str "error prasing release note from commit "
                             ++ SHA commit) err)
           end
       | Ok [] => Ok None
       | Err _ => Ok None
       end = Ok issue).
  { destruct (IssueNumbersFromCommit commit) as [[|first rest]|e] eqn:EI.
    - exists None. split; [now left | reflexivity].
    - destruct (GetIssue client first opts) as [i|e] eqn:EG.
      + exists (Some i). split; [|reflexivity]. simpl. eauto.
      + discriminate.
    - exists None. split; [right; eauto | reflexivity]. }
  destruct Hissue as (issue & Hres & Heq).
  rewrite Heq in H. exists issue.
  split; [reflexivity|]. split; [exact Hres|].
  set (feat := if HasString (StringsWithPrefix (GetPRLabels pr) (str "kind/"))
                    (str "feature")
               then true
               else match issue with
                    | Some i => negb (HasString (GetIssueLabels i) (str "bug"))
                    | None => false
                    end) in *.
  set (pretty := prettifySigList (StringsWithPrefix (GetPRLabels pr) (str "sig/"))) in *.
  assert (Hne : forall x : gostring, eqs (str "Courtesy of " ++ x) [] = false).
  { intros x. apply eqs_false. discriminate. }
  destruct (IsActionRequired pr || feat) eqn:Eaf.
  - destruct (eqs pretty []) eqn:Ep; cbn [negb] in H.
    + change (eqs [] []) with true in H. cbn [negb] in H.
      ok_inj H.
      cbn [Kinds SIGs Areas ActionRequired Author AuthorUrl PrNumber PrUrl
           Markdown Text Feature].
      fold pretty. rewrite Eaf, Ep. cbn [negb andb]. rewrite !app_nil_r.
      repeat split; reflexivity.
    + rewrite Hne in H. cbn [negb] in H. ok_inj H.
      cbn [Kinds SIGs Areas ActionRequired Author AuthorUrl PrNumber PrUrl
           Markdown Text Feature].
      fold pretty. rewrite Eaf, Ep. cbn [negb andb].
      repeat split; try reflexivity.
      rewrite <- !app_assoc. reflexivity.
  - destruct (1 <? length (StringsWithPrefix (GetPRLabels pr) (str "sig/")))%nat eqn:El;
      change (eqs [] []) with true in H; cbn [negb] in H;
      ok_inj H;
      cbn [Kinds SIGs Areas ActionRequired Author AuthorUrl PrNumber PrUrl
           Markdown Text Feature];
      rewrite Eaf; cbn [andb]; rewrite !app_nil_r;
      repeat split; reflexivity.
Qed.

End NoteFields.

Section NoteAssembly.

Variable prettifySigList : list gostring -> gostring.
Variable client : Client.
Variable opts : list githubApiOption.

Local Abbreviation RNFC := (ReleaseNoteFromCommit prettifySigList).

(** X7: [ReleaseNoteFromCommit] fails in two cases only: the lookup of the
    pull request fails, or the message names an issue and the lookup of
    that issue fails. The error wraps the cause in a message that ends with
    the SHA of the commit. A message that names no issue, or whose issue
    number does not fit an [int], does not make the assembly fail. *)
Theorem ReleaseNoteFromCommit_failure commit :
  (forall e,
     RNFC commit client opts = Err e
     <-> (exists e0,
            PRFromCommit client commit opts = Err e0
            /\ e = Wrapf (str "error parsing release note from commit "
                            ++ SHA commit) e0)
         \/ (exists pr first rest e0,
               PRFromCommit client commit opts = Ok pr
               /\ IssueNumbersFromCommit commit = Ok (first :: rest)
               /\ GetIssue client first opts = Err e0
               /\ e = Wrapf (str "error prasing release note from commit "
                               ++ SHA commit) e0))
  /\ (forall pr e,
        PRFromCommit client commit opts = Ok pr ->
        IssueNumbersFromCommit commit = Err e ->
        exists note, RNFC commit client opts = Ok note).
Proof.
  split.
  - intros e. unfold ReleaseNoteFromCommit.
    destruct (PRFromCommit client commit opts) as [pr|e0].
    + destruct (IssueNumbersFromCommit commit) as [[|first rest]|ei].
      * split.
        -- destruct (_ || _); [|destruct (_ <? _)%nat]; discriminate.
        -- intros [(e0 & H & _) | (pr' & f & r & e0 & _ & H & _)]; discriminate.
      * destruct (GetIssue client first opts) as [i|eg] eqn:EG.
        -- split.
           ++ destruct (_ || _); [|destruct (_ <? _)%nat]; discriminate.
           ++ intros [(e0 & H & _) | (pr' & f & r & e0 & _ & H & Hg & _)];
                [discriminate|].
              injection H as <- <-. congruence.
        -- split.
           ++ intros [= <-]. right. exists pr, first, rest, eg. auto.
           ++ intros [(e0 & H & _) | (pr' & f & r & e0 & _ & H & Hg & ->)];
                [discriminate|].
              injection H as <- <-. congruence.
      * split.
        -- destruct (_ || _); [|destruct (_ <? _)%nat]; discriminate.
        -- intros [(e0 & H & _) | (pr' & f & r & e0 & _ & H & _)]; discriminate.
    + split.
      * intros [= <-]. left. exists e0. auto.
      * intros [(e1 & H & ->) | (pr' & f & r & e1 & H & _)]; [|discriminate].
        injection H as <-. reflexivity.
  - intros pr e Hpr Hi. unfold ReleaseNoteFromCommit. rewrite Hpr, Hi.
    destruct (_ || _); [|destruct (_ <? _)%nat]; eexists; reflexivity.
Qed.

(** X8: the areas of a note are the [area/] labels of the pull request;
    only when the pull request carries none, and the message names an issue
    that was fetched, are they the [area/] labels of that issue. The labels
    of the two are never mixed. *)
Theorem areas_fall_back_to_issue commit note pr :
  RNFC commit client opts = Ok note ->
  PRFromCommit client commit opts = Ok pr ->
  ((0 < countPrefixed (PRLabels pr) (str "area/"))%nat ->
      Areas note = StringsWithPrefix (PRLabels pr) (str "area/"))
  /\ (forall issue,
        IssueResolved client commit opts (Some issue) ->
        countPrefixed (PRLabels pr) (str "area/") = 0%nat ->
        Areas note = StringsWithPrefix (IssueLabels issue) (str "area/"))
  /\ (IssueResolved client commit opts None ->
      Areas note = StringsWithPrefix (PRLabels pr) (str "area/")).
Proof.
  intros Hn Hpr.
  destruct (ReleaseNoteFromCommit_fields _ _ _ _ _ Hn)
    as (pr' & issue & Hpr' & Hres & _ & _ & Ha & _).
  rewrite Hpr in Hpr'. injection Hpr' as <-.
  rewrite GetPRLabels_eq, length_StringsWithPrefix in Ha.
  split; [|split].
  - intros Hpos. rewrite Ha.
    destruct issue as [i|]; [|reflexivity].
    destruct (Nat.eqb_spec (countPrefixed (PRLabels pr) (str "area/")) 0); [lia|].
    reflexivity.
  - intros i Hi H0. pose proof (IssueResolved_fun _ _ _ _ _ Hi Hres) as <-.
    rewrite Ha, H0, GetIssueLabels_eq. reflexivity.
  - intros Hi. pose proof (IssueResolved_fun _ _ _ _ _ Hi Hres) as <-. exact Ha.
Qed.

(** X9: the kinds and the SIGs of a note are read off the labels of the
    pull request alone: a name is a kind of the note exactly when the pull
    request carries the label [kind/] followed by that name, the same holds
    for [sig/], and the note requires action exactly when the pull request
    carries the label [release-note-action-required]. *)
Theorem note_labels_from_pull_request commit note pr :
  RNFC commit client opts = Ok note ->
  PRFromCommit client commit opts = Ok pr ->
  (forall k, In k (Kinds note) <-> In (str "kind/" ++ k) (PRLabels pr))
  /\ (forall s, In s (SIGs note) <-> In (str "sig/" ++ s) (PRLabels pr))
  /\ length (Kinds note) = countPrefixed (PRLabels pr) (str "kind/")
  /\ length (SIGs note) = countPrefixed (PRLabels pr) (str "sig/")
  /\ (ActionRequired note = true
      <-> In (str "release-note-action-required") (PRLabels pr)).
Proof.
  intros Hn Hpr.
  destruct (ReleaseNoteFromCommit_fields _ _ _ _ _ Hn)
    as (pr' & issue & Hpr' & _ & Hk & Hs & _ & Har & _).
  rewrite Hpr in Hpr'. injection Hpr' as <-.
  rewrite GetPRLabels_eq in Hk, Hs. rewrite Hk, Hs, Har.
  repeat split; try apply length_StringsWithPrefix;
    try apply IsActionRequired_In;
    rewrite <- HasString_StringsWithPrefix, HasString_In; tauto.
Qed.

(** X10: the links of a note: it carries the SHA of the commit, the number
    and the author of the pull request, the author's page on GitHub and the
    page of the pull request in the repository [netdata/netdata], whatever
    organisation and repository the options name. Its Markdown line is the
    text, the two links, and the words [Courtesy of] with the formatted
    SIGs exactly when the note requires action or is a feature and the
    formatted SIGs are not empty. *)
Theorem note_links_and_markdown commit note pr :
  RNFC commit client opts = Ok note ->
  PRFromCommit client commit opts = Ok pr ->
  Commit note = SHA commit
  /\ PrNumber note = Number pr
  /\ Author note = UserLogin pr
  /\ AuthorUrl note = str "https://github.com/" ++ Author note
  /\ PrUrl note
     = str "https://github.com/netdata/netdata/pull/" ++ Itoa (PrNumber note)
  /\ Markdown note
     = Text note ++ str " ([#" ++ Itoa (PrNumber note) ++ str "]("
         ++ PrUrl note ++ str "), [@" ++ Author note ++ str "]("
         ++ AuthorUrl note ++ str "))"
         ++ (if (ActionRequired note || Feature note)
                && negb (eqs (prettifySigList (SIGs note)) [])
             then str " Courtesy of " ++ prettifySigList (SIGs note)
             else []).
Proof.
  intros Hn Hpr.
  destruct (ReleaseNoteFromCommit_fields _ _ _ _ _ Hn)
    as (pr' & issue & Hpr' & _ & _ & _ & _ & _ & Hau & Haurl & Hnum & Hurl & Hmd).
  destruct (ReleaseNoteFromCommit_Ok _ _ _ _ _ Hn)
    as (_ & _ & _ & _ & Hc & _).
  rewrite Hpr in Hpr'. injection Hpr' as <-.
  rewrite Hau, Hnum. repeat split; try assumption.
  rewrite Hmd, Hau, Hnum. reflexivity.
Qed.

End NoteAssembly.

(** X7, on the commit [cHugeOther]: the pull request is found, the issue
    number does not fit an [int] and the note is assembled all the same. *)
Lemma ReleaseNoteFromCommit_failure_witness :
  exists note,
    ReleaseNoteFromCommit Examples.prettySigs Examples.cHugeOther Examples.gh []
    = Ok note.
Proof.
  apply (proj2 (ReleaseNoteFromCommit_failure Examples.prettySigs Examples.gh []
                  Examples.cHugeOther)
           (Examples.pull 12 (str "Twelve") [])
           (AtoiError ErrRange (str "99999999999999999999"))).
  - vm_compute. reflexivity.
  - vm_compute. reflexivity.
Defined.

(** X8, on the commit [cDark]: its pull request carries no area label and the
    issue it closes carries [area/web]. *)
Lemma areas_fall_back_to_issue_witness :
  Areas Examples.noteDark = [str "web"].
Proof.
  rewrite (proj1 (proj2
             (areas_fall_back_to_issue Examples.prettySigs Examples.gh []
                Examples.cDark Examples.noteDark
                (Examples.pull 5678 (Examples.stanza (str "Dark mode"))
                   ["kind/feature"; "sig/ui"]%string)
                ltac:(vm_compute; reflexivity) ltac:(vm_compute; reflexivity)))
             {| IssueLabels := [str "bug"; str "area/web"] |}).
  - vm_compute. reflexivity.
  - exists 12, []. split; vm_compute; reflexivity.
  - vm_compute. reflexivity.
Defined.

(** X9, on the commit [cDark]: the kind and the SIG of the note. *)
Lemma note_labels_from_pull_request_witness :
  In (str "feature") (Kinds Examples.noteDark)
  /\ length (SIGs Examples.noteDark) = 1%nat.
Proof.
  destruct (note_labels_from_pull_request Examples.prettySigs Examples.gh []
              Examples.cDark Examples.noteDark
              (Examples.pull 5678 (Examples.stanza (str "Dark mode"))
                 ["kind/feature"; "sig/ui"]%string)
              ltac:(vm_compute; reflexivity) ltac:(vm_compute; reflexivity))
    as (Hk & _ & _ & Hs & _).
  split.
  - apply Hk. vm_compute. left. reflexivity.
  - rewrite Hs. vm_compute. reflexivity.
Defined.

(** X10, on the commit [cDark] with options that name another organisation and
    repository: the link still points into [netdata/netdata]. *)
Lemma note_links_and_markdown_witness :
  exists note,
    ReleaseNoteFromCommit Examples.prettySigs Examples.cDark Examples.gh
      [WithOrg (str "acme"); WithRepo (str "rocket")] = Ok note
    /\ PrUrl note = str "https://github.com/netdata/netdata/pull/5678"
    /\ Markdown note
       = str "Add dark mode toggle ([#5678](https://github.com/netdata/netdata/pull/5678), [@alice](https://github.com/alice)) Courtesy of sig/ui".
Proof.
  exists Examples.noteDark.
  assert (H : ReleaseNoteFromCommit Examples.prettySigs Examples.cDark Examples.gh
                [WithOrg (str "acme"); WithRepo (str "rocket")]
              = Ok Examples.noteDark) by (vm_compute; reflexivity).
  split; [exact H|].
  destruct (note_links_and_markdown Examples.prettySigs Examples.gh
              [WithOrg (str "acme"); WithRepo (str "rocket")]
              Examples.cDark Examples.noteDark
              (Examples.pull 5678 (Examples.stanza (str "Dark mode"))
                 ["kind/feature"; "sig/ui"]%string)
              H ltac:(vm_compute; reflexivity))
    as (_ & _ & _ & _ & Hurl & Hmd).
  split.
  - rewrite Hurl. vm_compute. reflexivity.
  - rewrite Hmd. vm_compute. reflexivity.
Defined.

(** ** White space and the first line *)

Lemma spaceRunes_nonempty w : In w spaceRunes -> w <> [].
Proof.
  unfold spaceRunes. cbn [In]. intros H Hw. subst w.
  repeat (destruct H as [H|H]; [discriminate|]). exact H.
Qed.

Lemma leadingSpace_None (s : gostring) :
  leadingSpace s = None <-> forall w, In w spaceRunes -> HasPrefix s w = false.
Proof.
  unfold leadingSpace. destruct (List.find (HasPrefix s) spaceRunes) as [w|] eqn:E.
  - split; [discriminate|]. intros H. apply List.find_some in E as (Hin & Hp).
    rewrite (H w Hin) in Hp. discriminate.
  - split; [|reflexivity]. intros _ w Hin.
    exact (List.find_none _ _ E w Hin).
Qed.

Lemma trailingSpace_None (s : gostring) :
  trailingSpace s = None
  <-> forall w, In w spaceRunes -> HasPrefix (rev s) (rev w) = false.
Proof.
  unfold trailingSpace.
  destruct (List.find (fun w => HasPrefix (rev s) (rev w)) spaceRunes) as [w|] eqn:E.
  - split; [discriminate|]. intros H. apply List.find_some in E as (Hin & Hp).
    rewrite (H w Hin) in Hp. discriminate.
  - split; [|reflexivity]. intros _ w Hin.
    exact (List.find_none _ _ E w Hin).
Qed.

Lemma leadingSpace_Some (s : gostring) n :
  leadingSpace s = Some n -> (1 <= n <= length s)%nat.
Proof.
  unfold leadingSpace.
  destruct (List.find (HasPrefix s) spaceRunes) as [w|] eqn:E; [|discriminate].
  intros [= <-]. apply List.find_some in E as (Hin & Hp).
  apply spaceRunes_nonempty in Hin. apply HasPrefix_spec in Hp as (t & ->).
  rewrite length_app. destruct w; [congruence|]. cbn [length]. lia.
Qed.

Lemma trailingSpace_Some (s : gostring) n :
  trailingSpace s = Some n -> (1 <= n <= length s)%nat.
Proof.
  unfold trailingSpace.
  destruct (List.find (fun w => HasPrefix (rev s) (rev w)) spaceRunes) as [w|] eqn:E;
    [|discriminate].
  intros [= <-]. apply List.find_some in E as (Hin & Hp).
  apply spaceRunes_nonempty in Hin. apply HasPrefix_spec in Hp as (t & Ht).
  apply (f_equal (@length ascii)) in Ht.
  rewrite length_app, !length_rev in Ht.
  destruct w; [congruence|]. cbn [length] in *. lia.
Qed.

Lemma trimLeftSpace_suffix n (s : gostring) :
  exists a, s = a ++ trimLeftSpace n s.
Proof.
  revert s. induction n as [|n IH]; intros s; cbn [trimLeftSpace]; [now exists []|].
  destruct (leadingSpace s) as [w|]; [|now exists []].
  destruct (IH (drop w s)) as (a & Ha). exists (take w s ++ a).
  rewrite <- app_assoc, <- Ha, take_drop. reflexivity.
Qed.

Lemma trimRightSpace_prefix n (s : gostring) :
  exists z, s = trimRightSpace n s ++ z.
Proof.
  revert s. induction n as [|n IH]; intros s; cbn [trimRightSpace];
    [exists []; now rewrite app_nil_r|].
  destruct (trailingSpace s) as [w|]; [|exists []; now rewrite app_nil_r].
  destruct (IH (take (length s - w) s)) as (z & Hz).
  exists (z ++ drop (length s - w) s).
  rewrite app_assoc, <- Hz, take_drop. reflexivity.
Qed.

Lemma trimLeftSpace_clean n (s : gostring) :
  (length s <= n)%nat -> leadingSpace (trimLeftSpace n s) = None.
Proof.
  revert s. induction n as [|n IH]; intros s Hl; cbn [trimLeftSpace].
  - destruct s; [|cbn [length] in Hl; lia]. vm_compute. reflexivity.
  - destruct (leadingSpace s) as [w|] eqn:E; [|exact E].
    apply leadingSpace_Some in E. apply IH. rewrite length_drop. lia.
Qed.

Lemma trimRightSpace_clean n (s : gostring) :
  (length s <= n)%nat -> trailingSpace (trimRightSpace n s) = None.
Proof.
  revert s. induction n as [|n IH]; intros s Hl; cbn [trimRightSpace].
  - destruct s; [|cbn [length] in Hl; lia]. vm_compute. reflexivity.
  - destruct (trailingSpace s) as [w|] eqn:E; [|exact E].
    apply trailingSpace_Some in E. apply IH. rewrite length_take. lia.
Qed.

Lemma leadingSpace_prefix (s z : gostring) :
  leadingSpace (s ++ z) = None -> leadingSpace s = None.
Proof.
  rewrite !leadingSpace_None. intros H w Hin. specialize (H w Hin).
  destruct (HasPrefix s w) eqn:E; [|reflexivity].
  apply HasPrefix_spec in E as (t & ->).
  rewrite <- app_assoc, HasPrefix_app in H. discriminate.
Qed.

Lemma trimLeftSpace_id n (s : gostring) :
  leadingSpace s = None -> trimLeftSpace n s = s.
Proof. intros H. destruct n; cbn [trimLeftSpace]; [|rewrite H]; reflexivity. Qed.

Lemma trimRightSpace_id n (s : gostring) :
  trailingSpace s = None -> trimRightSpace n s = s.
Proof. intros H. destruct n; cbn [trimRightSpace]; [|rewrite H]; reflexivity. Qed.

Lemma TrimSpace_clean (s : gostring) :
  leadingSpace (TrimSpace s) = None /\ trailingSpace (TrimSpace s) = None.
Proof.
  unfold TrimSpace. cbv zeta. split.
  - destruct (trimRightSpace_prefix (length (trimLeftSpace (length s) s))
                (trimLeftSpace (length s) s)) as (z & Hz).
    apply (leadingSpace_prefix _ z). rewrite <- Hz.
    apply trimLeftSpace_clean. lia.
  - apply trimRightSpace_clean. lia.
Qed.

Lemma TrimSpace_id (s : gostring) :
  leadingSpace s = None -> trailingSpace s = None -> TrimSpace s = s.
Proof.
  intros Hl Ht. unfold TrimSpace. cbv zeta.
  rewrite (trimLeftSpace_id _ _ Hl). apply trimRightSpace_id, Ht.
Qed.

Lemma TrimSpace_infix (s : gostring) : exists a z, s = a ++ TrimSpace s ++ z.
Proof.
  unfold TrimSpace. cbv zeta.
  destruct (trimLeftSpace_suffix (length s) s) as (a & Ha).
  destruct (trimRightSpace_prefix (length (trimLeftSpace (length s) s))
              (trimLeftSpace (length s) s)) as (z & Hz).
  exists a, z. rewrite <- Hz. exact Ha.
Qed.

Lemma IndexByte_Some (s : gostring) c i :
  IndexByte s c = Some i -> ~ In c (take i s) /\ (i < length s)%nat.
Proof.
  revert i. induction s as [|x s IH]; intros i; cbn [IndexByte]; [discriminate|].
  destruct (Ascii.eqb_spec x c) as [->|Hne].
  - intros [= <-]. cbn [take length]. split; [intros []|lia].
  - destruct (IndexByte s c) as [j|]; [|discriminate].
    intros [= <-]. destruct (IH j eq_refl) as (Hn & Hl).
    cbn [take length In]. split; [|lia]. intros [H|H]; [congruence|tauto].
Qed.

Lemma dropCR_prefix (s : gostring) : exists z, s = dropCR s ++ z.
Proof.
  unfold dropCR. destruct (rev s) as [|c r] eqn:E;
    [exists []; now rewrite app_nil_r|].
  destruct (Ascii.eqb c CR); [|exists []; now rewrite app_nil_r].
  exists [c]. rewrite <- (rev_involutive s), E. reflexivity.
Qed.

Lemma ScanFirstLine_shape (s : gostring) :
  ~ In LF (ScanFirstLine s)
  /\ (length (ScanFirstLine s) < MaxScanTokenSize)%nat
  /\ exists z, s = ScanFirstLine s ++ z.
Proof.
  unfold ScanFirstLine. cbv zeta.
  destruct (IndexByte (take MaxScanTokenSize s) LF) as [i|] eqn:E.
  - apply IndexByte_Some in E as (Hn & Hl).
    destruct (dropCR_prefix (take i (take MaxScanTokenSize s))) as (z & Hz).
    rewrite length_take in Hl.
    split; [|split].
    + intros H. apply Hn. rewrite Hz. apply in_or_app. now left.
    + apply (f_equal (@length ascii)) in Hz.
      rewrite length_app, !length_take in Hz. lia.
    + exists (z ++ drop i (take MaxScanTokenSize s) ++ drop MaxScanTokenSize s).
      rewrite app_assoc, <- Hz, app_assoc, !take_drop. reflexivity.
  - destruct (Nat.ltb_spec (length s) MaxScanTokenSize) as [Hl|Hl].
    + rewrite take_ge in E by lia. apply IndexByte_None in E.
      destruct (dropCR_prefix s) as (z & Hz).
      split; [|split].
      * intros H. apply E. rewrite Hz. apply in_or_app. now left.
      * apply (f_equal (@length ascii)) in Hz. rewrite length_app in Hz. lia.
      * exists z. exact Hz.
    + split; [intros []|]. split; [|now exists s].
      cbn [length]. unfold MaxScanTokenSize. lia.
Qed.

(** ** Deleting the matches of a pattern *)

Lemma ReplaceAllString_sublist r (s : gostring) :
  sublist (ReplaceAllString r s []) s.
Proof.
  remember (length s) as n eqn:Hn. revert s Hn.
  induction n as [n IH] using lt_wf_ind. intros s ->.
  rewrite ReplaceAllString_unfold.
  destruct (search r s) as [f|] eqn:E; [|reflexivity].
  apply search_Some in E as (Hs & _). cbn [app].
  rewrite Hs. apply sublist_app; [reflexivity|].
  apply (f_equal (@length ascii)) in Hs. rewrite !length_app in Hs.
  destruct (f_matched f) as [|m ms].
  - destruct (f_after f) as [|c rest]; [reflexivity|].
    cbn [app]. apply sublist_skip.
    apply (IH (length rest)); [cbn [length] in Hs; lia|reflexivity].
  - apply sublist_inserts_l.
    apply (IH (length (f_after f))); [cbn [length] in Hs; lia|reflexivity].
Qed.

Lemma sublist_In {X : Type} (l1 l2 : list X) (x : X) :
  sublist l1 l2 -> In x l1 -> In x l2.
Proof.
  intros H Hin. apply list_elem_of_In. apply list_elem_of_In in Hin.
  eapply sublist_subseteq; eassumption.
Qed.

Section NoteTextShape.

Variable prettifySigList : list gostring -> gostring.
Variable client : Client.
Variable opts : list githubApiOption.

(** X11: the text of an assembled note is one line that is already
    trimmed: it holds no newline, it is shorter than the 64 KiB buffer of
    the scanner, it neither starts nor ends with a white-space character,
    and trimming it again, as [ListReleaseNotes] does before it compares the
    text with [NONE], changes nothing. *)
Theorem note_text_is_trimmed_line commit note :
  ReleaseNoteFromCommit prettifySigList commit client opts = Ok note ->
  ~ In LF (Text note)
  /\ (length (Text note) < MaxScanTokenSize)%nat
  /\ (forall w t, In w spaceRunes ->
        Text note <> w ++ t /\ Text note <> t ++ w)
  /\ TrimSpace (Text note) = Text note.
Proof.
  intros Hn.
  destruct (ReleaseNoteFromCommit_Ok _ _ _ _ _ Hn)
    as (_ & _ & _ & _ & _ & Ht & _).
  set (line := ScanFirstLine (Message commit)) in *.
  destruct (ScanFirstLine_shape (Message commit)) as (Hlf & Hlen & _).
  fold line in Hlf, Hlen.
  pose proof (ReplaceAllString_sublist prExp line) as Hsub.
  destruct (TrimSpace_infix (ReplaceAllString prExp line [])) as (a & z & Hi).
  destruct (TrimSpace_clean (ReplaceAllString prExp line [])) as (Hl & Hr).
  rewrite <- Ht in Hi, Hl, Hr.
  split; [|split; [|split]].
  - intros H. apply Hlf. apply (sublist_In _ _ _ Hsub).
    rewrite Hi. apply in_or_app. right. apply in_or_app. now left.
  - apply sublist_length in Hsub. apply (f_equal (@length ascii)) in Hi.
    rewrite !length_app in Hi. lia.
  - intros w t Hin. split; intros He.
    + rewrite leadingSpace_None in Hl. specialize (Hl w Hin).
      rewrite He, HasPrefix_app in Hl. discriminate.
    + rewrite trailingSpace_None in Hr. specialize (Hr w Hin).
      rewrite He, rev_app_distr, HasPrefix_app in Hr. discriminate.
  - apply TrimSpace_id; assumption.
Qed.

End NoteTextShape.

(** X11, on the commit [cAgain], whose first line starts with a space and holds
    two spaces before the marker. *)
Lemma note_text_is_trimmed_line_witness :
  Text Examples.noteAgain = str "Add dark mode toggle"
  /\ TrimSpace (Text Examples.noteAgain) = Text Examples.noteAgain.
Proof.
  split; [vm_compute; reflexivity|].
  apply (note_text_is_trimmed_line Examples.prettySigs Examples.gh []
           Examples.cAgain Examples.noteAgain).
  vm_compute. reflexivity.
Defined.

(** ** Repeated commits in the list of notes *)

Lemma omap_sublist {A B : Type} (f : A -> option B) (l1 l2 : list A) :
  sublist l1 l2 -> sublist (omap f l1) (omap f l2).
Proof.
  induction 1 as [|x l1 l2 _ IH|x l1 l2 _ IH]; cbn [omap list_omap].
  - constructor.
  - destruct (f x); [apply sublist_skip|]; exact IH.
  - destruct (f x); [apply sublist_cons|]; exact IH.
Qed.

Lemma omap_flat_map_repeat {A B : Type} (f : A -> option B) (k : A -> nat)
    (l : list A) :
  omap f (flat_map (fun c => repeat c (k c)) l)
  = flat_map (fun c => match f c with
                       | Some y => repeat y (k c)
                       | None => []
                       end) l.
Proof.
  induction l as [|c l IH]; [reflexivity|].
  cbn [flat_map]. rewrite omap_app, IH. f_equal.
  induction (k c) as [|n IHn]; cbn [repeat omap list_omap].
  - destruct (f c); reflexivity.
  - fold (omap f (repeat c n)). rewrite IHn. destruct (f c); reflexivity.
Qed.

Lemma filter_repeat {A : Type} (p : A -> bool) (x : A) (n : nat) :
  List.filter p (repeat x n) = if p x then repeat x n else [].
Proof.
  induction n as [|n IH]; cbn [repeat List.filter]; [now destruct (p x)|].
  rewrite IH. destruct (p x); reflexivity.
Qed.

Lemma firstByText_app_cong (a x y : list ReleaseNote) :
  firstByText x = firstByText y -> firstByText (a ++ x) = firstByText (a ++ y).
Proof.
  intros H. induction a as [|n a IH]; [exact H|].
  cbn [app firstByText]. now rewrite IH.
Qed.

Lemma filter_idem {A : Type} (p : A -> bool) (l : list A) :
  List.filter p (List.filter p l) = List.filter p l.
Proof.
  rewrite filter_filter_and. apply List.filter_ext. intros x. now destruct (p x).
Qed.

Lemma firstByText_repeat (n : ReleaseNote) (k : nat) (x : list ReleaseNote) :
  firstByText (repeat n (S k) ++ x) = firstByText (n :: x).
Proof.
  induction k as [|k IH]; [reflexivity|].
  change (repeat n (S (S k)) ++ x) with (n :: (repeat n (S k) ++ x)).
  cbn [firstByText] in *. rewrite IH. cbn [List.filter].
  rewrite (proj2 (eqs_true (Text n) (Text n)) eq_refl). cbn [negb].
  rewrite filter_idem. reflexivity.
Qed.

Section RepeatsInList.

Variable prettifySigList : list gostring -> gostring.
Variable client : Client.
Variable opts : list githubApiOption.

Local Abbreviation LRN := (ListReleaseNotes prettifySigList client).
Local Abbreviation cands := (candidates prettifySigList client opts).
Local Abbreviation failed := (failure prettifySigList client opts).

Lemma candidates_repeat (c : RepositoryCommit) (k : nat) :
  cands (repeat c k)
  = match cands [c] with
    | n :: _ => repeat n k
    | [] => []
    end.
Proof.
  unfold candidates. cbn [omap list_omap].
  induction k as [|k IH]; cbn [repeat omap list_omap].
  - destruct (assembled prettifySigList client opts c) as [n|]; cbn [List.filter];
      [destruct (negb _)|]; reflexivity.
  - fold (omap (assembled prettifySigList client opts) (repeat c k)).
    destruct (assembled prettifySigList client opts c) as [n|]; cbn [List.filter] in *;
      [|exact IH].
    destruct (negb (isNONE n)); cbn [repeat]; [now rewrite IH|exact IH].
Qed.

Lemma candidates_single (c : RepositoryCommit) :
  cands [c] = [] \/ exists n, cands [c] = [n].
Proof.
  unfold candidates. cbn [omap list_omap].
  destruct (assembled prettifySigList client opts c) as [n|]; cbn [List.filter];
    [|now left].
  destruct (negb (isNONE n)); [right; now exists n | now left].
Qed.

Lemma firstByText_candidates_repeats (k : RepositoryCommit -> nat)
    (commits : list RepositoryCommit) :
  firstByText (cands (flat_map (fun c => repeat c (k c)) commits))
  = firstByText
      (cands (List.filter (fun c => negb (Nat.eqb (k c) 0)) commits)).
Proof.
  induction commits as [|c l IH]; [reflexivity|].
  cbn [flat_map List.filter]. rewrite candidates_app, candidates_repeat.
  destruct (k c) as [|n] eqn:Ek; cbn [Nat.eqb negb].
  - destruct (cands [c]); exact IH.
  - change (c :: List.filter (fun c0 => negb (Nat.eqb (k c0) 0)) l)
      with ([c] ++ List.filter (fun c0 => negb (Nat.eqb (k c0) 0)) l).
    rewrite candidates_app.
    destruct (candidates_single c) as [-> | (m & ->)].
    + exact IH.
    + rewrite firstByText_repeat. apply (firstByText_app_cong [m]). exact IH.
Qed.

Lemma ListReleaseNotes_of_range start end_ commits :
  ListCommits client start end_ opts = Ok commits ->
  LRN start end_ opts
  = (flat_map (fun c => match failed c with
                        | Some entry => repeat entry (copies client opts c)
                        | None => []
                        end) commits,
     Ok (firstByText
           (cands (List.filter
                     (fun c => negb (Nat.eqb (copies client opts c) 0))
                     commits)))).
Proof.
  intros H. rewrite ListReleaseNotes_eq.
  rewrite (proj1 (ListCommitsWithNotes_copies client opts _ _ _ H)).
  rewrite omap_flat_map_repeat, firstByText_candidates_repeats. reflexivity.
Qed.

(** X12: the commits that [ListCommitsWithNotes] returns more than once
    change no note: the list of notes is the one of the range in which every
    commit that passes the filter stands once, and it holds at most one note
    for each commit of the range, in their order. They do change the log: a
    commit whose assembly fails is logged as often as it is returned. *)
Theorem ListReleaseNotes_ignores_repeats start end_ commits log out :
  ListCommits client start end_ opts = Ok commits ->
  LRN start end_ opts = (log, Ok out) ->
  out = firstByText
          (cands (List.filter
                    (fun c => negb (Nat.eqb (copies client opts c) 0))
                    commits))
  /\ sublist out (omap (assembled prettifySigList client opts) commits)
  /\ (length out <= length commits)%nat
  /\ log = flat_map (fun c => match failed c with
                              | Some entry => repeat entry (copies client opts c)
                              | None => []
                              end) commits.
Proof.
  intros H Hl. rewrite (ListReleaseNotes_of_range _ _ _ H) in Hl.
  injection Hl as <- <-.
  assert (Hs : sublist
    (firstByText
       (cands (List.filter (fun c => negb (Nat.eqb (copies client opts c) 0))
                 commits)))
    (omap (assembled prettifySigList client opts) commits)).
  { etransitivity; [apply firstByText_sublist|].
    unfold candidates. etransitivity; [apply filter_sublist|].
    apply omap_sublist, filter_sublist. }
  split; [reflexivity|]. split; [exact Hs|]. split; [|reflexivity].
  apply sublist_length in Hs. etransitivity; [exact Hs|].
  clear. induction commits as [|c l IH]; [reflexivity|].
  cbn [omap list_omap length]. fold (omap (assembled prettifySigList client opts) l).
  destruct (assembled prettifySigList client opts c); cbn [length]; lia.
Qed.

End RepeatsInList.

(** X12, on the repository [gh]: [cDark] is returned twice and gives one note;
    [cLost] is returned once and logged once. *)
Lemma ListReleaseNotes_ignores_repeats_witness :
  [Examples.noteDark]
  = firstByText
      (candidates Examples.prettySigs Examples.gh []
         (List.filter
            (fun c => negb (Nat.eqb (copies Examples.gh [] c) 0))
            [Examples.cWidget; Examples.cDark; Examples.cPlain;
             Examples.cBot; Examples.cAgain; Examples.cLost])).
Proof.
  apply (ListReleaseNotes_ignores_repeats Examples.prettySigs Examples.gh []
           [] []
           [Examples.cWidget; Examples.cDark; Examples.cPlain;
            Examples.cBot; Examples.cAgain; Examples.cLost]
           [Examples.lostEntry] [Examples.noteDark]).
  - vm_compute. reflexivity.
  - vm_compute. reflexivity.
Defined.

Section UnresolvedInList.

Variable prettifySigList : list gostring -> gostring.
Variable client : Client.
Variable opts : list githubApiOption.

Local Abbreviation LRN := (ListReleaseNotes prettifySigList client).
Local Abbreviation cands := (candidates prettifySigList client opts).
Local Abbreviation failed := (failure prettifySigList client opts).

(** X13: a commit of the range, not authored by the bot, whose message
    holds a marker but whose pull request cannot be fetched (the remote call
    fails, or the number exceeds an [int]) passes the filter of
    [ListCommitsWithNotes] and then fails in [ReleaseNoteFromCommit]:
    [ListReleaseNotes] logs it exactly once, with the cause wrapped in a
    message that names its SHA, and returns the notes of the other
    commits. *)
Theorem unresolved_commit_logged_once start end_ pre c post e :
  ListCommits client start end_ opts = Ok (pre ++ c :: post) ->
  AuthorLogin c <> str "netdatabot" ->
  PRFromCommit client c opts = Err e ->
  e <> NoMatchPR ->
  let kept l := fold_left (filterCommit client opts) l [] in
  LRN start end_ opts
  = (omap failed (kept pre)
       ++ {| log_err := Wrapf (str "error parsing release note from commit "
                                 ++ SHA c) e;
             log_msg := str "error getting the release note from commit while listing release notes";
             log_sha := SHA c |}
       :: omap failed (kept post),
     Ok (firstByText (cands (kept pre ++ kept post)))).
Proof.
  intros H Hbot He Hne kept.
  rewrite ListReleaseNotes_eq, (ListCommitsWithNotes_split _ _ _ _ _ _ _ H).
  rewrite (copies_unresolved _ _ _ _ He Hne). fold (kept pre) (kept post).
  cbn [repeat app].
  assert (Hb : isBot c = false) by (apply eqs_false; exact Hbot).
  assert (Hf : failed c
               = Some {| log_err := Wrapf (str "error parsing release note from commit "
                                             ++ SHA c) e;
                         log_msg := str "error getting the release note from commit while listing release notes";
                         log_sha := SHA c |}).
  { unfold failure, ReleaseNoteFromCommit. rewrite Hb, He. reflexivity. }
  assert (Ha : assembled prettifySigList client opts c = None).
  { unfold assembled, ReleaseNoteFromCommit. rewrite Hb, He. reflexivity. }
  rewrite omap_app, (omap_cons_Some _ _ _ _ Hf).
  change (kept pre ++ c :: kept post) with (kept pre ++ [c] ++ kept post).
  rewrite !candidates_app.
  assert (Hc : cands [c] = []).
  { unfold candidates. rewrite (omap_cons_None _ _ _ Ha). reflexivity. }
  rewrite Hc. reflexivity.
Qed.

End UnresolvedInList.

(** X13, on the repository [gh]: the pull request of [cLost] is not found. *)
Lemma unresolved_commit_logged_once_witness :
  ListReleaseNotes Examples.prettySigs Examples.gh [] [] []
  = ([Examples.lostEntry], Ok [Examples.noteDark]).
Proof.
  rewrite (unresolved_commit_logged_once Examples.prettySigs Examples.gh []
             [] []
             [Examples.cWidget; Examples.cDark; Examples.cPlain;
              Examples.cBot; Examples.cAgain]
             Examples.cLost [] (Remote NotFoundError)
             ltac:(vm_compute; reflexivity) ltac:(discriminate)
             ltac:(vm_compute; reflexivity) ltac:(discriminate)).
  vm_compute. reflexivity.
Defined.

(** ** The helper [filterCommits] *)

Lemma skipCommit_compiled (rs : list regex) (include : bool) (body : gostring)
    (rest : list filterSource) :
  skipCommit (map Compiles rs ++ rest) include body
  = if passes rs include body then skipCommit rest include body else inr true.
Proof.
  induction rs as [|r rs IH]; [reflexivity|].
  cbn [map app skipCommit MatchStringSource passes forallb].
  fold (passes rs include body).
  destruct (MatchString r body), include; cbn [andb orb negb Bool.eqb];
    try reflexivity; exact IH.
Qed.

Lemma skipCommit_all_compiled (rs : list regex) (include : bool)
    (body : gostring) :
  skipCommit (map Compiles rs) include body
  = inr (negb (passes rs include body)).
Proof.
  rewrite <- (app_nil_r (map Compiles rs)), skipCommit_compiled.
  now destruct (passes rs include body).
Qed.

Section FilterCommitsFacts.

Variable client : Client.
Variable opts : list githubApiOption.

Lemma filterLoop_body commits filters include logged kept c :
  filterLoop client (c :: commits) filters include opts logged kept
  = match filterBody client opts c with
    | None =>
        filterLoop client commits filters include opts
          (logged ++ option_list (robotFailure client opts c)) kept
    | Some body =>
        match skipCommit filters include body with
        | inl err => (logged, inl err)
        | inr true =>
            filterLoop client commits filters include opts logged kept
        | inr false =>
            filterLoop client commits filters include opts logged (kept ++ [c])
        end
    end.
Proof.
  cbn [filterLoop]. unfold filterBody, robotFailure, isRobot.
  destruct (eqs (AuthorLogin c) (str "k8s-merge-robot")); [|reflexivity].
  destruct (PRFromCommit client c opts); reflexivity.
Qed.

Lemma robotFailure_body c b :
  filterBody client opts c = Some b -> robotFailure client opts c = None.
Proof.
  unfold filterBody, robotFailure. destruct (isRobot c); [|reflexivity].
  destruct (PRFromCommit client c opts); [reflexivity|discriminate].
Qed.

Lemma filterLoop_compiled commits rs include logged kept :
  filterLoop client commits (map Compiles rs) include opts logged kept
  = (logged ++ omap (robotFailure client opts) commits,
     inr (kept ++ List.filter (passing client opts rs include) commits)).
Proof.
  revert logged kept. induction commits as [|c commits IH]; intros logged kept.
  - cbn [filterLoop omap list_omap List.filter]. now rewrite !app_nil_r.
  - rewrite filterLoop_body. cbn [List.filter omap list_omap].
    fold (omap (robotFailure client opts) commits).
    destruct (filterBody client opts c) as [body|] eqn:Eb.
    + assert (Hp : passing client opts rs include c = passes rs include body)
        by (unfold passing; now rewrite Eb).
      rewrite (robotFailure_body _ _ Eb), Hp, skipCommit_all_compiled.
      destruct (passes rs include body); cbn [negb]; rewrite IH;
        rewrite ?app_nil_r, <- ?app_assoc; reflexivity.
    + assert (Hp : passing client opts rs include c = false)
        by (unfold passing; now rewrite Eb).
      rewrite IH, Hp. destruct (robotFailure client opts c);
        cbn [option_list]; [rewrite <- app_assoc|rewrite app_nil_r]; reflexivity.
Qed.

Lemma filterLoop_malformed_none commits pre err post include logged kept :
  (forall c, In c commits -> passing client opts pre include c = false) ->
  filterLoop client commits (map Compiles pre ++ Malformed err :: post)
    include opts logged kept
  = (logged ++ omap (robotFailure client opts) commits, inr kept).
Proof.
  revert logged. induction commits as [|c commits IH]; intros logged Hnone.
  - cbn [filterLoop omap list_omap]. now rewrite app_nil_r.
  - rewrite filterLoop_body. cbn [omap list_omap].
    fold (omap (robotFailure client opts) commits).
    pose proof (Hnone c (or_introl eq_refl)) as Hp. unfold passing in Hp.
    assert (Hrest : forall c', In c' commits ->
                      passing client opts pre include c' = false)
      by (intros c' Hc'; apply Hnone; now right).
    destruct (filterBody client opts c) as [body|] eqn:Eb.
    + rewrite skipCommit_compiled, Hp, (robotFailure_body _ _ Eb).
      apply IH, Hrest.
    + rewrite (IH _ Hrest). destruct (robotFailure client opts c);
        cbn [option_list]; rewrite <- ?app_assoc, ?app_nil_r; reflexivity.
Qed.

Lemma filterLoop_malformed_first before c after pre err post include logged kept :
  (forall x, In x before -> passing client opts pre include x = false) ->
  passing client opts pre include c = true ->
  filterLoop client (before ++ c :: after)
    (map Compiles pre ++ Malformed err :: post) include opts logged kept
  = (logged ++ omap (robotFailure client opts) before, inl err).
Proof.
  intros Hnone Hc. revert logged.
  induction before as [|x before IH]; intros logged.
  - cbn [app omap list_omap]. rewrite filterLoop_body, app_nil_r.
    unfold passing in Hc. destruct (filterBody client opts c) as [body|];
      [|discriminate].
    rewrite skipCommit_compiled, Hc. reflexivity.
  - cbn [app]. rewrite filterLoop_body. cbn [omap list_omap].
    fold (omap (robotFailure client opts) before).
    pose proof (Hnone x (or_introl eq_refl)) as Hp. unfold passing in Hp.
    assert (Hrest : forall x', In x' before ->
                      passing client opts pre include x' = false)
      by (intros x' Hx'; apply Hnone; now right).
    destruct (filterBody client opts x) as [body|] eqn:Eb.
    + rewrite skipCommit_compiled, Hp, (robotFailure_body _ _ Eb).
      apply IH, Hrest.
    + rewrite (IH Hrest). destruct (robotFailure client opts x);
        cbn [option_list]; rewrite <- ?app_assoc, ?app_nil_r; reflexivity.
Qed.

Lemma filters_cases (filters : list filterSource) :
  (exists rs, filters = map Compiles rs)
  \/ exists pre err post, filters = map Compiles pre ++ Malformed err :: post.
Proof.
  induction filters as [|[r|err] fs IH].
  - left. now exists [].
  - destruct IH as [(rs & ->) | (pre & err & post & ->)].
    + left. now exists (r :: rs).
    + right. now exists (r :: pre), err, post.
  - right. now exists [], err, fs.
Qed.

Lemma first_passing {X : Type} (p : X -> bool) (l : list X) :
  (forall x, In x l -> p x = false)
  \/ exists before c after,
       l = before ++ c :: after
       /\ (forall x, In x before -> p x = false) /\ p c = true.
Proof.
  induction l as [|x l IH]; [left; intros x []|].
  destruct (p x) eqn:E.
  - right. exists [], x, l. split; [reflexivity|]. split; [intros y []|exact E].
  - destruct IH as [H | (before & c & after & -> & Hb & Hc)].
    + left. intros y [<-|Hy]; [exact E|now apply H].
    + right. exists (x :: before), c, after. split; [reflexivity|].
      split; [|exact Hc]. intros y [<-|Hy]; [exact E|now apply Hb].
Qed.

(** X14: with filters that all compile, [filterCommits] never fails. It
    keeps, in their order and each one at most once, the commits whose text
    (the message, or for a commit of the merge robot the body of its pull
    request) matches none of the patterns when [include] is false, and
    matches every one of the patterns when [include] is true. A commit
    of the merge robot whose pull request cannot be fetched is dropped and
    logged. *)
Theorem filterCommits_compiled commits rs include :
  filterCommits client commits (map Compiles rs) include opts
  = (omap (robotFailure client opts) commits,
     inr (List.filter (passing client opts rs include) commits))
  /\ (forall c body,
        filterBody client opts c = Some body ->
        (passing client opts rs false c = true
         <-> forall r, In r rs -> MatchString r body = false)
        /\ (passing client opts rs true c = true
            <-> forall r, In r rs -> MatchString r body = true))
  /\ (forall c, filterBody client opts c = None ->
        passing client opts rs include c = false).
Proof.
  split; [apply filterLoop_compiled|]. split.
  - intros c body Hb. unfold passing, passes. rewrite Hb, !forallb_forall.
    split; split; intros H r Hr; specialize (H r Hr);
      destruct (MatchString r body); cbn [Bool.eqb] in *; congruence.
  - intros c Hb. unfold passing. now rewrite Hb.
Qed.

(** X15: whatever the filters are, the commits that [filterCommits] returns
    are commits of the input, in the order of the input and each one as
    often as the input holds it at most; a commit of the merge robot whose
    pull request cannot be fetched is never among them. *)
Theorem filterCommits_sublist commits filters include log kept :
  filterCommits client commits filters include opts = (log, inr kept) ->
  sublist kept commits
  /\ (length kept <= length commits)%nat
  /\ forall c, In c kept -> exists body, filterBody client opts c = Some body.
Proof.
  unfold filterCommits.
  destruct (filters_cases filters) as [(rs & ->) | (pre & err & post & ->)].
  - rewrite filterLoop_compiled. intros [= <- <-]. cbn [app].
    pose proof (filter_sublist (passing client opts rs include) commits) as Hs.
    split; [exact Hs|]. split; [apply sublist_length, Hs|].
    intros c Hc. apply List.filter_In in Hc as (_ & Hp). unfold passing in Hp.
    destruct (filterBody client opts c) as [body|]; [now exists body|discriminate].
  - destruct (first_passing (passing client opts pre include) commits)
      as [Hnone | (before & c & after & -> & Hb & Hc)].
    + rewrite (filterLoop_malformed_none _ _ _ _ _ _ _ Hnone).
      intros [= <- <-]. split; [apply sublist_nil_l|].
      split; [cbn [length]; lia|]. intros c [].
    + rewrite (filterLoop_malformed_first _ _ _ _ _ _ _ _ _ Hb Hc). discriminate.
Qed.

(** X16: [filterCommits] fails when a commit reaches a filter that does not
    compile. With a first such filter, the first commit whose text passes
    all the filters before it ends the run with the error of that filter;
    the records logged until then are kept and no commit is returned. When
    no commit passes the filters before it, the run succeeds and returns no
    commit. *)
Theorem filterCommits_malformed commits pre err post include :
  let filters := map Compiles pre ++ Malformed err :: post in
  (forall before c after,
     commits = before ++ c :: after ->
     (forall x, In x before -> passing client opts pre include x = false) ->
     passing client opts pre include c = true ->
     filterCommits client commits filters include opts
     = (omap (robotFailure client opts) before, inl err))
  /\ ((forall c, In c commits -> passing client opts pre include c = false) ->
      filterCommits client commits filters include opts
      = (omap (robotFailure client opts) commits, inr []))
  /\ (forall log e,
        filterCommits client commits filters include opts = (log, inl e) ->
        e = err).
Proof.
  intros filters. unfold filterCommits, filters. split; [|split].
  - intros before c after -> Hb Hc.
    apply (filterLoop_malformed_first _ _ _ _ _ _ _ [] [] Hb Hc).
  - intros Hnone. apply (filterLoop_malformed_none _ _ _ _ _ [] [] Hnone).
  - intros log e.
    destruct (first_passing (passing client opts pre include) commits)
      as [Hnone | (before & c & after & -> & Hb & Hc)].
    + rewrite (filterLoop_malformed_none _ _ _ _ _ _ _ Hnone). discriminate.
    + rewrite (filterLoop_malformed_first _ _ _ _ _ _ _ _ _ Hb Hc).
      now intros [= _ <-].
Qed.

End FilterCommitsFacts.

(** X14, with the pattern [Merge] and [include] false: the message of [cPlain]
    matches and the commit goes; [cRobot] is tested on the body of its pull
    request and stays; the pull request of [cRobotLost] is not found. *)
Lemma filterCommits_compiled_witness :
  filterCommits Examples.gh
    [Examples.cWidget; Examples.cRobot; Examples.cRobotLost; Examples.cPlain]
    [Compiles (Lit (str "Merge"))] false []
  = ([Examples.robotEntry], inr [Examples.cWidget; Examples.cRobot]).
Proof.
  etransitivity.
  - exact (proj1 (filterCommits_compiled Examples.gh []
                    [Examples.cWidget; Examples.cRobot; Examples.cRobotLost;
                     Examples.cPlain]
                    [Lit (str "Merge")] false)).
  - vm_compute. reflexivity.
Defined.

(** X15, on the same run: the two commits that are kept, in the order of the
    input. *)
Lemma filterCommits_sublist_witness :
  sublist [Examples.cWidget; Examples.cRobot]
    [Examples.cWidget; Examples.cRobot; Examples.cRobotLost; Examples.cPlain].
Proof.
  apply (filterCommits_sublist Examples.gh []
           [Examples.cWidget; Examples.cRobot; Examples.cRobotLost;
            Examples.cPlain]
           [Compiles (Lit (str "Merge"))] false
           [Examples.robotEntry] [Examples.cWidget; Examples.cRobot]).
  vm_compute. reflexivity.
Defined.

(** X16, with the pattern [Merge], a filter that does not compile and [include]
    true: [cPlain] is the first commit whose text matches [Merge]. *)
Lemma filterCommits_malformed_witness :
  filterCommits Examples.gh
    [Examples.cWidget; Examples.cRobotLost; Examples.cPlain; Examples.cDark]
    [Compiles (Lit (str "Merge")); Malformed (syntaxError (str "missing closing )"))]
    true []
  = ([Examples.robotEntry], inl (syntaxError (str "missing closing )"))).
Proof.
  etransitivity.
  - refine (proj1 (filterCommits_malformed Examples.gh []
                     [Examples.cWidget; Examples.cRobotLost; Examples.cPlain;
                      Examples.cDark]
                     [Lit (str "Merge")] (syntaxError (str "missing closing )"))
                     [] true)
              [Examples.cWidget; Examples.cRobotLost] Examples.cPlain
              [Examples.cDark] eq_refl _ _).
    + intros x [<-|[<-|[]]]; vm_compute; reflexivity.
    + vm_compute. reflexivity.
  - vm_compute. reflexivity.
Defined.

(** ** The note of a stanza *)

Lemma TrimLeftBytes_suffix (s cutset : gostring) :
  exists a, s = a ++ TrimLeftBytes s cutset.
Proof.
  induction s as [|c s IH]; [now exists []|]. cbn [TrimLeftBytes].
  destruct (existsb (Ascii.eqb c) cutset); [|now exists []].
  destruct IH as (a & Ha). exists (c :: a). cbn [app]. now rewrite <- Ha.
Qed.

Lemma TrimRight_prefix (s cutset : gostring) :
  exists z, s = TrimRight s cutset ++ z.
Proof.
  unfold TrimRight. destruct (TrimLeftBytes_suffix (rev s) cutset) as (a & Ha).
  exists (rev a). rewrite <- rev_app_distr, <- Ha, rev_involutive. reflexivity.
Qed.

Lemma cleanNote_sublist (note : gostring) : sublist (cleanNote note) note.
Proof.
  unfold cleanNote, stripStar, stripActionRequired, actionRequiredExps.
  cbn [fold_left].
  etransitivity; [apply ReplaceAllString_sublist|].
  etransitivity; [apply ReplaceAllString_sublist|].
  etransitivity; [apply ReplaceAllString_sublist|].
  destruct (TrimRight_prefix note [CR]) as (z & Hz).
  rewrite Hz at 2. apply sublist_inserts_r. reflexivity.
Qed.

Lemma noteTextLoop_Ok (l : list (gostring * gostring)) (s x : gostring) :
  noteTextLoop (map (fun oc => stanzaExp (fst oc) (snd oc)) l) s = Ok x ->
  exists o c f,
    In (o, c) l /\ search (stanzaExp o c) s = Some f
    /\ x = cleanNote (capLookup 1 (f_caps f)).
Proof.
  induction l as [|[o c] l IH]; [discriminate|].
  cbn [map fst snd]. rewrite noteTextLoop_cons.
  destruct (search (stanzaExp o c) s) as [f|] eqn:E.
  - intros [= <-]. exists o, c, f. split; [now left|]. split; [exact E|reflexivity].
  - intros H. destruct (IH H) as (o' & c' & f & Hin & Hs & Hx).
    exists o', c', f. split; [now right|]. split; assumption.
Qed.

(** X17: a note that [NoteTextFromString] returns is made of bytes of the
    input, in their order: it is a subsequence of the note of one stanza
    that occurs in the input, since trimming the carriage returns and
    removing the markers only delete. The note of a stanza stands on one
    line, and the result holds no newline. *)
Theorem NoteTextFromString_single_line (s x : gostring) :
  NoteTextFromString s = Ok x ->
  ~ In LF x
  /\ sublist x s
  /\ exists o c pre note rest,
       In (o, c) stanzas
       /\ s = pre ++ o ++ note ++ c ++ rest
       /\ forallb notLF note = true
       /\ sublist x note.
Proof.
  unfold NoteTextFromString. rewrite noteExps_stanzas. intros H.
  apply noteTextLoop_Ok in H as (o & c & f & Hin & Hs & ->).
  pose proof (stanzas_closerShape _ _ Hin) as Hc.
  destruct (firstStanza_of_search _ _ _ _ Hc Hs)
    as (Heq & (note & Hm & Hne & Hlf & _ & Hcs) & _).
  injection Hcs as Hn.
  apply app_inv_head in Hm. apply app_inv_tail in Hm. subst note.
  pose proof (cleanNote_sublist (capLookup 1 (f_caps f))) as Hsub.
  assert (Hs' : sublist (capLookup 1 (f_caps f)) s).
  { rewrite Heq, <- !app_assoc. do 2 apply sublist_inserts_l.
    apply sublist_inserts_r. reflexivity. }
  split; [|split].
  - intros Hx. apply (sublist_In _ _ _ Hsub) in Hx.
    rewrite forallb_forall in Hlf. specialize (Hlf _ Hx).
    vm_compute in Hlf. discriminate.
  - etransitivity; eassumption.
  - exists o, c, (f_before f), (capLookup 1 (f_caps f)), (f_after f).
    split; [exact Hin|]. split; [|split; [exact Hlf|exact Hsub]].
    rewrite Heq, <- !app_assoc. reflexivity.
Qed.

(** X17, on a body whose note stands in a bare fence. *)
Lemma NoteTextFromString_single_line_witness :
  sublist (str "renew the keys")
    (str "See below." ++ CRLF ++ fence ++ CRLF
       ++ str "* [Action Required] renew the * keys" ++ CRLF ++ fence).
Proof.
  apply (NoteTextFromString_single_line
           (str "See below." ++ CRLF ++ fence ++ CRLF
              ++ str "* [Action Required] renew the * keys" ++ CRLF ++ fence)
           (str "renew the keys")).
  vm_compute. reflexivity.
Defined.

(** ** References to issues *)

Lemma FoldChar_eq c :
  FoldChar c
  = match specialFold c with
    | Some l => Alt (Cls (foldClass c)) (Lit l)
    | None => Cls (foldClass c)
    end.
Proof.
  destruct c as [[] [] [] [] [] [] [] []]; reflexivity.
Qed.

Section FoldFacts.

Context {A : Type}.

Lemma run_FoldChar_sound c (s : gostring) cs (k : gostring -> caps -> option A) r :
  run (FoldChar c) s cs k = Some r ->
  exists x s', s = x ++ s' /\ foldChar c x /\ k s' cs = Some r.
Proof.
  rewrite FoldChar_eq. unfold foldChar.
  destruct (specialFold c) as [l|] eqn:El.
  - cbn [run].
    destruct (match s with
              | [] => None
              | c0 :: s' => if cmatch (foldClass c) c0 then k s' cs else None
              end) as [r0|] eqn:E1.
    + intros [= <-]. destruct s as [|y s']; [discriminate|].
      destruct (cmatch (foldClass c) y) eqn:Ey; [|discriminate].
      exists [y], s'. split; [reflexivity|]. split; [|exact E1].
      left. exists y. auto.
    + rewrite run_Lit. destruct (HasPrefix s l) eqn:Hp; [|discriminate].
      intros H. apply HasPrefix_inv in Hp.
      exists l, (drop (length l) s). split; [exact Hp|]. split; [|exact H].
      right. reflexivity.
  - cbn [run]. destruct s as [|y s']; [discriminate|].
    destruct (cmatch (foldClass c) y) eqn:Ey; [|discriminate].
    intros H. exists [y], s'. split; [reflexivity|]. split; [|exact H].
    left. exists y. auto.
Qed.

Lemma run_FoldChar_complete c x (s' : gostring) cs
    (k : gostring -> caps -> option A) :
  foldChar c x -> k s' cs <> None -> run (FoldChar c) (x ++ s') cs k <> None.
Proof.
  rewrite FoldChar_eq. unfold foldChar.
  intros [(y & -> & Hy) | Hs] Hk.
  - unfold sameFold in Hy.
    destruct (specialFold c); cbn [run app]; rewrite Hy;
      [destruct (k s' cs); [discriminate|contradiction] | exact Hk].
  - rewrite Hs. cbn [run].
    destruct (match x ++ s' with
              | [] => None
              | c0 :: s'0 => if cmatch (foldClass c) c0 then k s'0 cs else None
              end); [discriminate|].
    rewrite run_Lit, HasPrefix_app, drop_app_length. exact Hk.
Qed.

Lemma run_ILit_sound w (s : gostring) cs (k : gostring -> caps -> option A) r :
  run (ILit w) s cs k = Some r ->
  exists m s', s = m ++ s' /\ foldWord w m /\ k s' cs = Some r.
Proof.
  revert s. induction w as [|c w IH]; intros s.
  - cbn [ILit run]. intros H. exists [], s. split; [reflexivity|].
    split; [constructor|exact H].
  - cbn [ILit]. rewrite run_Cat. intros H.
    apply run_FoldChar_sound in H as (x & s1 & -> & Hx & H).
    apply IH in H as (m & s' & -> & Hm & H).
    exists (x ++ m), s'. split; [now rewrite app_assoc|].
    split; [now constructor|exact H].
Qed.

Lemma run_ILit_complete w m (s' : gostring) cs
    (k : gostring -> caps -> option A) :
  foldWord w m -> k s' cs <> None -> run (ILit w) (m ++ s') cs k <> None.
Proof.
  intros Hm Hk. induction Hm as [|c w x m Hx Hm IH]; [exact Hk|].
  cbn [ILit]. rewrite run_Cat, <- app_assoc.
  apply run_FoldChar_complete; assumption.
Qed.

Lemma run_Alts_ILit_sound (ws : list gostring) (s : gostring) cs
    (k : gostring -> caps -> option A) r :
  ws <> [] ->
  run (Alts (map ILit ws)) s cs k = Some r ->
  exists w m s',
    In w ws /\ s = m ++ s' /\ foldWord w m /\ k s' cs = Some r.
Proof.
  induction ws as [|w ws IH]; [congruence|]. intros _.
  destruct ws as [|w2 ws].
  - cbn [map Alts]. intros H. apply run_ILit_sound in H as (m & s' & H1 & H2 & H3).
    exists w, m, s'. split; [now left|auto].
  - change (Alts (map ILit (w :: w2 :: ws)))
      with (Alt (ILit w) (Alts (map ILit (w2 :: ws)))).
    cbn [run]. destruct (run (ILit w) s cs k) as [r0|] eqn:E.
    + intros [= <-]. apply run_ILit_sound in E as (m & s' & H1 & H2 & H3).
      exists w, m, s'. split; [now left|auto].
    + intros H. apply IH in H as (w' & m & s' & Hin & H); [|discriminate].
      exists w', m, s'. split; [now right|exact H].
Qed.

Lemma run_Alts_ILit_complete (ws : list gostring) w m (s' : gostring) cs
    (k : gostring -> caps -> option A) :
  In w ws -> foldWord w m -> k s' cs <> None ->
  run (Alts (map ILit ws)) (m ++ s') cs k <> None.
Proof.
  intros Hin Hm Hk. induction ws as [|w1 ws IH]; [contradiction|].
  destruct ws as [|w2 ws].
  - destruct Hin as [->|[]]. cbn [map Alts]. now apply run_ILit_complete.
  - change (Alts (map ILit (w1 :: w2 :: ws)))
      with (Alt (ILit w1) (Alts (map ILit (w2 :: ws)))).
    cbn [run]. destruct (run (ILit w1) (m ++ s') cs k) eqn:E; [discriminate|].
    destruct Hin as [->|Hin].
    + exfalso. revert E. now apply run_ILit_complete.
    + apply IH, Hin.
Qed.

End FoldFacts.

Lemma star_loop_total {A : Type} p (s : gostring) (k : gostring -> option A) :
  (forall s', k s' <> None) -> star_loop p s k = k (dropRun p s).
Proof.
  intros Hk. induction s as [|c s IH]; [reflexivity|].
  cbn [star_loop dropRun]. destruct (p c); [|reflexivity].
  rewrite IH. destruct (k (dropRun p s)) eqn:E; [reflexivity|].
  now apply Hk in E.
Qed.

(** The digits of a number at the start of [s], up to the last one. *)
Lemma run_number_last (s : gostring) cs :
  run (Group 2 (str "number") (Plus CDigit)) s cs (fun s' cs' => Some (s', cs'))
  = match s with
    | c :: _ =>
        if isDigit c
        then Some (dropRun isDigit s, (2%nat, takeRun isDigit s) :: cs)
        else None
    | [] => None
    end.
Proof.
  destruct s as [|c s]; [reflexivity|].
  cbn [run Plus]. change (cmatch CDigit) with isDigit.
  destruct (isDigit c) eqn:Ec; [|reflexivity].
  rewrite star_loop_total by discriminate.
  pose proof (take_takeRun isDigit (c :: s)) as Ht.
  cbn [dropRun takeRun] in *. rewrite Ec in *. now rewrite Ht.
Qed.

Lemma run_Opt {A : Type} r (s : gostring) cs
    (k : gostring -> caps -> option A) :
  run (Opt r) s cs k
  = match run r s cs k with
    | Some x => Some x
    | None => k s cs
    end.
Proof. reflexivity. Qed.

Lemma run_byte {A : Type} (c : ascii) (s : gostring) cs
    (k : gostring -> caps -> option A) :
  isUpper c || isLower c = false ->
  run (ILit [c]) s cs k
  = match s with
    | x :: s' => if Ascii.eqb c x then k s' cs else None
    | [] => None
    end.
Proof.
  intros Hc. cbn [ILit]. rewrite run_Cat. unfold FoldChar. rewrite Hc.
  destruct s as [|x s']; reflexivity.
Qed.

Lemma referenceTail_spec (s1 rest : gostring) cs1 cs :
  run referenceTail s1 cs1 (fun s' cs' => Some (s', cs')) = Some (rest, cs)
  <-> exists h ds,
        s1 = str " " ++ h ++ ds ++ rest /\ (h = [] \/ h = str "#")
        /\ allDigits ds /\ stops isDigit rest /\ cs = (2%nat, ds) :: cs1.
Proof.
  unfold referenceTail. change (str " ") with [" "%char].
  change (str "#") with ["#"%char].
  rewrite run_Cat, run_byte by reflexivity.
  assert (Hnum : forall (d : ascii) (u : gostring),
            isDigit d = true ->
            allDigits (takeRun isDigit (d :: u))).
  { intros d u Hd. split; [apply takeRun_forallb|].
    cbn [takeRun]. rewrite Hd. discriminate. }
  split.
  - destruct s1 as [|sp s2]; [discriminate|].
    destruct (Ascii.eqb_spec " "%char sp) as [Esp|]; [|discriminate].
    subst sp. rewrite run_Cat, run_Opt.
    rewrite run_byte by reflexivity. rewrite !run_number_last.
    destruct s2 as [|hh s3]; [discriminate|].
    destruct (Ascii.eqb_spec "#"%char hh) as [Eh|Eh].
    + subst hh. rewrite run_number_last. change (isDigit "#") with false.
      destruct s3 as [|d u]; [discriminate|].
      destruct (isDigit d) eqn:Ed; [|discriminate].
      intros [= <- <-]. exists ["#"%char], (takeRun isDigit (d :: u)).
      split.
      { cbn [app]. do 2 f_equal. symmetry.
        exact (takeRun_dropRun isDigit (d :: u)). }
      split; [now right|]. split; [exact (Hnum d u Ed)|].
      split; [exact (dropRun_stops isDigit (d :: u))|reflexivity].
    + destruct (isDigit hh) eqn:Ed; [|discriminate].
      intros [= <- <-]. exists [], (takeRun isDigit (hh :: s3)).
      split.
      { cbn [app]. f_equal. symmetry.
        exact (takeRun_dropRun isDigit (hh :: s3)). }
      split; [now left|]. split; [exact (Hnum hh s3 Ed)|].
      split; [exact (dropRun_stops isDigit (hh :: s3))|reflexivity].
  - intros (h & ds & -> & Hh & (Hd & Hne) & Hst & ->).
    destruct (run_app isDigit ds rest Hd Hst) as (Ht & Hr).
    destruct ds as [|d ds]; [contradiction|].
    pose proof Hd as Hd1. cbn [forallb] in Hd1.
    apply andb_true_iff in Hd1 as [Hd1 _].
    cbn [app]. change (Ascii.eqb " " " ") with true. cbv iota.
    rewrite run_Cat, run_Opt, run_byte by reflexivity.
    rewrite !run_number_last.
    destruct Hh as [-> | ->]; cbn [app].
    + destruct (Ascii.eqb_spec "#"%char d) as [E|E].
      * subst d. discriminate.
      * rewrite Hd1. change (d :: ds ++ rest) with ((d :: ds) ++ rest).
        now rewrite Ht, Hr.
    + change (Ascii.eqb "#" "#") with true. cbv iota.
      rewrite run_number_last, Hd1.
      change (d :: ds ++ rest) with ((d :: ds) ++ rest). now rewrite Ht, Hr.
Qed.

Lemma keywords_letters kw :
  In kw CloseIssueKeywords -> forallb isLetter (str kw) = true.
Proof.
  unfold CloseIssueKeywords. cbn [In].
  intros H. repeat (destruct H as [<-|H]; [reflexivity|]). contradiction.
Qed.

Lemma foldChar_no_space c x :
  isLetter c = true -> foldChar c x -> ~ In " "%char x.
Proof.
  intros Hc [(y & -> & Hy) | Hs] Hin.
  - destruct Hin as [Hin|[]]. subst y. revert Hc Hy.
    destruct c as [[] [] [] [] [] [] [] []]; vm_compute; congruence.
  - unfold specialFold in Hs.
    destruct (Ascii.eqb (toLower c) "s");
      [|destruct (Ascii.eqb (toLower c) "k")]; try discriminate;
      injection Hs as <-; vm_compute in Hin; intuition discriminate.
Qed.

Lemma foldWord_no_space w m :
  forallb isLetter w = true -> foldWord w m -> ~ In " "%char m.
Proof.
  intros Hw Hm. induction Hm as [|c w x m Hx Hm IH]; [intros []|].
  cbn [forallb] in Hw. apply andb_true_iff in Hw as [Hc Hw].
  intros Hin. apply in_app_or in Hin as [Hin|Hin].
  - exact (foldChar_no_space _ _ Hc Hx Hin).
  - exact (IH Hw Hin).
Qed.

Lemma split_at_first {X : Type} (sp : X) (w w' a a' : list X) :
  ~ In sp w -> ~ In sp w' -> w ++ sp :: a = w' ++ sp :: a' ->
  w = w' /\ a = a'.
Proof.
  revert w'. induction w as [|x w IH]; intros [|x' w'] Hw Hw' H.
  - injection H as ->. auto.
  - injection H as <- _. exfalso. apply Hw'. now left.
  - injection H as -> _. exfalso. apply Hw. now left.
  - injection H as -> H. destruct (IH w') as [-> ->]; auto.
    + intros Hin. apply Hw. now right.
    + intros Hin. apply Hw'. now right.
Qed.

Lemma match_at_issueExp_run (t : gostring) :
  match_at issueExp t
  = run (Alts (map ILit (map str CloseIssueKeywords))) t []
      (fun s' cs' =>
         run referenceTail s'
           ((1%nat, take (length t - length s') t) :: cs')
           (fun s'' cs'' => Some (s'', cs''))).
Proof. reflexivity. Qed.

Lemma Reference_unique (t m m' rest rest' : gostring) cs cs' :
  t = m ++ rest -> Reference m cs rest ->
  t = m' ++ rest' -> Reference m' cs' rest' ->
  rest = rest' /\ cs = cs'.
Proof.
  intros -> (kw & w & h & ds & Hkw & Hw & Hh & (Hd & Hne) & Hst & -> & ->)
         Ht (kw' & w' & h' & ds' & Hkw' & Hw' & Hh' & (Hd' & Hne') & Hst' & -> & ->).
  rewrite <- !app_assoc in Ht. change (str " ") with [" "%char] in Ht.
  cbn [app] in Ht.
  apply split_at_first in Ht as [-> Ht];
    [|exact (foldWord_no_space _ _ (keywords_letters _ Hkw) Hw)
     |exact (foldWord_no_space _ _ (keywords_letters _ Hkw') Hw')].
  assert (Hnum : ds ++ rest = ds' ++ rest').
  { destruct ds as [|d ds]; [contradiction|].
    destruct ds' as [|d' ds']; [contradiction|].
    pose proof Hd as Hd1. pose proof Hd' as Hd1'. cbn [forallb] in Hd1, Hd1'.
    apply andb_true_iff in Hd1 as [Hd1 _].
    apply andb_true_iff in Hd1' as [Hd1' _].
    change (str "#") with ["#"%char] in Hh, Hh'.
    destruct Hh as [-> | ->], Hh' as [-> | ->]; cbn [app] in Ht.
    - exact Ht.
    - injection Ht as -> _. discriminate.
    - injection Ht as <- _. discriminate.
    - cbn [app]. congruence. }
  destruct (run_app isDigit ds rest Hd Hst) as (H1 & H2).
  destruct (run_app isDigit ds' rest' Hd' Hst') as (H1' & H2').
  rewrite Hnum in H1, H2. rewrite H1' in H1. rewrite H2' in H2. subst.
  auto.
Qed.

Lemma match_at_issueExp_Reference (t rest : gostring) cs :
  match_at issueExp t = Some (rest, cs)
  <-> exists m, t = m ++ rest /\ Reference m cs rest.
Proof.
  assert (Hsound : forall rest cs,
            match_at issueExp t = Some (rest, cs) ->
            exists m, t = m ++ rest /\ Reference m cs rest).
  { intros rest0 cs0. rewrite match_at_issueExp_run. intros H.
    apply run_Alts_ILit_sound in H as (w & m & s' & Hin & -> & Hm & H);
      [|discriminate].
    rewrite take_matched in H.
    apply referenceTail_spec in H as (h & ds & -> & Hh & Hd & Hst & ->).
    apply in_map_iff in Hin as (kw & <- & Hkw).
    exists (m ++ str " " ++ h ++ ds). split; [now rewrite <- !app_assoc|].
    exists kw, m, h, ds. auto 10. }
  split; [apply Hsound|].
  intros (m & Ht & Href).
  destruct (match_at issueExp t) as [[rest' cs']|] eqn:E.
  - destruct (Hsound _ _ eq_refl) as (m' & Ht' & Href').
    destruct (Reference_unique _ _ _ _ _ _ _ Ht' Href' Ht Href) as [-> ->].
    reflexivity.
  - exfalso. revert E. rewrite match_at_issueExp_run.
    destruct Href as (kw & w & h & ds & Hkw & Hw & Hh & Hd & Hst & -> & ->).
    subst t. rewrite <- !app_assoc.
    apply run_Alts_ILit_complete with (w := str kw).
    + apply in_map, Hkw.
    + exact Hw.
    + assert (Hsome : run referenceTail (str " " ++ h ++ ds ++ rest)
                [(1%nat, take (length (w ++ str " " ++ h ++ ds ++ rest)
                                - length (str " " ++ h ++ ds ++ rest))
                           (w ++ str " " ++ h ++ ds ++ rest))]
                (fun s'' cs'' => Some (s'', cs''))
              = Some (rest, [(2%nat, ds);
                             (1%nat, take (length (w ++ str " " ++ h ++ ds ++ rest)
                                - length (str " " ++ h ++ ds ++ rest))
                           (w ++ str " " ++ h ++ ds ++ rest))])).
      { apply referenceTail_spec. exists h, ds. auto. }
      rewrite Hsome. discriminate.
Qed.

(** X18: [IssueNumbersFromCommit] finds a reference that closes an issue: one
    of the nine keywords in any letter case, one space, an optional [#] and
    the digits of a number. Without such a reference in the message it
    fails with the "no matches" error. With one, it reads the number of the
    first reference, all its digits, and returns it alone when it fits an
    [int]; it fails with the range error when it does not. *)
Theorem IssueNumbersFromCommit_first_reference (commit : RepositoryCommit) :
  (IssueNumbersFromCommit commit = Err NoMatchIssue
   <-> ~ hasReference (Message commit))
  /\ (forall pre w h ds rest,
        firstReference (Message commit) pre w h ds rest ->
        IssueNumbersFromCommit commit
        = if decimal ds <=? maxInt
          then Ok [decimal ds]
          else Err (AtoiError ErrRange ds))
  /\ (forall kw w h ds rest,
        In kw CloseIssueKeywords -> foldWord (str kw) w ->
        h = [] \/ h = str "#" -> allDigits ds -> stops isDigit rest ->
        Message commit = w ++ str " " ++ h ++ ds ++ rest ->
        firstReference (Message commit) [] w h ds rest).
Proof.
  rewrite IssueNumbersFromCommit_search. split; [|split].
  - rewrite <- (search_occursIn issueExp Reference match_at_issueExp_Reference).
    destruct (search issueExp (Message commit)) as [f|]; [|tauto].
    split; [|discriminate]. cbv zeta.
    destruct (Atoi (capLookup 2 (f_caps f))); discriminate.
  - intros pre w h ds rest Hf.
    pose proof Hf as (_ & (kw & w0 & h0 & ds0 & _ & _ & _ & (Hd & Hne) & _ & _ & Hcs) & _).
    injection Hcs as <- <-.
    rewrite (search_occursFirst issueExp Reference match_at_issueExp_Reference
               _ _ _ _ _ Hf).
    cbn [f_caps capLookup Nat.eqb]. cbv zeta.
    rewrite (Atoi_digits _ Hd Hne).
    now destruct (decimal ds <=? maxInt).
  - intros kw w h ds rest Hkw Hw Hh Hd Hst Hm.
    split; [|split].
    + rewrite Hm, <- !app_assoc. reflexivity.
    + exists kw, w, h, ds. auto 10.
    + intros pre' m' cs' rest' _ _. cbn [length]. lia.
Qed.

(** X18, on the commit [cDark]: the first reference is [Fixes #12], on the third
    line of the message. *)
Lemma IssueNumbersFromCommit_first_reference_witness :
  firstReference (Message Examples.cDark)
    (str "Add dark mode toggle (#5678)" ++ [LF; LF]) (str "Fixes") (str "#")
    (str "12") []
  /\ IssueNumbersFromCommit Examples.cDark = Ok [12].
Proof.
  assert (Hf : firstReference (Message Examples.cDark)
                 (str "Add dark mode toggle (#5678)" ++ [LF; LF]) (str "Fixes")
                 (str "#") (str "12") []).
  { apply (occursFirst_of_search issueExp Reference match_at_issueExp_Reference
             (Message Examples.cDark)
             {| f_before := str "Add dark mode toggle (#5678)" ++ [LF; LF];
                f_matched := str "Fixes #12";
                f_caps := [(2%nat, str "12"); (1%nat, str "Fixes")];
                f_after := [] |}).
    vm_compute. reflexivity. }
  split; [exact Hf|].
  rewrite (proj1 (proj2 (IssueNumbersFromCommit_first_reference Examples.cDark))
             _ _ _ _ _ Hf).
  vm_compute. reflexivity.
Defined.

(** ** The command line *)

Section CommandLineFacts.

Import Main CommandLine.

Lemma nameOf_inj a b : nameOf a = nameOf b -> a = b.
Proof. destruct a, b; intros H; try reflexivity; discriminate H. Qed.

Lemma sameFlag_spec a b : sameFlag a b = true <-> a = b.
Proof. destruct a, b; cbn; split; congruence. Qed.

Lemma declared_insert f n v : declared f -> declared (<[nameOf n := v]> f).
Proof.
  intros H m. destruct (decide (nameOf n = nameOf m)) as [E|E].
  - rewrite E, lookup_insert_eq. eauto.
  - rewrite lookup_insert_ne by exact E. apply H.
Qed.

Lemma splitValue_name n :
  splitValue (nameOf n) = (nameOf n, None).
Proof. destruct n; vm_compute; reflexivity. Qed.

Lemma splitValue_joined n v :
  splitValue (nameOf n ++ str "=" ++ v) = (nameOf n, Some v).
Proof. destruct n; vm_compute; reflexivity. Qed.

Lemma parseOne_render f x args :
  declared f ->
  parseOne f (render x ++ args)
  = Seen (<[nameOf (s_flag x) := s_value x]> f) args.
Proof.
  intros Hd. destruct (Hd (s_flag x)) as (old & Hold).
  destruct x as [n v two joined]. cbn [s_flag s_value] in *.
  unfold render. cbn [s_joined s_two s_flag s_value].
  destruct joined; cbn [app].
  - assert (Hs : parseOne f ((minuses two ++ nameOf n ++ str "=" ++ v) :: args)
                 = let '(name, value) := splitValue (nameOf n ++ str "=" ++ v) in
                   match f !! name with
                   | None => Failf
                   | Some _ =>
                       match value, args with
                       | Some v, _ => Seen (<[name := v]> f) args
                       | None, v :: args'' => Seen (<[name := v]> f) args''
                       | None, [] => Failf
                       end
                   end).
    { destruct two, n; reflexivity. }
    rewrite Hs, splitValue_joined, Hold. reflexivity.
  - assert (Hs : parseOne f ((minuses two ++ nameOf n) :: v :: args)
                 = let '(name, value) := splitValue (nameOf n) in
                   match f !! name with
                   | None => Failf
                   | Some _ =>
                       match value, v :: args with
                       | Some v, _ => Seen (<[name := v]> f) (v :: args)
                       | None, v :: args'' => Seen (<[name := v]> f) args''
                       | None, [] => Failf
                       end
                   end).
    { destruct two, n; reflexivity. }
    rewrite Hs, splitValue_name, Hold. reflexivity.
Qed.

Lemma parseOne_endsFlags f rest :
  endsFlags rest = true -> parseOne f rest = Over.
Proof.
  destruct rest as [|s rest]; [reflexivity|]. cbn [endsFlags parseOne].
  destruct s as [|c0 [|c1 s2]]; [reflexivity..|].
  destruct (Ascii.eqb_spec c0 "-"%char) as [->|Hne]; [|reflexivity].
  change (length ("-"%char :: c1 :: s2) <? 2)%nat with false.
  change (HasPrefix ("-"%char :: c1 :: s2) (str "-")) with true.
  cbn [orb negb]. intros He. apply eqs_true in He.
  injection He as -> ->. reflexivity.
Qed.

Lemma parseOne_Seen f args f' args' :
  parseOne f args = Seen f' args' -> (length args' < length args)%nat.
Proof.
  unfold parseOne. destruct args as [|s args0]; [discriminate|].
  destruct s as [|c0 [|c1 s2]]; try discriminate.
  destruct (negb (Ascii.eqb c0 "-")); [discriminate|].
  destruct (Ascii.eqb c1 "-" && Nat.eqb (length (c0 :: c1 :: s2)) 2);
    [discriminate|].
  destruct (if Ascii.eqb c1 "-" then s2 else c1 :: s2) as [|n0 name];
    [discriminate|].
  destruct (Ascii.eqb n0 "-" || Ascii.eqb n0 "="); [discriminate|].
  destruct (splitValue (n0 :: name)) as [nm [v|]];
    destruct (f !! nm); try discriminate.
  - intros [= _ <-]. cbn [length]. lia.
  - destruct args0 as [|v args1]; [discriminate|].
    intros [= _ <-]. cbn [length]. lia.
Qed.

(** More fuel than arguments changes nothing. *)
Lemma parseLoop_fuel n m f args :
  (length args <= n)%nat -> (length args <= m)%nat ->
  parseLoop n f args = parseLoop m f args.
Proof.
  revert m f args. induction n as [|n IH]; intros m f args Hn Hm.
  - destruct args; [|cbn [length] in Hn; lia].
    destruct m; reflexivity.
  - destruct m as [|m].
    + destruct args; [|cbn [length] in Hm; lia]. reflexivity.
    + cbn [parseLoop]. destruct (parseOne f args) as [f' args'| |] eqn:E;
        try reflexivity.
      apply parseOne_Seen in E. apply IH; lia.
Qed.

Lemma length_render x : (1 <= length (render x))%nat.
Proof. unfold render. destruct (s_joined x); cbn [length]; lia. Qed.

Lemma parseLoop_settings fuel f settings rest :
  (length (flat_map render settings ++ rest) <= fuel)%nat ->
  declared f -> endsFlags rest = true ->
  parseLoop fuel f (flat_map render settings ++ rest)
  = Some (fold_left assign settings f).
Proof.
  revert fuel f. induction settings as [|x settings IH]; intros fuel f Hl Hd He.
  - cbn [flat_map app fold_left]. destruct fuel; cbn [parseLoop];
      rewrite (parseOne_endsFlags _ _ He); reflexivity.
  - cbn [flat_map fold_left] in *. rewrite <- app_assoc in *.
    pose proof (length_render x) as Hx. rewrite length_app in Hl.
    destruct fuel as [|fuel]; [lia|]. cbn [parseLoop].
    rewrite (parseOne_render _ _ _ Hd). apply IH; [lia| |exact He].
    apply declared_insert, Hd.
Qed.

Lemma flagValue_assign f settings n :
  flagValue (fold_left assign settings f) (nameOf n)
  = default (flagValue f (nameOf n)) (last (omap (valueFor n) settings)).
Proof.
  induction settings as [|x settings IH] using rev_ind; [reflexivity|].
  rewrite fold_left_app, omap_app. cbn [fold_left omap list_omap].
  unfold assign at 1, valueFor at 2, flagValue at 1.
  destruct (sameFlag (s_flag x) n) eqn:E.
  - apply sameFlag_spec in E as ->. rewrite lookup_insert_eq, last_snoc.
    reflexivity.
  - rewrite lookup_insert_ne.
    + rewrite app_nil_r. exact IH.
    + intros Hn. apply nameOf_inj in Hn. apply sameFlag_spec in Hn. congruence.
Qed.

Lemma flagset0_value env n :
  flagset0 env !! nameOf n = Some (default [] (env (variableOf n))).
Proof.
  unfold flagset0, env_String.
  destruct n; cbn [nameOf variableOf].
  - rewrite lookup_insert_ne by discriminate.
    rewrite lookup_insert_ne by discriminate.
    rewrite lookup_insert_eq. now destruct (env _).
  - rewrite lookup_insert_ne by discriminate.
    rewrite lookup_insert_eq. now destruct (env _).
  - rewrite lookup_insert_eq. now destruct (env _).
Qed.

Lemma Parse_settings env settings rest :
  endsFlags rest = true ->
  exists f,
    Parse (flagset0 env) (flat_map render settings ++ rest) = Some f
    /\ forall n, flagValue f (nameOf n) = chosen env settings n.
Proof.
  intros He. eexists. split.
  - unfold Parse. apply parseLoop_settings; [lia| |exact He].
    intros n. rewrite flagset0_value. eauto.
  - intros n. rewrite flagValue_assign. unfold chosen, flagValue at 1.
    rewrite flagset0_value. reflexivity.
Qed.

Lemma parseOne_last_flag f n two :
  declared f -> parseOne f [minuses two ++ nameOf n] = Failf.
Proof.
  intros Hd. destruct (Hd n) as (old & Hold).
  assert (Hs : parseOne f [minuses two ++ nameOf n]
               = let '(name, value) := splitValue (nameOf n) in
                 match f !! name with
                 | None => Failf
                 | Some _ =>
                     match value, @nil gostring with
                     | Some v, _ => Seen (<[name := v]> f) []
                     | None, v :: args'' => Seen (<[name := v]> f) args''
                     | None, [] => Failf
                     end
                 end).
  { destruct two, n; reflexivity. }
  rewrite Hs, splitValue_name, Hold. reflexivity.
Qed.

Lemma parseOne_undeclared f c name two rest :
  c <> "-"%char -> c <> "="%char -> ~ In "="%char name ->
  f !! (c :: name) = None ->
  parseOne f ((minuses two ++ c :: name) :: rest) = Failf.
Proof.
  intros H1 H2 H3 Hf.
  assert (Hs : splitValue (c :: name) = (c :: name, None)).
  { cbn [splitValue]. now rewrite (proj2 (IndexByte_None name "="%char) H3). }
  assert (E1 : Ascii.eqb c "-" = false) by now apply Ascii.eqb_neq.
  assert (E2 : Ascii.eqb c "=" = false) by now apply Ascii.eqb_neq.
  destruct two; unfold minuses, str; cbn [list_ascii_of_string app parseOne].
  - change (Ascii.eqb "-" "-") with true. cbn [negb andb length Nat.eqb].
    rewrite E1, E2. cbn [orb]. rewrite Hs, Hf. reflexivity.
  - change (Ascii.eqb "-" "-") with true. cbn [negb]. rewrite E1.
    cbn [andb]. rewrite E1, E2. cbn [orb]. rewrite Hs, Hf. reflexivity.
Qed.

Lemma assign_undeclared f settings name :
  (forall n, name <> nameOf n) -> f !! name = None ->
  fold_left assign settings f !! name = None.
Proof.
  intros Hn. revert f. induction settings as [|x settings IH]; intros f Hf;
    [exact Hf|].
  cbn [fold_left]. apply IH. unfold assign.
  rewrite lookup_insert_ne; [exact Hf|]. intros E. apply (Hn (s_flag x)).
  now symmetry.
Qed.

Lemma declared_assign f settings :
  declared f -> declared (fold_left assign settings f).
Proof.
  revert f. induction settings as [|x settings IH]; intros f Hd; [exact Hd|].
  cbn [fold_left]. apply IH, declared_insert, Hd.
Qed.

Lemma declared_flagset0 env : declared (flagset0 env).
Proof. intros n. rewrite flagset0_value. eauto. Qed.

Lemma flagset0_undeclared env name :
  (forall n, name <> nameOf n) -> flagset0 env !! name = None.
Proof.
  intros Hn. unfold flagset0.
  rewrite lookup_insert_ne by (intros E; apply (Hn FlEndSHA); now symmetry).
  rewrite lookup_insert_ne by (intros E; apply (Hn FlStartSHA); now symmetry).
  rewrite lookup_insert_ne by (intros E; apply (Hn FlGitHubToken); now symmetry).
  apply lookup_empty.
Qed.

Lemma parseLoop_fails fuel f settings bad rest :
  (length (flat_map render settings) <= fuel)%nat ->
  declared f ->
  (forall f', declared f' ->
     (forall name, f !! name = None -> f' !! name = None) ->
     parseOne f' (bad :: rest) = Failf) ->
  parseLoop fuel f (flat_map render settings ++ bad :: rest) = None.
Proof.
  revert fuel f. induction settings as [|x settings IH]; intros fuel f Hl Hd Hbad.
  - cbn [flat_map app]. destruct fuel; cbn [parseLoop];
      rewrite (Hbad f Hd (fun _ H => H)); reflexivity.
  - cbn [flat_map] in *. rewrite <- app_assoc.
    pose proof (length_render x) as Hx. rewrite length_app in Hl.
    destruct fuel as [|fuel]; [lia|]. cbn [parseLoop].
    rewrite (parseOne_render _ _ _ Hd). apply IH; [lia| |].
    + apply declared_insert, Hd.
    + intros f' Hd' Hsub. apply Hbad; [exact Hd'|].
      intros name Hname. apply Hsub.
      destruct (decide (nameOf (s_flag x) = name)) as [<-|Hne].
      * destruct (Hd (s_flag x)) as (old & Hold). congruence.
      * rewrite lookup_insert_ne by exact Hne. exact Hname.
Qed.

(** X19: when the arguments are flags of the three declared names, each with
    its value joined by [=] or in the next argument, up to the end, to an
    argument that is not a flag or to [--], [parseOptions] takes for every
    flag the last value given on the command line, and without one the
    value of the environment variable of the flag; what follows the flags is
    ignored. It then requires the token, the start and the end in that
    order: the first one that is empty gives the error, and the options are
    returned when none is. *)
Theorem parseOptions_settings env settings rest :
  endsFlags rest = true ->
  let token := chosen env settings FlGitHubToken in
  let start := chosen env settings FlStartSHA in
  let end_ := chosen env settings FlEndSHA in
  let result := parseOptions env (flat_map render settings ++ rest) in
  (token = [] ->
   result = Error (str "GitHub token must be set via -github-token or $GITHUB_TOKEN"))
  /\ (token <> [] -> start = [] ->
      result = Error (str "The starting commit hash must be set via -start-sha or $START_SHA"))
  /\ (token <> [] -> start <> [] -> end_ = [] ->
      result = Error (str "The ending commit hash must be set via -end-sha or $END_SHA"))
  /\ (token <> [] -> start <> [] -> end_ <> [] ->
      result = Options {| githubToken := token; startSHA := start;
                          endSHA := end_ |}).
Proof.
  intros He token start end_ result.
  destruct (Parse_settings env settings rest He) as (f & Hp & Hv).
  assert (Hr : result
               = if eqs token [] then
                   Error (str "GitHub token must be set via -github-token or $GITHUB_TOKEN")
                 else if eqs start [] then
                   Error (str "The starting commit hash must be set via -start-sha or $START_SHA")
                 else if eqs end_ [] then
                   Error (str "The ending commit hash must be set via -end-sha or $END_SHA")
                 else Options {| githubToken := token; startSHA := start;
                                 endSHA := end_ |}).
  { unfold result, parseOptions. cbv zeta. fold (flagset0 env). rewrite Hp.
    pose proof (Hv FlGitHubToken) as H1. pose proof (Hv FlStartSHA) as H2.
    pose proof (Hv FlEndSHA) as H3. cbn [nameOf] in H1, H2, H3.
    rewrite H1, H2, H3. reflexivity. }
  rewrite Hr. repeat split.
  - intros ->. reflexivity.
  - intros Ht ->. apply eqs_false in Ht. rewrite Ht. reflexivity.
  - intros Ht Hs ->. apply eqs_false in Ht, Hs. rewrite Ht, Hs. reflexivity.
  - intros Ht Hs Hn. apply eqs_false in Ht, Hs, Hn. rewrite Ht, Hs, Hn. reflexivity.
Qed.

(** X20: [parseOptions] never returns options with an empty field. It does
    not return at all, because [flag] ends the process, when after flags of
    the declared names the last argument is a declared flag without a
    value, or an argument names a flag that is not declared, such as [-h]
    and [-help]. *)
Theorem parseOptions_exits env :
  (forall args o,
     parseOptions env args = Options o ->
     githubToken o <> [] /\ startSHA o <> [] /\ endSHA o <> [])
  /\ (forall settings n two,
        parseOptions env (flat_map render settings ++ [minuses two ++ nameOf n])
        = Exit)
  /\ (forall settings c name two rest,
        c <> "-"%char -> c <> "="%char -> ~ In "="%char name ->
        (forall n, c :: name <> nameOf n) ->
        parseOptions env
          (flat_map render settings ++ (minuses two ++ c :: name) :: rest)
        = Exit).
Proof.
  split; [|split].
  - intros args o. unfold parseOptions. cbv zeta.
    destruct (Parse _ args) as [f|]; [|discriminate].
    destruct (eqs (flagValue f (str "github-token")) []) eqn:E1; [discriminate|].
    destruct (eqs (flagValue f (str "start-sha")) []) eqn:E2; [discriminate|].
    destruct (eqs (flagValue f (str "end-sha")) []) eqn:E3; [discriminate|].
    intros [= <-]. cbn [githubToken startSHA endSHA].
    apply eqs_false in E1, E2, E3. auto.
  - intros settings n two. unfold parseOptions. cbv zeta. fold (flagset0 env).
    unfold Parse. rewrite parseLoop_fails; [reflexivity| | |].
    + rewrite length_app. lia.
    + apply declared_flagset0.
    + intros f' Hd' _. apply parseOne_last_flag, Hd'.
  - intros settings c name two rest H1 H2 H3 Hn.
    unfold parseOptions. cbv zeta. fold (flagset0 env).
    unfold Parse. rewrite parseLoop_fails; [reflexivity| | |].
    + rewrite length_app. lia.
    + apply declared_flagset0.
    + intros f' Hd' Hsub. apply parseOne_undeclared; try assumption.
      apply Hsub, flagset0_undeclared, Hn.
Qed.

(** X19, with the token in the environment, the start given twice and
    arguments after the flags. *)
Lemma parseOptions_settings_witness :
  parseOptions
    (fun key => if eqs key (str "GITHUB_TOKEN") then Some (str "t0k") else None)
    [str "-start-sha"; str "aaa"; str "--end-sha=bbb"; str "-start-sha=ccc";
     str "notes.md"; str "-end-sha=ddd"]
  = Options {| githubToken := str "t0k"; startSHA := str "ccc";
               endSHA := str "bbb" |}.
Proof.
  apply (proj2 (proj2 (proj2
    (parseOptions_settings
       (fun key => if eqs key (str "GITHUB_TOKEN") then Some (str "t0k") else None)
       [ {| s_flag := FlStartSHA; s_value := str "aaa"; s_two := false;
            s_joined := false |};
         {| s_flag := FlEndSHA; s_value := str "bbb"; s_two := true;
            s_joined := true |};
         {| s_flag := FlStartSHA; s_value := str "ccc"; s_two := false;
            s_joined := true |} ]
       [str "notes.md"; str "-end-sha=ddd"]
       ltac:(vm_compute; reflexivity))))).
  - vm_compute. discriminate.
  - vm_compute. discriminate.
  - vm_compute. discriminate.
Defined.

(** X20, the flag [-help] is not declared. *)
Lemma parseOptions_exits_witness :
  parseOptions (fun _ => None)
    [str "-github-token"; str "t0k"; str "-help"]
  = Exit.
Proof.
  apply (proj2 (proj2 (parseOptions_exits (fun _ => None)))
           [ {| s_flag := FlGitHubToken; s_value := str "t0k"; s_two := false;
                s_joined := false |} ]
           "h"%char (str "elp") false []).
  - discriminate.
  - discriminate.
  - vm_compute. intuition discriminate.
  - intros n. destruct n; discriminate.
Defined.

End CommandLineFacts.
